(** * Product-key retrieval utilities: a shallow embedding of [utils/utils.py]

    The development follows the Python module function by function:
    the dimension slicer [get_slices], the batched [cartesian_product],
    the two nearest-neighbour searches [get_knn_pytorch] and
    [get_knn_faiss], and the key generators [get_gaussian_keys] and
    [get_uniform_keys].  Definitions come first, the facts proved about
    them afterwards. *)

From Stdlib Require Import String.
From Stdlib Require Import Reals Lra.
From Stdlib Require Import Floats.SpecFloat.
From Stdlib Require Import ZArith List Lia ZifyNat Bool Arith PeanoNat.
From Stdlib Require Import Permutation Sorted.
Import ListNotations.

Set Implicit Arguments.

(** ** Python results

    A call either returns a value or raises.  Only the exception classes
    that the module can raise are listed. *)

Module Py.

Inductive exn : Type :=
| AssertionError     (* a failed [assert] *)
| ZeroDivisionError  (* integer division by zero, also inside numpy *)
| ValueError         (* unpacking a shape of the wrong rank; a seed out of range *)
| UnboundLocalError  (* a local variable read before any branch assigned it *)
| OverflowError      (* a number beyond the range of a float *)
| RuntimeError.      (* raised by the tensor library *)

Definition result (A : Type) : Type := (exn + A)%type.

Definition ret {A : Type} (a : A) : result A := inr a.
Definition raise {A : Type} (e : exn) : result A := inl e.

Definition bind {A B : Type} (m : result A) (k : A -> result B) : result B :=
  match m with
  | inl e => inl e
  | inr a => k a
  end.

(** [assert c] *)
Definition assert (c : bool) : result unit :=
  if c then ret tt else raise AssertionError.

Definition returns {A : Type} (m : result A) : Prop := exists a, m = inr a.

End Py.

Declare Scope py_scope.
Delimit Scope py_scope with py.
Notation "x <- m ;; k" := (Py.bind m (fun x => k))
  (at level 61, m at next level, right associativity) : py_scope.
Notation "m ;;; k" := (Py.bind m (fun _ => k))
  (at level 61, right associativity) : py_scope.

(** ** [get_slices] *)

Module Slices.
Import Py.
Local Open Scope Z_scope.
Local Open Scope py_scope.

(** A slice [(start, stop)] stands for the half-open range [start, stop). *)
Definition slice : Type := (Z * Z)%type.

Definition in_slice (s : slice) (x : Z) : Prop := fst s <= x < snd s.

(** Ceiling of the quotient, from the floor division of [Z]. *)
Definition ceil_div (a b : Z) : Z := - ((- a) / b).

(** [np.arange(start, stop, step)] on Python integers: a zero step
    raises, otherwise the array has [ceil((stop - start) / step)]
    elements (none when that is not positive), the [i]-th being
    [start + i * step]. *)
Definition np_arange (start stop step : Z) : result (list Z) :=
  if step =? 0 then raise ZeroDivisionError
  else ret (map (fun i => start + Z.of_nat i * step)
                (seq 0 (Z.to_nat (ceil_div (stop - start) step)))).

(** [enumerate(l)] *)
Definition enumerate {A : Type} (l : list A) : list (nat * A) :=
  combine (seq 0 (length l)) l.

(** [[(x, x + offset) for i, x in enumerate(starts) if i % 2 == r]] *)
Definition comprehension (offset : Z) (r : nat) (starts : list Z) : list slice :=
  map (fun ix => (snd ix, snd ix + offset))
      (filter (fun ix => Nat.eqb (fst ix mod 2) r) (enumerate starts)).

Definition get_slices (dim : Z) (head_id : nat) : result (list slice) :=
  if Nat.eqb head_id 0 then ret [(0, dim)]
  else
    let offset := dim / 2 ^ (Z.of_nat head_id + 1) in
    starts <- np_arange 0 dim offset ;;
    let slices1 := comprehension offset 0 starts in
    let slices2 := comprehension offset 1 starts in
    ret (slices1 ++ slices2).

(** The description of the slicer in words: blocks of width [offset]
    numbered from [0], the even-numbered ones first, then the odd-numbered
    ones, each group in ascending order. *)
Definition block (offset : Z) (i : nat) : slice :=
  (Z.of_nat i * offset, Z.of_nat i * offset + offset).

Definition block_count (dim offset : Z) : nat := Z.to_nat (ceil_div dim offset).

Definition group_A (dim offset : Z) : list slice :=
  map (fun t => block offset (2 * t)) (seq 0 ((block_count dim offset + 1) / 2)).

Definition group_B (dim offset : Z) : list slice :=
  map (fun t => block offset (2 * t + 1)) (seq 0 (block_count dim offset / 2)).

(** The number of the block at position [i] of [group_A ++ group_B],
    when there are [cnt] blocks. *)
Definition block_at (cnt i : nat) : nat :=
  if (i <? (cnt + 1) / 2)%nat then (2 * i)%nat
  else (2 * (i - (cnt + 1) / 2) + 1)%nat.

(** Ranges at different positions of the list share no coordinate. *)
Definition pairwise_disjoint (l : list slice) : Prop :=
  forall i j s t, nth_error l i = Some s -> nth_error l j = Some t ->
                  i <> j -> forall x, ~ (in_slice s x /\ in_slice t x).

(** The union of the ranges is the interval [lo, hi). *)
Definition union_is (l : list slice) (lo hi : Z) : Prop :=
  forall x, (exists s, In s l /\ in_slice s x) <-> lo <= x < hi.

(** Right end of the region that the returned ranges cover. *)
Definition extent (dim : Z) (head_id : nat) : Z :=
  if Nat.eqb head_id 0 then dim
  else let offset := dim / 2 ^ (Z.of_nat head_id + 1) in
       offset * ceil_div dim offset.

End Slices.

(** ** Tensors and [cartesian_product] *)

Module Tensor.
Import Py.
Local Open Scope nat_scope.
Local Open Scope py_scope.

(** A tensor is its shape and its entries, addressed by one index per
    dimension.  Entries outside the shape are never looked at. *)
Record tensor (T : Type) : Type := mk
  { shape : list nat;
    at_ : list nat -> T }.

Arguments mk {T} _ _.

Definition numel (sh : list nat) : nat := fold_right Nat.mul 1 sh.

(** Row-major position of an index in contiguous storage, and back. *)
Fixpoint ravel (sh idx : list nat) : nat :=
  match sh, idx with
  | _ :: sh', i :: idx' => i * numel sh' + ravel sh' idx'
  | _, _ => 0
  end.

Fixpoint unravel (sh : list nat) (k : nat) : list nat :=
  match sh with
  | [] => []
  | _ :: sh' => (k / numel sh') :: unravel sh' (k mod numel sh')
  end.

(** An index addresses an entry of the shape. *)
Definition in_shape (sh idx : list nat) : Prop := Forall2 (fun i s => i < s) idx sh.

Section Ops.
Context {T : Type}.

(** [x.unsqueeze(dim)]: a dimension of size one is inserted at [dim],
    counted from the end when negative. *)
Definition unsqueeze (x : tensor T) (dim : Z) : tensor T :=
  let rank := List.length (shape x) in
  let pos := Z.to_nat (if (dim <? 0)%Z then dim + Z.of_nat rank + 1 else dim)%Z in
  mk (firstn pos (shape x) ++ 1 :: skipn pos (shape x))
     (fun idx => at_ x (firstn pos idx ++ skipn (S pos) idx)).

(** [x.repeat(r1, ..., rk)]: the tensor is tiled along each dimension;
    fewer repeat counts than dimensions is an error, more counts add
    leading dimensions of size one first. *)
Definition repeat_tensor (x : tensor T) (reps : list nat) : tensor T :=
  let extra := List.length reps - List.length (shape x) in
  let padded := List.repeat 1 extra ++ shape x in
  mk (map (fun sr => fst sr * snd sr) (combine padded reps))
     (fun idx => at_ x (skipn extra
                   (map (fun is_ => fst is_ mod snd is_) (combine idx padded)))).

Definition repeat (x : tensor T) (reps : list nat) : result (tensor T) :=
  if List.length reps <? List.length (shape x) then raise RuntimeError
  else ret (repeat_tensor x reps).

(** [x.view(s1, ..., sk)] of a contiguous tensor: same storage, new
    shape; the number of entries must agree. *)
Definition view_tensor (x : tensor T) (sh : list nat) : tensor T :=
  mk sh (fun idx => at_ x (unravel (shape x) (ravel sh idx))).

Definition view (x : tensor T) (sh : list nat) : result (tensor T) :=
  if numel sh =? numel (shape x) then ret (view_tensor x sh)
  else raise RuntimeError.

(** Replace the [dim]-th component of a list. *)
Definition set_nth (dim : nat) (v : nat) (l : list nat) : list nat :=
  firstn dim l ++ v :: skipn (S dim) l.

(** Shapes that agree except at [dim]. *)
Definition cat_compatible (dim : nat) (s1 s2 : list nat) : bool :=
  (dim <? List.length s1) &&
  if list_eq_dec Nat.eq_dec (set_nth dim 0 s1) (set_nth dim 0 s2) then true else false.

Definition cat2 (dim : nat) (x y : tensor T) : tensor T :=
  let sx := nth dim (shape x) 0 in
  mk (set_nth dim (sx + nth dim (shape y) 0) (shape x))
     (fun idx => let i := nth dim idx 0 in
                 if i <? sx then at_ x idx else at_ y (set_nth dim (i - sx) idx)).

Fixpoint cat_from (dim : nat) (x : tensor T) (ys : list (tensor T)) : result (tensor T) :=
  match ys with
  | [] => ret x
  | y :: ys' =>
      if cat_compatible dim (shape x) (shape y)
      then cat_from dim (cat2 dim x y) ys'
      else raise RuntimeError
  end.

(** [torch.cat(xs, dim)] *)
Definition cat (xs : list (tensor T)) (dim : nat) : result (tensor T) :=
  match xs with
  | [] => raise RuntimeError
  | x :: ys => cat_from dim x ys
  end.

Definition cartesian_product (a b : tensor T) : result (tensor T) :=
  match shape a, shape b with
  | [n1; d1], [n2; d2] =>
      assert (n1 =? n2) ;;;
      a3 <- repeat (unsqueeze a (-1)) [1; 1; d2] ;;
      b2 <- repeat b [1; d1] ;;
      b3 <- view b2 [n2; d1; d2] ;;
      c <- cat [unsqueeze a3 (-1); unsqueeze b3 (-1)] 3 ;;
      view c [n1; d1 * d2; 2]
  | _, _ => raise ValueError
  end.

(** A matrix given by its rows, for examples. *)
Definition of_rows (default : T) (n d : nat) (rows : list (list T)) : tensor T :=
  mk [n; d] (fun idx => nth (nth 1 idx 0) (nth (nth 0 idx 0) rows []) default).

(** The rows of a tensor of rank three, as lists. *)
Definition to_rows3 (x : tensor T) : list (list (list T)) :=
  match shape x with
  | [n; m; c] =>
      map (fun r => map (fun p => map (fun k => at_ x [r; p; k]) (seq 0 c)) (seq 0 m))
          (seq 0 n)
  | _ => []
  end.

End Ops.

End Tensor.

(** ** Nearest-neighbour search *)

Module Knn.
Import Py Tensor.
Local Open Scope nat_scope.
Local Open Scope py_scope.

(** The element type of a tensor, with the arithmetic that the search
    uses.  The code is the same for every element type; the instances
    below are IEEE binary32, the arithmetic of the [float32] tensors that
    the search is called on, and two exact arithmetics, the real numbers
    and the integers, in which the scores are the formulas without their
    rounding. *)
Class Scalar (T : Type) : Type :=
  { zero : T;
    add : T -> T -> T;
    sub : T -> T -> T;
    mul : T -> T -> T;
    div : T -> T -> T;
    sqrt : T -> T;
    two : T;                 (* the literal [2] *)
    eps : T;                 (* the literal [1e-9] *)
    leb : T -> T -> bool }.  (* the order that [topk] ranks by *)

Section Search.
Context {T : Type} `{Scalar T}.

(** *** Tensor operations used by the search *)

(** [x.t()] *)
Definition t (x : tensor T) : tensor T :=
  mk (rev (shape x)) (fun idx => at_ x (rev idx)).

(** [a.mm(b)].  Each entry is accumulated from left to right.  The
    library's kernel for floating-point tensors is free to accumulate in
    another order, and its choice depends on the shapes: the last bits of
    a floating-point score are not fixed by this definition. *)
Definition mm (a b : tensor T) : result (tensor T) :=
  match shape a, shape b with
  | [m; d], [d'; n] =>
      if d =? d'
      then ret (mk [m; n]
                  (fun idx =>
                     let j := nth 0 idx 0 in
                     let i := nth 1 idx 0 in
                     fold_left add
                       (map (fun c => mul (at_ a [j; c]) (at_ b [c; i])) (seq 0 d))
                       zero))
      else raise RuntimeError
  | _, _ => raise RuntimeError
  end.

(** An elementwise operation with a Python number, [x op c]. *)
Definition pointwise (f : T -> T) (x : tensor T) : tensor T :=
  mk (shape x) (fun idx => f (at_ x idx)).

(** [x.sum(1)] of a matrix. *)
Definition sum1 (x : tensor T) : tensor T :=
  mk (firstn 1 (shape x))
     (fun idx => fold_left add
                   (map (fun c => at_ x [nth 0 idx 0; c]) (seq 0 (nth 1 (shape x) 0)))
                   zero).

(** [x.norm(2, 1)] of a matrix: the Euclidean norm of each row. *)
Definition norm2_1 (x : tensor T) : tensor T :=
  pointwise sqrt (sum1 (pointwise (fun v => mul v v) x)).

(** The in-place update [x op= y] with broadcasting of [y]: a dimension
    of size one of [y] is read at index [0]. *)
Definition broadcast_index (sh idx : list nat) : list nat :=
  map (fun is_ => if snd is_ =? 1 then 0 else fst is_) (combine idx sh).

Definition broadcastable (sx sy : list nat) : bool :=
  (List.length sx =? List.length sy) &&
  forallb (fun p => (snd p =? 1) || (snd p =? fst p)) (combine sx sy).

Definition inplace (op : T -> T -> T) (x y : tensor T) : result (tensor T) :=
  if broadcastable (shape x) (shape y)
  then ret (mk (shape x)
              (fun idx => op (at_ x idx) (at_ y (broadcast_index (shape y) idx))))
  else raise RuntimeError.

(** *** [topk] *)

(** Insertion into a list of (index, score) pairs kept in descending
    order of score.  Among equal scores the lower index comes first; the
    tensor library leaves that order open. *)
Fixpoint insert_desc (x : nat * T) (l : list (nat * T)) : list (nat * T) :=
  match l with
  | [] => [x]
  | y :: l' => if leb (snd y) (snd x) then x :: l else y :: insert_desc x l'
  end.

(** [x] ranks at least as high as [y]. *)
Definition above (x y : nat * T) : Prop := leb (snd y) (snd x) = true.

Definition sort_desc (l : list (nat * T)) : list (nat * T) :=
  fold_right insert_desc [] l.

(** The [k] best entries of a column, as (index, score) pairs. *)
Definition topk_list (k : nat) (col : list T) : list (nat * T) :=
  firstn k (sort_desc (combine (seq 0 (List.length col)) col)).

Definition column (x : tensor T) (i : nat) : list T :=
  map (fun j => at_ x [j; i]) (seq 0 (nth 0 (shape x) 0)).

(** [x.topk(k=k, dim=0, largest=True)] of a matrix: values and indices
    of shape [(k, n)]; [k] larger than the number of rows is an error. *)
Definition topk (x : tensor T) (k : nat) : result (tensor T * tensor nat) :=
  match shape x with
  | [m; n] =>
      if k <=? m
      then ret (mk [k; n] (fun idx => snd (nth (nth 0 idx 0)
                                             (topk_list k (column x (nth 1 idx 0)))
                                             (0, zero))),
                mk [k; n] (fun idx => fst (nth (nth 0 idx 0)
                                             (topk_list k (column x (nth 1 idx 0)))
                                             (0, zero))))
      else raise RuntimeError
  | _ => raise RuntimeError
  end.

(** [x.t()] on the index tensor. *)
Definition t_idx (x : tensor nat) : tensor nat :=
  mk (rev (shape x)) (fun idx => at_ x (rev idx)).

(** *** [get_knn_pytorch] *)

Definition distances : list String.string :=
  ["dot_product"; "cosine"; "l2"]%string.

Definition str_in (s : String.string) (l : list String.string) : bool :=
  existsb (String.eqb s) l.

(** The score matrix of shape [(m, n)], one branch per distance. *)
Definition score_matrix (a b : tensor T) (distance : String.string) : result (tensor T) :=
  if String.eqb distance "dot_product" then
    mm a (t b)
  else if String.eqb distance "cosine" then
    scores <- mm a (t b) ;;
    scores <- inplace div scores
                (pointwise (fun v => add v eps) (unsqueeze (norm2_1 a) 1)) ;;
    inplace div scores
      (pointwise (fun v => add v eps) (unsqueeze (norm2_1 b) 0))
  else if String.eqb distance "l2" then
    scores <- mm a (t b) ;;
    let scores := pointwise (fun v => mul v two) scores in
    scores <- inplace sub scores
                (unsqueeze (sum1 (pointwise (fun v => mul v v) a)) 1) ;;
    inplace sub scores
      (unsqueeze (sum1 (pointwise (fun v => mul v v) b)) 0)
  else raise UnboundLocalError.

Definition get_knn_pytorch (a b : tensor T) (k : Z) (distance : String.string)
  : result (tensor T * tensor nat) :=
  match shape a, shape b with
  | [m; d], [n; d'] =>
      assert (d' =? d) ;;;
      assert (0 <? k)%Z ;;;
      assert (str_in distance distances) ;;;
      scores <- score_matrix a b distance ;;
      si <- topk scores (Z.to_nat k) ;;
      ret (t (fst si), t_idx (snd si))
  | _, _ => raise ValueError
  end.

(** *** The same search, described directly *)

(** Row [j] of a matrix, as a list. *)
Definition row (x : tensor T) (j : nat) : list T :=
  map (fun c => at_ x [j; c]) (seq 0 (nth 1 (shape x) 0)).

Definition sum_list (l : list T) : T := fold_left add l zero.

Definition dot (u v : list T) : T :=
  sum_list (map (fun p => mul (fst p) (snd p)) (combine u v)).

Definition sq_norm (u : list T) : T := sum_list (map (fun x => mul x x) u).

Definition norm (u : list T) : T := sqrt (sq_norm u).

(** The score of a key [u] against a query [v], as each branch computes
    it. *)
Definition pair_score (distance : String.string) (u v : list T) : T :=
  if String.eqb distance "dot_product" then dot u v
  else if String.eqb distance "cosine" then
    div (div (dot u v) (add (norm u) eps)) (add (norm v) eps)
  else sub (sub (mul (dot u v) two) (sq_norm u)) (sq_norm v).

(** Negative squared Euclidean distance between a key and a query. *)
Definition neg_sq_dist (u v : list T) : T :=
  sub zero (sum_list (map (fun p => mul (sub (snd p) (fst p)) (sub (snd p) (fst p)))
                          (combine u v))).

(** Ranking the keys of [a] for query [i] of [b] by [neg_sq_dist]
    itself, with the same selection. *)
Definition knn_direct (a b : tensor T) (k : nat) (i : nat) : list nat :=
  map fst (topk_list k (map (fun j => neg_sq_dist (row a j) (row b i))
                            (seq 0 (nth 0 (shape a) 0)))).

End Search.

(** The rows of a matrix as lists, and the rows of a search result. *)
Definition rows_of {A : Type} (x : tensor A) : list (list A) :=
  match shape x with
  | [n; k] => map (fun i => map (fun j => at_ x [i; j]) (seq 0 k)) (seq 0 n)
  | _ => []
  end.

Definition run {A B : Type} (r : result (tensor A * tensor B))
  : option (list (list A) * list (list B)) :=
  match r with
  | inr (s, i) => Some (rows_of s, rows_of i)
  | inl _ => None
  end.

End Knn.

(** *** [get_knn_faiss] *)

Module Faiss.
Import Py.
Local Open Scope Z_scope.
Local Open Scope py_scope.

Inductive dtype : Type := float32 | float64 | int64.

Definition dtype_eqb (x y : dtype) : bool :=
  match x, y with
  | float32, float32 | float64, float64 | int64, int64 => true
  | _, _ => false
  end.

(** What the native search looks at in a tensor: its sizes, where it
    lives, the element type, and the storage behind it. *)
Record torch_tensor : Type :=
  { size : list nat;
    device : string;
    dtype_of : dtype;
    is_contiguous : bool;
    data_ptr : Z;
    storage_offset : Z }.

Inductive metric_type : Type := METRIC_INNER_PRODUCT | METRIC_L2.
Inductive data_type : Type := DistanceDataType_F32.
Inductive indices_type : Type := IndicesDataType_I64.

Record GpuDistanceParams : Type :=
  { metric : metric_type;
    k : Z;
    dims : nat;
    vectors : Z;
    vectorsRowMajor : bool;
    vectorType : data_type;
    numVectors : nat;
    queries : Z;
    queriesRowMajor : bool;
    queryType : data_type;
    numQueries : nat;
    outDistances : Z;
    outIndices : Z;
    outIndicesType : indices_type }.

(** The two checks of [swig_ptr_from_FloatTensor] in one. *)
Definition float_ok (x : torch_tensor) : bool :=
  is_contiguous x && dtype_eqb (dtype_of x) float32.

Definition swig_ptr_from_FloatTensor (x : torch_tensor) : result Z :=
  assert (is_contiguous x) ;;;
  assert (dtype_eqb (dtype_of x) float32) ;;;
  ret (data_ptr x + storage_offset x * 4).

Definition swig_ptr_from_IndicesTensor (x : torch_tensor) : result Z :=
  assert (is_contiguous x) ;;;
  assert (dtype_eqb (dtype_of x) int64) ;;;
  ret (data_ptr x + storage_offset x * 8).

(** [torch.empty(n, k, device=dev, dtype=ty)], allocated at [addr]: a
    negative size is an error. *)
Definition torch_empty (n : nat) (k : Z) (dev : string) (ty : dtype) (addr : Z)
  : result torch_tensor :=
  if k <? 0 then raise RuntimeError
  else ret {| size := [n; Z.to_nat k]; device := dev; dtype_of := ty;
              is_contiguous := true; data_ptr := addr; storage_offset := 0 |}.

Definition faiss_distances : list string := ["dot_product"; "l2"]%string.

(** The body of [get_knn_faiss] up to the call of the library: the checks
    and the argument record.  [addr_D] and [addr_I] are the addresses at
    which the two output tensors get allocated. *)
Definition get_knn_faiss_args (xb xq : torch_tensor) (k : Z) (distance : string)
    (addr_D addr_I : Z)
  : result (GpuDistanceParams * torch_tensor * torch_tensor) :=
  assert (String.eqb (device xb) (device xq)) ;;;
  assert (existsb (String.eqb distance) faiss_distances) ;;;
  let metric :=
    if String.eqb distance "dot_product" then METRIC_INNER_PRODUCT else METRIC_L2 in
  xq_ptr <- swig_ptr_from_FloatTensor xq ;;
  xb_ptr <- swig_ptr_from_FloatTensor xb ;;
  match size xq, size xb with
  | [nq; d1], [nb; d2] =>
      assert (Nat.eqb d1 d2) ;;;
      D <- torch_empty nq k (device xb) float32 addr_D ;;
      I <- torch_empty nq k (device xb) int64 addr_I ;;
      D_ptr <- swig_ptr_from_FloatTensor D ;;
      I_ptr <- swig_ptr_from_IndicesTensor I ;;
      ret ({| metric := metric; k := k; dims := d1;
              vectors := xb_ptr; vectorsRowMajor := false;
              vectorType := DistanceDataType_F32; numVectors := nb;
              queries := xq_ptr; queriesRowMajor := false;
              queryType := DistanceDataType_F32; numQueries := nq;
              outDistances := D_ptr; outIndices := I_ptr;
              outIndicesType := IndicesDataType_I64 |}, D, I)
  | _, _ => raise ValueError
  end.

(** [get_knn_faiss]: the library call [faiss.bfKnn(FAISS_RES, args)]
    fills the two output tensors; the library is not part of this module
    and is taken as a parameter. *)
Definition get_knn_faiss (bfKnn : GpuDistanceParams -> result unit)
    (xb xq : torch_tensor) (k : Z) (distance : string) (addr_D addr_I : Z)
  : result (torch_tensor * torch_tensor) :=
  r <- get_knn_faiss_args xb xq k distance addr_D addr_I ;;
  bfKnn (fst (fst r)) ;;;
  ret (snd (fst r), snd r).

End Faiss.

(** *** Element types *)

(** Exact integers, to evaluate examples on small whole numbers.  This
    is not the arithmetic of an integer tensor: the library refuses the
    norm of an integer tensor, so that [cosine] raises there, and its
    64-bit integers wrap around. *)
Module ZScalar.
#[export] Instance scalar : Knn.Scalar Z :=
  {| Knn.zero := 0%Z; Knn.add := Z.add; Knn.sub := Z.sub; Knn.mul := Z.mul;
     Knn.div := Z.div; Knn.sqrt := Z.sqrt; Knn.two := 2%Z; Knn.eps := 0%Z;
     Knn.leb := Z.leb |}.
End ZScalar.

(** Exact real arithmetic: the floating-point operations without their
    rounding. *)
Module RScalar.
Definition Rleb (x y : R) : bool := if Rle_dec x y then true else false.

#[export] Instance scalar : Knn.Scalar R :=
  {| Knn.zero := 0%R; Knn.add := Rplus; Knn.sub := Rminus; Knn.mul := Rmult;
     Knn.div := Rdiv; Knn.sqrt := R_sqrt.sqrt; Knn.two := 2%R;
     Knn.eps := (1 / 10 ^ 9)%R; Knn.leb := Rleb |}.
End RScalar.

(** IEEE 754 binary32 with rounding to nearest, ties to even: the
    arithmetic of a [float32] tensor. *)
Module F32.
Definition prec : Z := 24.
Definition emax : Z := 128.

Definition float32 : Type := spec_float.

(** The [float32] nearest to an integer. *)
Definition of_Z (z : Z) : float32 := binary_normalize prec emax z 0 false.

(** [topk] ranks a NaN above every number. *)
Definition f32_leb (x y : float32) : bool :=
  match y with
  | S754_nan => true
  | _ => SFleb x y
  end.

#[export] Instance scalar : Knn.Scalar float32 :=
  {| Knn.zero := S754_zero false;
     Knn.add := SFadd prec emax; Knn.sub := SFsub prec emax;
     Knn.mul := SFmul prec emax; Knn.div := SFdiv prec emax;
     Knn.sqrt := SFsqrt prec emax;
     Knn.two := of_Z 2;
     Knn.eps := SFdiv prec emax (of_Z 1) (of_Z 1000000000);
     Knn.leb := f32_leb |}.

(** The integer that a finite [float32] with non-negative exponent
    stands for. *)
Definition to_Z (x : float32) : option Z :=
  match x with
  | S754_zero _ => Some 0%Z
  | S754_finite s m e =>
      if (0 <=? e)%Z
      then Some ((if s then -1 else 1) * Z.pos m * 2 ^ e)%Z
      else if (Z.pos m mod 2 ^ (- e) =? 0)%Z
           then Some ((if s then -1 else 1) * (Z.pos m / 2 ^ (- e)))%Z
           else None
  | _ => None
  end.
End F32.

(** IEEE 754 binary64 with rounding to nearest, ties to even: the
    arithmetic of Python's [float] and of a [float64] array. *)
Module F64.
Definition prec : Z := 53.
Definition emax : Z := 1024.

Definition float64 : Type := spec_float.

Definition add : float64 -> float64 -> float64 := SFadd prec emax.
Definition sub : float64 -> float64 -> float64 := SFsub prec emax.
Definition mul : float64 -> float64 -> float64 := SFmul prec emax.
Definition div : float64 -> float64 -> float64 := SFdiv prec emax.
Definition sqrt : float64 -> float64 := SFsqrt prec emax.
Definition opp : float64 -> float64 := SFopp.

(** The [float64] nearest to an integer. *)
Definition of_Z (z : Z) : float64 := binary_normalize prec emax z 0 false.

(** The conversion of one entry by [astype(np.float32)]. *)
Definition to_float32 (x : float64) : F32.float32 :=
  match x with
  | S754_finite s m e =>
      binary_normalize F32.prec F32.emax (cond_Zopp s (Z.pos m)) e s
  | _ => x
  end.
End F64.

(** ** The value of a floating-point number *)

Module IEEE.
Local Open Scope R_scope.

(** [2^e], for an exponent of either sign. *)
Definition bpow (e : Z) : R := powerRZ 2 e.

(** The number [m * 2^e]. *)
Definition F2R (m e : Z) : R := IZR m * bpow e.

(** The real number that a float stands for; infinities and NaN stand
    for no number and are given the value [0]. *)
Definition SF2R (x : spec_float) : R :=
  match x with
  | S754_finite s m e => F2R (cond_Zopp s (Z.pos m)) e
  | _ => 0
  end.

Definition is_finite (x : spec_float) : bool :=
  match x with
  | S754_finite _ _ _ | S754_zero _ => true
  | _ => false
  end.

(** Where [y] lies between the integers [m] and [m + 1]. *)
Definition inbetween_int (m : Z) (l : location) (y : R) : Prop :=
  match l with
  | loc_Exact => y = IZR m
  | loc_Inexact Lt => IZR m < y < IZR m + / 2
  | loc_Inexact Eq => y = IZR m + / 2
  | loc_Inexact Gt => IZR m + / 2 < y < IZR m + 1
  end.

(** The numbers of a format: [prec] bits of mantissa, exponents from
    [emin] on. *)
Definition in_format (prec emax : Z) (b : R) : Prop :=
  exists M e : Z, b = F2R M e /\ (Z.abs M < 2 ^ prec)%Z /\ (emin prec emax <= e)%Z.

(** The exponent [E] of the last bit that a format keeps of [x >= 0]. *)
Definition grid (prec emax : Z) (E : Z) (x : R) : Prop :=
  (emin prec emax <= E)%Z /\ x < bpow (E + prec) /\
  (E = emin prec emax \/ bpow (E + prec - 1) <= x).

(** [r] is the float of sign [s] whose magnitude is [x >= 0] rounded to
    the format: a multiple [K * 2^E] of the last bit, at most half a bit
    away from [x]; an infinity when that multiple is beyond the format. *)
Definition rounded (prec emax : Z) (s : bool) (x : R) (r : spec_float) : Prop :=
  exists K E : Z,
    grid prec emax E x /\ (0 <= K)%Z /\ Rabs (IZR K - x / bpow E) <= / 2 /\
    match r with
    | S754_zero s' => s' = s /\ K = 0%Z
    | S754_finite s' M e' =>
        s' = s /\ F2R (Z.pos M) e' = F2R K E /\ bounded prec emax M e' = true
    | S754_infinity s' => s' = s /\ bpow emax <= F2R K E
    | S754_nan => False
    end.

(** [r] is the float that the number [v], of either sign, is rounded
    to. *)
Definition rounds_to (prec emax : Z) (v : R) (r : spec_float) : Prop :=
  (v = 0 /\ exists s, r = S754_zero s) \/
  (0 < v /\ rounded prec emax false v r) \/
  (v < 0 /\ rounded prec emax true (- v) r).

End IEEE.

(** ** Key generators *)

Module Keys.
Import Py Tensor F64.
Local Open Scope nat_scope.
Local Open Scope py_scope.

(** The ways in which [np.add.reduce] may add up the numbers of a list:
    any bracketing of the numbers in any order, with zeros put in (the
    pairwise summation of numpy starts its accumulators at zero and adds
    blocks of eight interleaved). *)
Inductive reduces : list float64 -> float64 -> Prop :=
| reduces_nil (s : bool) : reduces [] (S754_zero s)
| reduces_one (x : float64) : reduces [x] x
| reduces_add (l l1 l2 : list float64) (a b : float64) :
    Permutation l (l1 ++ l2) -> reduces l1 a -> reduces l2 b ->
    reduces l (add a b).

Section Generators.

(** [np.random.RandomState(seed)] belongs to numpy.  Of the generator
    seeded with [seed], [random_sample seed c] is the 53-bit integer of
    the [c]-th uniform draw, the draw being that integer divided by
    [2^53], and [standard_normal seed c] the [c]-th normal draw. *)
Variable random_sample : Z -> nat -> Z.
Variable standard_normal : Z -> nat -> float64.

(** [np.add.reduce] along a row. *)
Variable add_reduce : list float64 -> float64.

(** [np.random.RandomState(seed)] for an integer seed. *)
Definition RandomState (seed : Z) : result Z :=
  if ((0 <=? seed) && (seed <? 2 ^ 32))%Z then ret seed else raise ValueError.

(** One uniform draw as a [float64]. *)
Definition next_double (rng : Z) (c : nat) : float64 :=
  binary_normalize prec emax (random_sample rng c) (-53) false.

(** [rng.randn(n, d)]: the matrix is filled in row-major order. *)
Definition randn (rng : Z) (n d : nat) : tensor float64 :=
  mk [n; d] (fun idx => standard_normal rng (ravel [n; d] idx)).

(** [rng.uniform(low, high, (n, d))]: each entry is
    [low + (high - low) * draw], with two roundings. *)
Definition uniform (rng : Z) (low high : float64) (n d : nat) : result (tensor float64) :=
  let range := sub high low in
  if IEEE.is_finite range
  then ret (mk [n; d]
              (fun idx => add low (mul range (next_double rng (ravel [n; d] idx)))))
  else raise OverflowError.

(** The entries of row [i]. *)
Definition row (T : Type) (X : tensor T) (i : nat) : list T :=
  map (fun c => at_ X [i; c]) (seq 0 (nth 1 (shape X) 0)).

(** [np.linalg.norm(X, axis=1, keepdims=True)]: the square root of the
    sum of the squares of each row. *)
Definition linalg_norm (X : tensor float64) : tensor float64 :=
  mk [nth 0 (shape X) 0; 1]
     (fun idx => sqrt (add_reduce (map (fun x => mul x x) (row X (nth 0 idx 0))))).

(** [X /= norms], the norms broadcast along each row. *)
Definition divide_rows (X norms : tensor float64) : tensor float64 :=
  mk (shape X) (fun idx => div (at_ X idx) (at_ norms [nth 0 idx 0; 0])).

(** [X.astype(np.float32)] *)
Definition astype_float32 (X : tensor float64) : tensor F32.float32 :=
  mk (shape X) (fun idx => to_float32 (at_ X idx)).

Definition get_gaussian_keys (n_keys dim : nat) (normalized : bool) (seed : Z)
  : result (tensor F32.float32) :=
  rng <- RandomState seed ;;
  let X := randn rng n_keys dim in
  let X := if normalized then divide_rows X (linalg_norm X) else X in
  ret (astype_float32 X).

(** [math.sqrt(dim)]: the integer is converted to a float first, which
    fails when it is beyond the range of a float. *)
Definition math_sqrt (n : nat) : result float64 :=
  match of_Z (Z.of_nat n) with
  | S754_infinity _ => raise OverflowError
  | x => ret (sqrt x)
  end.

(** [1 / x] for a float [x]. *)
Definition one_over (x : float64) : result float64 :=
  match x with
  | S754_zero _ => raise ZeroDivisionError
  | _ => ret (div (of_Z 1) x)
  end.

(** [1 / math.sqrt(dim)] *)
Definition uniform_bound (dim : nat) : result float64 :=
  s <- math_sqrt dim ;;
  one_over s.

Definition get_uniform_keys (n_keys dim : nat) (normalized : bool) (seed : Z)
  : result (tensor F32.float32) :=
  rng <- RandomState seed ;;
  bound <- uniform_bound dim ;;
  X <- uniform rng (opp bound) bound n_keys dim ;;
  let X := if normalized then divide_rows X (linalg_norm X) else X in
  ret (astype_float32 X).

End Generators.

(** For examples: a stream of uniform draws whose first draw is [3/4]
    and every later one [1/2], the stream of uniform draws that are all
    [0], a stream of normal draws [1, 2, 3, ...], and the summation from
    left to right. *)
Definition sample_stream (seed : Z) (c : nat) : Z :=
  if Nat.eqb c 0 then 3 * 2 ^ 51 else 2 ^ 52.

Definition zero_stream (seed : Z) (c : nat) : Z := 0.

Definition normal_stream (seed : Z) (c : nat) : float64 :=
  of_Z (Z.of_nat (S c)).

Definition sum_left (l : list float64) : float64 :=
  fold_left add l (S754_zero false).

End Keys.

(** ** The text filter [Postprocess] *)

Module Postprocess.
Local Open Scope string_scope.

(** What a caller may pass as [checklist]: a list of sentences, or any
    other object, of which only the printed type is used. *)
Inductive pyobj : Type :=
| PyList (l : list string)
| PyOther (type_repr : string).

(** A call returns the two lists [flag] and [none], or ends in a
    [TypeError] (the type test) or in [re.error] (a word list that does
    not join into a regular expression). *)
Inductive outcome : Type :=
| Returned (flag none : list string)
| TypeError
| ReError.

(** The lines printed by a call, and how it ended. *)
Record run : Type :=
  { stdout : list string;
    result : outcome }.

(** The two word lists that [__init__] loads from the dataset. *)
Record state : Type :=
  { ko_slang : list string;
    en_slang : list string }.

Section Checker.

(** [re.compile(pattern)]: the regular expression engine belongs to
    Python's library.  Compiling fails on a malformed pattern; a compiled
    pattern [f] answers [f.search(s)] for every sentence [s]. *)
Variable re_compile : string -> option (string -> bool).

(** [list(s)] of a set [s], given by a list of its elements: the order in
    which Python iterates over a set is not fixed by the language. *)
Variable list_of_set : list string -> list string.

(** [set(l) - set(flag)], by its elements. *)
Definition set_difference (l flag : list string) : list string :=
  filter (fun x => negb (existsb (String.eqb x) flag)) l.

(** The loop [for check_sen in checklist: if f.search(check_sen):
    flag.append(check_sen)]. *)
Definition flag_loop (f : string -> bool) (checklist : list string) : list string :=
  fold_left (fun flag check_sen =>
               if f check_sen then (flag ++ [check_sen])%list else flag)
            checklist [].

(** The message of the type check, [type_repr] standing for
    [type(checklist)]. *)
Definition type_message (type_repr : string) : string :=
  "please check input type ! (Input type should be list, not " ++ type_repr ++ "))".

(** The body shared by [check_ko_slang] and [check_en_slang], for the
    word list [slang].  [raise print(...)] prints the message and then
    raises a [TypeError], because [print] returns [None].  The pattern is
    compiled after the type test and before the loop. *)
Definition check_slang (slang : list string) (checklist : pyobj) : run :=
  match checklist with
  | PyOther type_repr =>
      {| stdout := [type_message type_repr]; result := TypeError |}
  | PyList l =>
      let pattern := String.concat "|" slang in
      match re_compile pattern with
      | None => {| stdout := []; result := ReError |}
      | Some f =>
          let flag := flag_loop f l in
          let none := list_of_set (set_difference l flag) in
          {| stdout := []; result := Returned flag none |}
      end
  end.

Definition check_ko_slang (self : state) (checklist : pyobj) : run :=
  check_slang (ko_slang self) checklist.

Definition check_en_slang (self : state) (checklist : pyobj) : run :=
  check_slang (en_slang self) checklist.

End Checker.

(** For examples: an engine for patterns made of plain words joined by
    [|], which looks for one of the words as a substring and refuses a
    pattern with an opening parenthesis that is never closed; and a set
    listed in order of first occurrence. *)
Fixpoint alternatives (pattern : string) : list string :=
  match pattern with
  | EmptyString => [EmptyString]
  | String c rest =>
      match alternatives rest with
      | [] => [String c EmptyString]
      | w :: ws => if String.eqb (String c EmptyString) "|" then EmptyString :: w :: ws else String c w :: ws
      end
  end.

Definition substring (w s : string) : bool :=
  match String.index 0 w s with
  | Some _ => true
  | None => String.eqb w ""
  end.

Definition word_search (pattern s : string) : bool :=
  existsb (fun w => substring w s) (alternatives pattern).

Definition word_compile (pattern : string) : option (string -> bool) :=
  if substring "(" pattern && negb (substring ")" pattern)
  then None else Some (word_search pattern).

Definition first_occurrences (l : list string) : list string :=
  rev (nodup string_dec (rev l)).

End Postprocess.

(** ** Sizes of slice groups *)

Module SlicesSizes.
Import Slices.
Local Open Scope Z_scope.

(** The number of coordinates that a list of ranges selects, as a query
    projected on it would have. *)
Definition total_width (l : list slice) : Z :=
  fold_right (fun s acc => (snd s - fst s) + acc) 0 l.

End SlicesSizes.

(** ** The checks of the native search *)

Module FaissChecks.
Import Faiss.

(** The conditions under which the native search gets past its
    assertions: same device, a distance it knows, two contiguous [float32]
    tensors, the same feature dimension. *)
Definition checks_pass (xb xq : torch_tensor) (distance : string) : Prop :=
  device xb = device xq /\
  existsb (String.eqb distance) faiss_distances = true /\
  float_ok xq = true /\ float_ok xb = true /\
  nth 1 (size xq) 0%nat = nth 1 (size xb) 0%nat.

End FaissChecks.

(** * Facts *)

(** ** The dimension slicer *)

Module SlicesFacts.
Import Py Slices.
Local Open Scope Z_scope.

(** Linear arithmetic with quotients and remainders. *)
Ltac div_lia := zify; lia.

Lemma combine_map_self (A B : Type) (f : A -> B) (l : list A) :
  combine l (map f l) = map (fun i => (i, f i)) l.
Proof.
  induction l as [|a l IH]; simpl; [reflexivity | now rewrite IH].
Qed.

Lemma enumerate_map_seq (A : Type) (f : nat -> A) (n : nat) :
  enumerate (map f (seq 0 n)) = map (fun i => (i, f i)) (seq 0 n).
Proof.
  unfold enumerate. rewrite length_map, length_seq. apply combine_map_self.
Qed.

Lemma filter_map_comm (A B : Type) (p : B -> bool) (g : A -> B) (l : list A) :
  filter p (map g l) = map g (filter (fun a => p (g a)) l).
Proof.
  induction l as [|a l IH]; simpl; [reflexivity|].
  destruct (p (g a)); simpl; now rewrite IH.
Qed.

(** Positions of a given parity among [0 .. n-1]. *)
Lemma filter_even_seq (n : nat) :
  filter (fun i => Nat.eqb (i mod 2) 0) (seq 0 n)
  = map (fun t => 2 * t)%nat (seq 0 ((n + 1) / 2)).
Proof.
  induction n as [|n IH]; [reflexivity|].
  rewrite seq_S, filter_app, IH, Nat.add_0_l. cbn [filter].
  destruct (Nat.eqb (n mod 2) 0) eqn:E.
  - apply Nat.eqb_eq in E.
    replace ((S n + 1) / 2)%nat with (S ((n + 1) / 2)) by div_lia.
    rewrite seq_S, map_app, Nat.add_0_l. cbn [map]. f_equal. f_equal. div_lia.
  - apply Nat.eqb_neq in E.
    replace ((S n + 1) / 2)%nat with ((n + 1) / 2)%nat by div_lia.
    now rewrite app_nil_r.
Qed.

Lemma filter_odd_seq (n : nat) :
  filter (fun i => Nat.eqb (i mod 2) 1) (seq 0 n)
  = map (fun t => 2 * t + 1)%nat (seq 0 (n / 2)).
Proof.
  induction n as [|n IH]; [reflexivity|].
  rewrite seq_S, filter_app, IH, Nat.add_0_l. cbn [filter].
  destruct (Nat.eqb (n mod 2) 1) eqn:E.
  - apply Nat.eqb_eq in E.
    replace (S n / 2)%nat with (S (n / 2)) by div_lia.
    rewrite seq_S, map_app, Nat.add_0_l. cbn [map]. f_equal. f_equal. div_lia.
  - apply Nat.eqb_neq in E.
    replace (S n / 2)%nat with (n / 2)%nat by div_lia.
    now rewrite app_nil_r.
Qed.

Lemma comprehension_even (offset : Z) (n : nat) :
  comprehension offset 0 (map (fun i => 0 + Z.of_nat i * offset) (seq 0 n))
  = map (fun t => block offset (2 * t)) (seq 0 ((n + 1) / 2)).
Proof.
  unfold comprehension. rewrite enumerate_map_seq, filter_map_comm, map_map.
  cbn [fst snd]. rewrite filter_even_seq, map_map. reflexivity.
Qed.

Lemma comprehension_odd (offset : Z) (n : nat) :
  comprehension offset 1 (map (fun i => 0 + Z.of_nat i * offset) (seq 0 n))
  = map (fun t => block offset (2 * t + 1)) (seq 0 (n / 2)).
Proof.
  unfold comprehension. rewrite enumerate_map_seq, filter_map_comm, map_map.
  cbn [fst snd]. rewrite filter_odd_seq, map_map. reflexivity.
Qed.

(** The slicer in closed form. *)
Lemma get_slices_blocks (dim : Z) (head_id : nat) :
  head_id <> 0%nat ->
  get_slices dim head_id =
  let offset := dim / 2 ^ (Z.of_nat head_id + 1) in
  if offset =? 0 then inl ZeroDivisionError
  else inr (group_A dim offset ++ group_B dim offset).
Proof.
  intros Hh. unfold get_slices.
  destruct (Nat.eqb_spec head_id 0) as [|_]; [contradiction|].
  cbv zeta. unfold np_arange.
  destruct (dim / 2 ^ (Z.of_nat head_id + 1) =? 0); [reflexivity|].
  cbn [bind ret]. rewrite Z.sub_0_r, comprehension_even, comprehension_odd.
  reflexivity.
Qed.

Lemma pow2_pos (h : nat) : 0 < 2 ^ (Z.of_nat h + 1).
Proof. apply Z.pow_pos_nonneg; lia. Qed.

Lemma offset_zero_iff (dim : Z) (h : nat) :
  0 <= dim -> (dim / 2 ^ (Z.of_nat h + 1) = 0 <-> dim < 2 ^ (Z.of_nat h + 1)).
Proof.
  intros Hd. pose proof (pow2_pos h) as Hp. split; intros H.
  - apply Z.div_small_iff in H; lia.
  - apply Z.div_small; lia.
Qed.

(** *** Disjointness and coverage of the blocks *)

Section Blocks.
Variables (dim offset : Z).
Hypothesis offset_pos : 0 < offset.

Let cnt := block_count dim offset.

Lemma block_lt (a b : nat) (x : Z) :
  (a < b)%nat -> in_slice (block offset a) x -> in_slice (block offset b) x -> False.
Proof. unfold in_slice, block. cbn [fst snd]. intros Hab Ha Hb. nia. Qed.

Lemma block_disjoint (a b : nat) (x : Z) :
  a <> b -> ~ (in_slice (block offset a) x /\ in_slice (block offset b) x).
Proof.
  intros Hab [Ha Hb].
  destruct (Nat.lt_total a b) as [H | [H | H]];
    [ exact (block_lt H Ha Hb) | contradiction | exact (block_lt H Hb Ha) ].
Qed.

Lemma nth_error_groups (i : nat) (s : slice) :
  nth_error (group_A dim offset ++ group_B dim offset) i = Some s ->
  s = block offset (block_at cnt i) /\ (block_at cnt i < cnt)%nat.
Proof.
  unfold group_A, group_B, block_at. fold cnt.
  rewrite nth_error_app, length_map, length_seq.
  destruct (Nat.ltb_spec i ((cnt + 1) / 2)) as [Hi | Hi];
    rewrite nth_error_map, nth_error_seq.
  - destruct (Nat.ltb_spec i ((cnt + 1) / 2)); [|lia].
    cbn [option_map]. rewrite Nat.add_0_l. intros [= <-]. split; [reflexivity | lia].
  - destruct (Nat.ltb_spec (i - (cnt + 1) / 2) (cnt / 2)); [|discriminate].
    cbn [option_map]. rewrite Nat.add_0_l. intros [= <-]. split; [reflexivity | lia].
Qed.

Lemma block_at_inj (i j : nat) : block_at cnt i = block_at cnt j -> i = j.
Proof.
  unfold block_at.
  destruct (Nat.ltb_spec i ((cnt + 1) / 2)), (Nat.ltb_spec j ((cnt + 1) / 2)); lia.
Qed.

Lemma groups_disjoint : pairwise_disjoint (group_A dim offset ++ group_B dim offset).
Proof.
  intros i j s t Hs Ht Hij x.
  apply nth_error_groups in Hs as [-> _]. apply nth_error_groups in Ht as [-> _].
  apply block_disjoint. intros E. apply Hij. now apply block_at_inj.
Qed.

Lemma in_groups (s : slice) :
  In s (group_A dim offset ++ group_B dim offset) <->
  exists q, (q < cnt)%nat /\ s = block offset q.
Proof.
  unfold group_A, group_B. fold cnt. rewrite in_app_iff, !in_map_iff. split.
  - intros [[t [<- Ht]] | [t [<- Ht]]]; apply in_seq in Ht;
      eexists; (split; [|reflexivity]); lia.
  - intros [q [Hq ->]]. destruct (Nat.eq_dec (q mod 2) 0) as [E | E].
    + left. exists (q / 2)%nat. split; [f_equal; lia | apply in_seq; lia].
    + right. exists (q / 2)%nat. split; [f_equal; lia | apply in_seq; lia].
Qed.

Lemma groups_union :
  union_is (group_A dim offset ++ group_B dim offset) 0 (offset * ceil_div dim offset).
Proof.
  intros x. unfold block_count in cnt.
  assert (Hc : Z.of_nat cnt = Z.max 0 (ceil_div dim offset)) by (unfold cnt; lia).
  split.
  - intros [s [Hin Hx]]. apply in_groups in Hin as [q [Hq ->]].
    unfold in_slice, block in Hx. cbn [fst snd] in Hx. nia.
  - intros Hx. exists (block offset (Z.to_nat (x / offset))). split.
    + apply in_groups. eexists; split; [|reflexivity].
      assert (x / offset < ceil_div dim offset).
      { apply Z.div_lt_upper_bound; lia. }
      pose proof (Z.div_pos x offset). lia.
    + unfold in_slice, block. cbn [fst snd].
      pose proof (Z.div_pos x offset).
      rewrite Z2Nat.id by lia.
      pose proof (Z.mul_div_le x offset). pose proof (Z.mul_succ_div_gt x offset). lia.
Qed.

End Blocks.

Lemma block_count_spec (dim offset : Z) (i : nat) :
  0 < offset -> ((i < block_count dim offset)%nat <-> Z.of_nat i * offset < dim).
Proof.
  intros Ho. unfold block_count, ceil_div.
  pose proof (Z.div_mod (- dim) offset) as E.
  pose proof (Z.mod_pos_bound (- dim) offset Ho) as B.
  split; intros H; nia.
Qed.

Lemma extent_bounds (dim : Z) (head_id : nat) :
  head_id <> 0%nat -> 0 < dim / 2 ^ (Z.of_nat head_id + 1) ->
  let offset := dim / 2 ^ (Z.of_nat head_id + 1) in
  dim <= extent dim head_id < dim + offset /\
  (extent dim head_id = dim <-> dim mod offset = 0).
Proof.
  intros Hh Ho offset. unfold extent.
  destruct (Nat.eqb_spec head_id 0) as [|_]; [contradiction|].
  fold offset in Ho |- *. unfold ceil_div.
  pose proof (Z.div_mod (- dim) offset) as E.
  pose proof (Z.mod_pos_bound (- dim) offset Ho) as B.
  pose proof (Z.div_mod dim offset) as E'.
  pose proof (Z.mod_pos_bound dim offset Ho) as B'.
  assert (Hm : dim mod offset = 0 <-> (- dim) mod offset = 0).
  { split; intros H.
    - apply Z.mod_opp_l_z; lia.
    - replace dim with (- - dim) by lia. apply Z.mod_opp_l_z; lia. }
  rewrite Hm. split; [split|split; intros]; lia.
Qed.

(** C3. With [head_id = 0] the slicer returns the single range
    [(0, dim)].  With [head_id > 0] it takes
    [offset = dim // 2^(head_id + 1)], forms the blocks that start at
    [0, offset, 2*offset, ...] below [dim] (there are [block_count] of
    them), and returns the even-numbered blocks in ascending order followed
    by the odd-numbered ones; the call raises when [offset] is [0].  In
    particular [get_slices 8 1 = [(0,2); (4,6); (2,4); (6,8)]]. *)
Theorem get_slices_spec :
  (forall dim, get_slices dim 0 = inr [(0, dim)]) /\
  (forall dim head_id, (0 < head_id)%nat ->
     let offset := dim / 2 ^ (Z.of_nat head_id + 1) in
     get_slices dim head_id =
       if offset =? 0 then inl ZeroDivisionError
       else inr (group_A dim offset ++ group_B dim offset)) /\
  (forall dim offset i, 0 < offset ->
     ((i < block_count dim offset)%nat <-> Z.of_nat i * offset < dim)) /\
  get_slices 8 1 = inr [(0, 2); (4, 6); (2, 4); (6, 8)].
Proof.
  split; [reflexivity|]. split; [|split].
  - intros dim head_id Hh. apply get_slices_blocks. lia.
  - intros dim offset i. apply block_count_spec.
  - reflexivity.
Qed.

Lemma get_slices_spec_witness :
  (0 < 2)%nat /\
  get_slices 32 2 = inr [(0, 4); (8, 12); (16, 20); (24, 28);
                         (4, 8); (12, 16); (20, 24); (28, 32)].
Proof.
  split; [lia|].
  rewrite (proj1 (proj2 get_slices_spec) 32 2%nat); [reflexivity | lia].
Defined.

(** C4, as the code has it.  For [dim >= 1], whenever the slicer returns,
    the ranges are pairwise disjoint and their union is [0, extent), where
    [extent] is [dim] rounded up to a multiple of the block width: it is
    never below [dim], and it equals [dim] exactly when [head_id = 0] or
    the block width divides [dim]. *)
Theorem get_slices_partition (dim : Z) (head_id : nat) (l : list slice) :
  1 <= dim ->
  get_slices dim head_id = inr l ->
  pairwise_disjoint l /\
  union_is l 0 (extent dim head_id) /\
  dim <= extent dim head_id /\
  (extent dim head_id = dim <->
   head_id = 0%nat \/ dim mod (dim / 2 ^ (Z.of_nat head_id + 1)) = 0).
Proof.
  intros Hd Hl. destruct (Nat.eq_dec head_id 0) as [-> | Hh].
  - cbv [get_slices Nat.eqb ret] in Hl. injection Hl as <-.
    unfold extent. cbn [Nat.eqb]. split; [|split; [|split]].
    + intros [|i] [|j] s t Hs Ht Hij; try congruence.
      * destruct j; discriminate.
      * destruct i; discriminate.
      * destruct i; discriminate.
    + intros x. split.
      * intros [s [[<- | []] Hx]]. exact Hx.
      * intros Hx. exists (0, dim). split; [now left | exact Hx].
    + lia.
    + split; [intros _; now left | reflexivity].
  - rewrite get_slices_blocks in Hl by assumption. cbv zeta in Hl.
    pose proof (pow2_pos head_id) as Hp.
    assert (Ho : 0 < dim / 2 ^ (Z.of_nat head_id + 1)).
    { destruct (Z.eqb_spec (dim / 2 ^ (Z.of_nat head_id + 1)) 0) as [E | E];
        [discriminate|].
      pose proof (Z.div_pos dim (2 ^ (Z.of_nat head_id + 1))). lia. }
    destruct (Z.eqb_spec (dim / 2 ^ (Z.of_nat head_id + 1)) 0) as [E | _]; [lia|].
    injection Hl as <-.
    destruct (extent_bounds dim Hh Ho) as [Hb He].
    split; [now apply groups_disjoint|].
    split.
    + unfold extent. destruct (Nat.eqb_spec head_id 0) as [|_]; [contradiction|].
      now apply groups_union.
    + split; [lia|]. rewrite He. split; [now right | intros [? | ?]; [contradiction | assumption]].
Qed.

Lemma get_slices_partition_witness :
  pairwise_disjoint [(0, 2); (4, 6); (2, 4); (6, 8)] /\
  union_is [(0, 2); (4, 6); (2, 4); (6, 8)] 0 8.
Proof.
  destruct (@get_slices_partition 8 1%nat [(0, 2); (4, 6); (2, 4); (6, 8)])
    as [H1 [H2 _]]; [lia | reflexivity |].
  split; [exact H1 | exact H2].
Defined.

(** C4, as stated, fails: with [dim = 9] and [head_id = 1] the block width
    is [2], the last block is [(8, 10)], and the coordinate [9] lies in a
    returned range although it is outside [0, 9). *)
Lemma get_slices_partition_counterexample :
  get_slices 9 1 = inr [(0, 2); (4, 6); (8, 10); (2, 4); (6, 8)] /\
  ~ union_is [(0, 2); (4, 6); (8, 10); (2, 4); (6, 8)] 0 9.
Proof.
  split; [reflexivity|].
  intros H. specialize (H 9). destruct H as [H _].
  assert (0 <= 9 < 9); [|lia].
  apply H. exists (8, 10). split; [simpl; tauto | unfold in_slice; simpl; lia].
Qed.

(** C10. For [head_id >= 1] and a dimension [dim >= 0], the slicer raises
    when [dim < 2^(head_id + 1)] (the block width is then [0] and
    [np.arange] refuses the zero step), and returns a list when
    [dim >= 2^(head_id + 1)]. *)
Theorem get_slices_fails_iff (dim : Z) (head_id : nat) :
  (1 <= head_id)%nat -> 0 <= dim ->
  (dim < 2 ^ (Z.of_nat head_id + 1) ->
     dim / 2 ^ (Z.of_nat head_id + 1) = 0 /\
     get_slices dim head_id = inl ZeroDivisionError) /\
  (2 ^ (Z.of_nat head_id + 1) <= dim -> returns (get_slices dim head_id)).
Proof.
  intros Hh Hd. rewrite get_slices_blocks by lia. cbv zeta.
  pose proof (offset_zero_iff head_id Hd) as Hz.
  destruct (Z.eqb_spec (dim / 2 ^ (Z.of_nat head_id + 1)) 0) as [E | E].
  - split; [intros _; now split | intros H; apply Hz in E; lia].
  - split; [intros H; apply Hz in H; contradiction | intros _; eexists; reflexivity].
Qed.

Lemma get_slices_fails_iff_witness :
  get_slices 7 2 = inl ZeroDivisionError /\ returns (get_slices 8 2).
Proof.
  split.
  - apply (@get_slices_fails_iff 7 2%nat); [lia | lia | reflexivity].
  - apply (@get_slices_fails_iff 8 2%nat); [lia | lia | cbn; lia].
Defined.

End SlicesFacts.

(** ** The batched cartesian product *)

Module TensorFacts.
Import Py Tensor.
Local Open Scope nat_scope.

Example cartesian_product_2_3 :
  option_map to_rows3
    (match cartesian_product (of_rows 0%Z 1 2 [[10; 20]%Z]) (of_rows 0%Z 1 3 [[1; 2; 3]%Z]) with
     | inr x => Some x | inl _ => None end)
  = Some [[[10; 1]; [10; 2]; [10; 3]; [20; 1]; [20; 2]; [20; 3]]%Z].
Proof. reflexivity. Qed.

Lemma numel_cons (s : nat) (sh : list nat) : numel (s :: sh) = s * numel sh.
Proof. reflexivity. Qed.

Lemma ravel_lt (sh idx : list nat) : in_shape sh idx -> ravel sh idx < numel sh.
Proof.
  intros H. induction H as [|i s idx sh His _ IH]; [cbn; lia|].
  cbn [ravel]. rewrite numel_cons. nia.
Qed.

(** Reading a row-major position back gives the index it came from. *)
Lemma unravel_ravel (sh idx : list nat) :
  in_shape sh idx -> unravel sh (ravel sh idx) = idx.
Proof.
  intros H. induction H as [|i s idx sh His Hrest IH]; [reflexivity|].
  pose proof (ravel_lt Hrest) as Hlt.
  cbn [ravel unravel]. f_equal.
  - rewrite Nat.div_add_l by lia. rewrite Nat.div_small by exact Hlt. lia.
  - rewrite Nat.add_comm, Nat.Div0.mod_add, Nat.mod_small by exact Hlt. exact IH.
Qed.

(** A position of the flattened pair axis determines the two indices. *)
Lemma pair_position_unique (d2 i j i' j' : nat) :
  j < d2 -> j' < d2 -> i * d2 + j = i' * d2 + j' -> i = i' /\ j = j'.
Proof.
  intros Hj Hj' E.
  assert (H1 : i < i' -> (i + 1) * d2 <= i' * d2) by (intros; apply Nat.mul_le_mono_r; lia).
  assert (H2 : i' < i -> (i' + 1) * d2 <= i * d2) by (intros; apply Nat.mul_le_mono_r; lia).
  destruct (Nat.lt_total i i') as [H | [H | H]]; lia.
Qed.

Lemma pair_position_split (d1 d2 p : nat) :
  p < d1 * d2 -> p / d2 < d1 /\ p mod d2 < d2 /\ p = (p / d2) * d2 + p mod d2.
Proof.
  intros Hp. assert (d2 <> 0) by nia.
  pose proof (Nat.div_mod_eq p d2). pose proof (Nat.mod_upper_bound p d2).
  split; [apply Nat.Div0.div_lt_upper_bound; lia | lia].
Qed.

Section CartesianProduct.
Context {T : Type}.

Lemma unsqueeze_last_pos (x : tensor T) :
  Z.to_nat (if (-1 <? 0)%Z then (-1 + Z.of_nat (List.length (shape x)) + 1)%Z else (-1)%Z)
  = List.length (shape x).
Proof. cbn [Z.ltb Z.compare]. lia. Qed.

Lemma unsqueeze_last_shape (x : tensor T) :
  shape (unsqueeze x (-1)) = shape x ++ [1].
Proof.
  unfold unsqueeze. cbv zeta. rewrite unsqueeze_last_pos. cbn [shape].
  now rewrite firstn_all, skipn_all.
Qed.

Lemma unsqueeze_last_at (x : tensor T) (idx : list nat) (v : nat) :
  List.length idx = List.length (shape x) ->
  at_ (unsqueeze x (-1)) (idx ++ [v]) = at_ x idx.
Proof.
  intros H. unfold unsqueeze. cbv zeta. rewrite unsqueeze_last_pos. cbn [at_].
  f_equal. rewrite <- H.
  rewrite firstn_app, firstn_all, Nat.sub_diag, firstn_O, app_nil_r.
  rewrite skipn_app, skipn_all2 by lia.
  replace (S (List.length idx) - List.length idx) with 1 by lia.
  cbn [skipn app]. now rewrite app_nil_r.
Qed.

Lemma repeat_same_rank (x : tensor T) (reps : list nat) :
  List.length reps = List.length (shape x) ->
  repeat x reps = inr (repeat_tensor x reps) /\
  shape (repeat_tensor x reps)
    = map (fun sr => fst sr * snd sr) (combine (shape x) reps) /\
  forall idx, at_ (repeat_tensor x reps) idx
    = at_ x (map (fun is_ => fst is_ mod snd is_) (combine idx (shape x))).
Proof.
  intros H. unfold repeat, repeat_tensor. rewrite H, Nat.ltb_irrefl, Nat.sub_diag.
  cbn [List.repeat app skipn shape at_]. repeat split.
Qed.

Lemma cat_compatible_refl (dim : nat) (s : list nat) :
  dim < List.length s -> cat_compatible dim s s = true.
Proof.
  intros H. unfold cat_compatible.
  apply Nat.ltb_lt in H. rewrite H.
  destruct (list_eq_dec Nat.eq_dec (set_nth dim 0 s) (set_nth dim 0 s)); [reflexivity | congruence].
Qed.

Lemma ravel_pairs (n d1 d2 r i j c : nat) :
  ravel [n; d1 * d2; 2] [r; i * d2 + j; c] = ravel [n; d1; d2; 2] [r; i; j; c].
Proof. cbn [ravel numel fold_right]. ring. Qed.

Lemma pair_position_lt (d1 d2 i j : nat) : i < d1 -> j < d2 -> i * d2 + j < d1 * d2.
Proof.
  intros Hi Hj. assert ((i + 1) * d2 <= d1 * d2) by (apply Nat.mul_le_mono_r; lia). lia.
Qed.

Lemma ravel_rows (n d1 d2 r i j : nat) :
  ravel [n; d1; d2] [r; i; j] = ravel [n; d2 * d1] [r; i * d2 + j].
Proof. cbn [ravel numel fold_right]. ring. Qed.

Lemma cartesian_product_entries (a b : tensor T) (n d1 d2 : nat) :
  shape a = [n; d1] -> shape b = [n; d2] ->
  exists out, cartesian_product a b = inr out /\
    shape out = [n; d1 * d2; 2] /\
    forall r i j, r < n -> i < d1 -> j < d2 ->
      at_ out [r; i * d2 + j; 0] = at_ a [r; i] /\
      at_ out [r; i * d2 + j; 1] = at_ b [r; j].
Proof.
  intros Ha Hb.
  unfold cartesian_product. rewrite Ha, Hb, Nat.eqb_refl.
  cbn [assert bind ret].
  assert (Ha1 : shape (unsqueeze a (-1)) = [n; d1; 1])
    by (now rewrite unsqueeze_last_shape, Ha).
  destruct (@repeat_same_rank (unsqueeze a (-1)) [1; 1; d2]) as [Ea3 [Sa3 Aa3]];
    [now rewrite Ha1|].
  rewrite Ea3. cbn [bind]. rewrite Ha1 in Sa3, Aa3.
  cbn [map combine fst snd] in Sa3. rewrite !Nat.mul_1_r, Nat.mul_1_l in Sa3.
  destruct (@repeat_same_rank b [1; d1]) as [Eb2 [Sb2 Ab2]]; [now rewrite Hb|].
  rewrite Eb2. cbn [bind]. rewrite Hb in Sb2, Ab2.
  cbn [map combine fst snd] in Sb2. rewrite Nat.mul_1_r in Sb2.
  set (a3 := repeat_tensor (unsqueeze a (-1)) [1; 1; d2]) in *.
  set (b2 := repeat_tensor b [1; d1]) in *.
  unfold view at 1. rewrite Sb2.
  replace (numel [n; d1; d2] =? numel [n; d2 * d1]) with true
    by (symmetry; apply Nat.eqb_eq; cbn [numel fold_right]; ring).
  cbn [bind ret].
  set (b3 := view_tensor b2 [n; d1; d2]).
  assert (Sa4 : shape (unsqueeze a3 (-1)) = [n; d1; d2; 1])
    by (now rewrite unsqueeze_last_shape, Sa3).
  assert (Sb4 : shape (unsqueeze b3 (-1)) = [n; d1; d2; 1])
    by (now rewrite unsqueeze_last_shape).
  unfold cat, cat_from. rewrite Sa4, Sb4, cat_compatible_refl by (cbn; lia).
  cbn [bind ret].
  set (c := cat2 3 (unsqueeze a3 (-1)) (unsqueeze b3 (-1))).
  assert (Sc : shape c = [n; d1; d2; 2])
    by (unfold c, cat2; cbn [shape]; now rewrite Sa4, Sb4).
  unfold view. rewrite Sc.
  replace (numel [n; d1 * d2; 2] =? numel [n; d1; d2; 2]) with true
    by (symmetry; apply Nat.eqb_eq; cbn [numel fold_right]; ring).
  eexists. split; [reflexivity|]. split; [reflexivity|].
  intros r i j Hr Hi Hj.
  unfold view_tensor at 1 2. cbn [at_]. rewrite Sc, !ravel_pairs.
  rewrite !unravel_ravel by (repeat constructor; assumption || lia).
  unfold c, cat2. cbn [at_ nth]. rewrite Sa4.
  cbn [nth Nat.ltb Nat.leb Nat.sub set_nth firstn skipn app].
  split.
  - change [r; i; j; 0] with ([r; i; j] ++ [0]).
    rewrite unsqueeze_last_at by (now rewrite Sa3).
    rewrite Aa3. cbn [map combine fst snd].
    rewrite !Nat.mod_small by assumption. rewrite Nat.mod_1_r.
    change [r; i; 0] with ([r; i] ++ [0]).
    now rewrite unsqueeze_last_at by (now rewrite Ha).
  - change [r; i; j; 0] with ([r; i; j] ++ [0]).
    rewrite unsqueeze_last_at by reflexivity.
    unfold b3, view_tensor. cbn [at_]. rewrite Sb2, ravel_rows.
    pose proof (pair_position_lt Hi Hj) as Hp.
    rewrite unravel_ravel by (repeat constructor; assumption || lia).
    rewrite Ab2. cbn [map combine fst snd].
    rewrite Nat.mod_small by assumption.
    now rewrite Nat.add_comm, Nat.Div0.mod_add, Nat.mod_small by assumption.
Qed.


(** C2. For index matrices [a] of shape [(n, d1)] and [b] of shape
    [(n, d2)], [cartesian_product a b] returns a tensor of shape
    [(n, d1 * d2, 2)] whose row [r] holds the pair [(a[r,i], b[r,j])] at
    position [i * d2 + j]; every position below [d1 * d2] is of that form
    for exactly one [(i, j)], so each ordered pair of indices occurs exactly
    once.  For [d1 = 2] and [d2 = 3] the shape is [(n, 6, 2)]. *)
Theorem cartesian_product_spec (a b : tensor T) (n d1 d2 : nat) :
  shape a = [n; d1] -> shape b = [n; d2] ->
  exists out, cartesian_product a b = inr out /\
    shape out = [n; d1 * d2; 2] /\
    (forall r i j, r < n -> i < d1 -> j < d2 ->
       at_ out [r; i * d2 + j; 0] = at_ a [r; i] /\
       at_ out [r; i * d2 + j; 1] = at_ b [r; j]) /\
    (forall p, p < d1 * d2 ->
       exists i j, (i < d1 /\ j < d2 /\ p = i * d2 + j) /\
         forall i' j', i' < d1 -> j' < d2 -> p = i' * d2 + j' -> i' = i /\ j' = j) /\
    (d1 = 2 -> d2 = 3 -> shape out = [n; 6; 2]).
Proof.
  intros Ha Hb.
  destruct (cartesian_product_entries a b Ha Hb) as [out [E [S A]]].
  exists out. split; [exact E|]. split; [exact S|]. split; [exact A|]. split.
  - intros p Hp. destruct (pair_position_split d1 d2 Hp) as [Hi [Hj Hpq]].
    exists (p / d2), (p mod d2). split; [now repeat split|].
    intros i' j' Hi' Hj' E'. rewrite E' in Hpq at 1.
    eapply pair_position_unique; eassumption.
  - intros -> ->. exact S.
Qed.

End CartesianProduct.

Lemma cartesian_product_spec_witness :
  exists out,
    cartesian_product (of_rows 0%Z 2 2 [[10; 20]; [30; 40]]%Z)
                      (of_rows 0%Z 2 3 [[1; 2; 3]; [4; 5; 6]]%Z) = inr out /\
    shape out = [2; 6; 2] /\
    at_ out [1; 1 * 3 + 2; 0] = 40%Z /\ at_ out [1; 1 * 3 + 2; 1] = 6%Z.
Proof.
  destruct (@cartesian_product_spec Z
              (of_rows 0%Z 2 2 [[10; 20]; [30; 40]]%Z)
              (of_rows 0%Z 2 3 [[1; 2; 3]; [4; 5; 6]]%Z) 2 2 3 eq_refl eq_refl)
    as [out [E [S [A _]]]].
  exists out. split; [exact E|]. split; [exact S|].
  exact (A 1 1 2 ltac:(lia) ltac:(lia) ltac:(lia)).
Defined.

End TensorFacts.

(** ** Nearest-neighbour search *)

Module KnnFacts.
Import Py Tensor Knn ZScalar RScalar F32.
Local Open Scope nat_scope.

Example knn_dot_Z :
  run (get_knn_pytorch (of_rows 0%Z 3 2 [[1; 0]; [0; 1]; [2; 2]]%Z)
                       (of_rows 0%Z 2 2 [[1; 1]; [0; 3]]%Z) 2 "dot_product")
  = Some ([[4; 1]; [6; 3]]%Z, [[2; 0]; [2; 1]]).
Proof. vm_compute. reflexivity. Qed.

Example knn_l2_Z :
  run (get_knn_pytorch (of_rows 0%Z 3 2 [[1; 0]; [0; 1]; [2; 2]]%Z)
                       (of_rows 0%Z 2 2 [[1; 1]; [0; 3]]%Z) 2 "l2")
  = Some ([[-1; -1]; [-4; -5]]%Z, [[0; 1]; [1; 2]]).
Proof. vm_compute. reflexivity. Qed.

(** *** Selection of the best entries *)

Lemma In_firstn (A : Type) (n : nat) (l : list A) (x : A) : In x (firstn n l) -> In x l.
Proof.
  intros Hx. rewrite <- (firstn_skipn n l). apply in_or_app. now left.
Qed.

Lemma Forall_perm (A : Type) (P : A -> Prop) (l l' : list A) :
  Permutation l l' -> Forall P l -> Forall P l'.
Proof.
  intros Hp Hl. rewrite Forall_forall in *. intros x Hx.
  apply Hl. apply (Permutation_in _ (Permutation_sym Hp)). exact Hx.
Qed.

Section Selection.
Context {T : Type} `{Scalar T}.

Lemma insert_desc_perm (x : nat * T) (l : list (nat * T)) :
  Permutation (insert_desc x l) (x :: l).
Proof.
  induction l as [|y l IH]; cbn [insert_desc]; [reflexivity|].
  destruct (leb (snd y) (snd x)); [reflexivity|].
  rewrite IH. apply perm_swap.
Qed.

Lemma sort_desc_perm (l : list (nat * T)) : Permutation (sort_desc l) l.
Proof.
  induction l as [|x l IH]; cbn [sort_desc fold_right]; [reflexivity|].
  fold (sort_desc l). rewrite insert_desc_perm. now constructor.
Qed.

Lemma enumerate_fst (l : list T) : map fst (combine (seq 0 (length l)) l) = seq 0 (length l).
Proof.
  generalize 0. induction l as [|x l IH]; intros s; cbn; [reflexivity|].
  now rewrite IH.
Qed.

Lemma enumerate_in (l : list T) (i : nat) (x : T) :
  In (i, x) (combine (seq 0 (length l)) l) <-> nth_error l i = Some x.
Proof.
  assert (G : forall s, In (i, x) (combine (seq s (length l)) l)
                        <-> s <= i /\ nth_error l (i - s) = Some x).
  { induction l as [|y l IH]; intros s; cbn [length seq combine In].
    - split; [tauto | intros [_ E]; destruct (i - s); discriminate].
    - rewrite IH. split.
      + intros [[= <- <-] | [Hs E]].
        * split; [lia|]. now rewrite Nat.sub_diag.
        * split; [lia|]. replace (i - s) with (S (i - S s)) by lia. exact E.
      + intros [Hs E]. destruct (Nat.eq_dec s i) as [-> | Hne].
        * left. rewrite Nat.sub_diag in E. cbn in E. now injection E as ->.
        * right. split; [lia|]. replace (i - s) with (S (i - S s)) in E by lia. exact E. }
  rewrite G, Nat.sub_0_r. split; [tauto | split; [lia | assumption]].
Qed.

Lemma topk_list_length (k : nat) (col : list T) :
  k <= length col -> length (topk_list k col) = k.
Proof.
  intros Hk. unfold topk_list. rewrite length_firstn.
  rewrite (Permutation_length (sort_desc_perm _)), length_combine, length_seq. lia.
Qed.

Lemma topk_list_in (k : nat) (col : list T) (i : nat) (x : T) :
  In (i, x) (topk_list k col) -> nth_error col i = Some x.
Proof.
  intros Hin. unfold topk_list in Hin. apply In_firstn in Hin.
  apply (Permutation_in _ (sort_desc_perm _)) in Hin. now apply enumerate_in.
Qed.

Lemma NoDup_firstn (A : Type) (n : nat) (l : list A) : NoDup l -> NoDup (firstn n l).
Proof.
  intros Hl. rewrite <- (firstn_skipn n l) in Hl. now apply NoDup_app_remove_r in Hl.
Qed.

Lemma topk_list_NoDup (k : nat) (col : list T) : NoDup (map fst (topk_list k col)).
Proof.
  unfold topk_list. rewrite <- firstn_map. apply NoDup_firstn.
  apply (Permutation_NoDup (l := map fst (combine (seq 0 (length col)) col)));
    [|rewrite enumerate_fst; apply seq_NoDup].
  apply Permutation_map. symmetry. apply sort_desc_perm.
Qed.

Hypothesis leb_total : forall x y : T, leb x y = true \/ leb y x = true.
Hypothesis leb_trans : forall x y z : T, leb x y = true -> leb y z = true -> leb x z = true.

Lemma insert_desc_sorted (x : nat * T) (l : list (nat * T)) :
  StronglySorted above l -> StronglySorted above (insert_desc x l).
Proof.
  induction 1 as [|y l Hs IH Hy]; cbn [insert_desc].
  - constructor; constructor.
  - destruct (leb (snd y) (snd x)) eqn:E.
    + constructor; [now constructor|]. constructor; [exact E|].
      eapply Forall_impl; [|exact Hy]. intros z Hz. unfold above in *.
      eapply leb_trans; eassumption.
    + constructor; [exact IH|].
      apply (Forall_perm (Permutation_sym (insert_desc_perm x l))).
      constructor; [|exact Hy]. unfold above.
      destruct (leb_total (snd x) (snd y)) as [Hxy | Hyx]; [exact Hxy | congruence].
Qed.

Lemma sort_desc_sorted (l : list (nat * T)) : StronglySorted above (sort_desc l).
Proof.
  induction l as [|x l IH]; cbn [sort_desc fold_right]; [constructor|].
  now apply insert_desc_sorted.
Qed.

Lemma StronglySorted_firstn (A : Type) (R : A -> A -> Prop) (n : nat) (l : list A) :
  StronglySorted R l -> StronglySorted R (firstn n l).
Proof.
  intros Hl. revert n. induction Hl as [|x l Hs IH Hx]; intros [|n]; cbn [firstn];
    try constructor; [apply IH|].
  rewrite Forall_forall in *. intros y Hy. apply Hx. eapply In_firstn; eassumption.
Qed.

Lemma StronglySorted_nth (A : Type) (R : A -> A -> Prop) (l : list A) (d : A) :
  StronglySorted R l ->
  forall j j', j < j' -> j' < length l -> R (nth j l d) (nth j' l d).
Proof.
  induction 1 as [|x l Hs IH Hx]; intros j j' Hlt Hlen; [cbn in Hlen; lia|].
  cbn [length] in Hlen. destruct j' as [|j']; [lia|].
  destruct j as [|j]; cbn [nth].
  - rewrite Forall_forall in Hx. apply Hx, nth_In. lia.
  - apply IH; lia.
Qed.

Lemma topk_list_sorted (k : nat) (col : list T) : StronglySorted above (topk_list k col).
Proof. apply StronglySorted_firstn, sort_desc_sorted. Qed.

(** Every entry left out ranks no higher than any entry selected. *)
Lemma topk_list_best (k : nat) (col : list T) (i j : nat) (x y : T) :
  In (i, x) (topk_list k col) ->
  nth_error col j = Some y -> ~ In j (map fst (topk_list k col)) ->
  leb y x = true.
Proof.
  intros Hin Hj Hout. unfold topk_list in *.
  set (s := sort_desc (combine (seq 0 (length col)) col)) in *.
  assert (Hs : StronglySorted above (firstn k s ++ skipn k s)).
  { rewrite firstn_skipn. apply sort_desc_sorted. }
  assert (Hj' : In (j, y) (skipn k s)).
  { apply enumerate_in in Hj.
    apply (Permutation_in _ (Permutation_sym (sort_desc_perm _))) in Hj. fold s in Hj.
    rewrite <- (firstn_skipn k s) in Hj. apply in_app_or in Hj as [Hj | Hj]; [|exact Hj].
    exfalso. apply Hout. change j with (fst (j, y)). now apply in_map. }
  clear - Hs Hin Hj'.
  induction (firstn k s) as [|z l IH]; [destruct Hin|].
  cbn [app] in Hs. inversion Hs as [|? ? Hs' Hz]; subst.
  destruct Hin as [-> | Hin]; [|now apply IH].
  rewrite Forall_forall in Hz. apply (Hz (j, y)). apply in_or_app. now right.
Qed.

End Selection.

(** *** The score matrix *)

Section Scores.
Context {T : Type} `{Scalar T}.

Lemma unsqueeze_1_vector (v : tensor T) (m : nat) :
  shape v = [m] ->
  shape (unsqueeze v 1) = [m; 1] /\
  forall j c, at_ (unsqueeze v 1) [j; c] = at_ v [j].
Proof.
  intros Hv. unfold unsqueeze. rewrite Hv. split; reflexivity.
Qed.

Lemma unsqueeze_0_vector (v : tensor T) (n : nat) :
  shape v = [n] ->
  shape (unsqueeze v 0) = [1; n] /\
  forall r i, at_ (unsqueeze v 0) [r; i] = at_ v [i].
Proof.
  intros Hv. unfold unsqueeze. rewrite Hv. split; reflexivity.
Qed.

Lemma inplace_column (op : T -> T -> T) (x y : tensor T) (m n : nat) :
  shape x = [m; n] -> shape y = [m; 1] ->
  exists z, inplace op x y = inr z /\ shape z = [m; n] /\
    forall j i, j < m -> at_ z [j; i] = op (at_ x [j; i]) (at_ y [j; 0]).
Proof.
  intros Hx Hy. unfold inplace. rewrite Hx, Hy.
  unfold broadcastable. cbn [length combine forallb fst snd].
  rewrite !Nat.eqb_refl, orb_true_r. cbn [andb orb].
  eexists. split; [reflexivity|]. split; [reflexivity|].
  intros j i Hj. cbn [at_ broadcast_index combine map fst snd].
  rewrite Nat.eqb_refl.
  destruct (Nat.eqb_spec m 1) as [-> | _]; [|reflexivity].
  now replace j with 0 by lia.
Qed.

Lemma inplace_row (op : T -> T -> T) (x y : tensor T) (m n : nat) :
  shape x = [m; n] -> shape y = [1; n] ->
  exists z, inplace op x y = inr z /\ shape z = [m; n] /\
    forall j i, i < n -> at_ z [j; i] = op (at_ x [j; i]) (at_ y [0; i]).
Proof.
  intros Hx Hy. unfold inplace. rewrite Hx, Hy.
  unfold broadcastable. cbn [length combine forallb fst snd].
  rewrite !Nat.eqb_refl, !orb_true_r. cbn [andb orb].
  eexists. split; [reflexivity|]. split; [reflexivity|].
  intros j i Hi. cbn [at_ broadcast_index combine map fst snd].
  rewrite Nat.eqb_refl.
  destruct (Nat.eqb_spec n 1) as [-> | _]; [|reflexivity].
  now replace i with 0 by lia.
Qed.

Lemma combine_map_map (A B C : Type) (f : A -> B) (g : A -> C) (l : list A) :
  combine (map f l) (map g l) = map (fun c => (f c, g c)) l.
Proof. induction l as [|x l IH]; cbn; [reflexivity | now rewrite IH]. Qed.

Lemma mm_t_entries (a b : tensor T) (m n d : nat) :
  shape a = [m; d] -> shape b = [n; d] ->
  exists s, mm a (t b) = inr s /\ shape s = [m; n] /\
    forall j i, at_ s [j; i] = dot (row a j) (row b i).
Proof.
  intros Ha Hb. unfold mm. rewrite Ha. cbn [t shape]. rewrite Hb. cbn [rev app].
  rewrite Nat.eqb_refl.
  eexists. split; [reflexivity|]. split; [reflexivity|].
  intros j i. cbn [at_ nth rev app]. unfold dot, sum_list, row.
  rewrite Ha, Hb. cbn [nth]. now rewrite combine_map_map, map_map.
Qed.

Lemma sum1_sq_entries (x : tensor T) (m d : nat) :
  shape x = [m; d] ->
  shape (sum1 (pointwise (fun v => mul v v) x)) = [m] /\
  forall j, at_ (sum1 (pointwise (fun v => mul v v) x)) [j] = sq_norm (row x j).
Proof.
  intros Hx. unfold sum1, pointwise. cbn [shape at_]. rewrite Hx. split; [reflexivity|].
  intros j. cbn [nth]. unfold sq_norm, sum_list, row. rewrite Hx. cbn [nth].
  now rewrite map_map.
Qed.

Lemma norm2_1_entries (x : tensor T) (m d : nat) :
  shape x = [m; d] ->
  shape (norm2_1 x) = [m] /\
  forall j, at_ (norm2_1 x) [j] = norm (row x j).
Proof.
  intros Hx. destruct (sum1_sq_entries x Hx) as [S A].
  unfold norm2_1. split; [exact S|].
  intros j. unfold pointwise at 1. cbn [at_]. now rewrite A.
Qed.

Lemma str_in_distances (s : string) :
  str_in s distances = true <->
  s = "dot_product"%string \/ s = "cosine"%string \/ s = "l2"%string.
Proof.
  unfold str_in, distances. cbn [existsb].
  destruct (String.eqb_spec s "dot_product"), (String.eqb_spec s "cosine"),
    (String.eqb_spec s "l2"); cbn; intuition discriminate.
Qed.

(** Each branch fills the score matrix with the score of the key row
    against the query row. *)
Lemma score_matrix_entries (a b : tensor T) (m n d : nat) (distance : string) :
  shape a = [m; d] -> shape b = [n; d] -> str_in distance distances = true ->
  exists s, score_matrix a b distance = inr s /\ shape s = [m; n] /\
    forall j i, j < m -> i < n ->
      at_ s [j; i] = pair_score distance (row a j) (row b i).
Proof.
  intros Ha Hb Hd. apply str_in_distances in Hd.
  destruct (mm_t_entries a b Ha Hb) as [s0 [E0 [S0 A0]]].
  unfold score_matrix, pair_score. rewrite E0. cbn [bind].
  destruct Hd as [-> | [-> | ->]]; cbn [String.eqb Ascii.eqb Bool.eqb andb].
  - exists s0. split; [reflexivity|]. split; [exact S0|]. intros j i _ _. apply A0.
  - destruct (norm2_1_entries a Ha) as [Sa Na].
    destruct (norm2_1_entries b Hb) as [Sb Nb].
    destruct (unsqueeze_1_vector _ Sa) as [Sa' Ua].
    destruct (unsqueeze_0_vector _ Sb) as [Sb' Ub].
    destruct (inplace_column div s0
                (pointwise (fun v => add v eps) (unsqueeze (norm2_1 a) 1)) S0 Sa')
      as [s1 [E1 [S1 A1]]].
    rewrite E1. cbn [bind].
    destruct (inplace_row div s1
                (pointwise (fun v => add v eps) (unsqueeze (norm2_1 b) 0)) S1 Sb')
      as [s2 [E2 [S2 A2]]].
    exists s2. split; [exact E2|]. split; [exact S2|].
    intros j i Hj Hi. rewrite A2, A1, A0 by assumption.
    unfold pointwise. cbn [at_]. now rewrite Ua, Ub, Na, Nb.
  - destruct (sum1_sq_entries a Ha) as [Sa Na].
    destruct (sum1_sq_entries b Hb) as [Sb Nb].
    destruct (unsqueeze_1_vector _ Sa) as [Sa' Ua].
    destruct (unsqueeze_0_vector _ Sb) as [Sb' Ub].
    destruct (inplace_column sub (pointwise (fun v => mul v two) s0)
                (unsqueeze (sum1 (pointwise (fun v => mul v v) a)) 1) S0 Sa')
      as [s1 [E1 [S1 A1]]].
    rewrite E1. cbn [bind].
    destruct (inplace_row sub s1
                (unsqueeze (sum1 (pointwise (fun v => mul v v) b)) 0) S1 Sb')
      as [s2 [E2 [S2 A2]]].
    exists s2. split; [exact E2|]. split; [exact S2|].
    intros j i Hj Hi. rewrite A2, A1 by assumption.
    unfold pointwise at 1. cbn [at_]. now rewrite A0, Ua, Ub, Na, Nb.
Qed.

End Scores.

(** *** The search *)

Section SearchFacts.
Context {T : Type} `{Scalar T}.

Lemma column_length (s : tensor T) (m n i : nat) :
  shape s = [m; n] -> length (column s i) = m.
Proof. intros Hs. unfold column. rewrite Hs. cbn [nth]. now rewrite length_map, length_seq. Qed.

Lemma column_nth_error (s : tensor T) (m n i idx : nat) (x : T) :
  shape s = [m; n] ->
  (nth_error (column s i) idx = Some x <-> idx < m /\ x = at_ s [idx; i]).
Proof.
  intros Hs. unfold column. rewrite Hs. cbn [nth].
  rewrite nth_error_map, nth_error_seq.
  destruct (Nat.ltb_spec idx m); cbn [option_map]; split.
  - intros [= <-]. now split.
  - intros [_ ->]. reflexivity.
  - discriminate.
  - intros [? _]. lia.
Qed.

(** What the search returns, in terms of the score matrix and of the
    selection in each of its columns. *)
Lemma get_knn_pytorch_result (a b : tensor T) (m n d : nat) (k : Z) (distance : string) :
  shape a = [m; d] -> shape b = [n; d] ->
  (0 < k <= Z.of_nat m)%Z -> str_in distance distances = true ->
  exists s S I,
    score_matrix a b distance = inr s /\
    shape s = [m; n] /\
    (forall j i, j < m -> i < n ->
       at_ s [j; i] = pair_score distance (row a j) (row b i)) /\
    get_knn_pytorch a b k distance = inr (S, I) /\
    shape S = [n; Z.to_nat k] /\ shape I = [n; Z.to_nat k] /\
    forall i j, (at_ I [i; j], at_ S [i; j])
                = nth j (topk_list (Z.to_nat k) (column s i)) (0, zero).
Proof.
  intros Ha Hb Hk Hd.
  destruct (score_matrix_entries a b distance Ha Hb Hd) as [s [Es [Ss As]]].
  unfold get_knn_pytorch. rewrite Ha, Hb, Nat.eqb_refl, Hd, Es.
  replace (0 <? k)%Z with true by (symmetry; apply Z.ltb_lt; lia).
  cbn [assert bind ret]. unfold topk. rewrite Ss.
  replace (Z.to_nat k <=? m) with true by (symmetry; apply Nat.leb_le; lia).
  cbn [bind ret fst snd].
  eexists s, _, _. split; [reflexivity|]. split; [exact Ss|]. split; [exact As|].
  split; [reflexivity|]. split; [reflexivity|]. split; [reflexivity|].
  intros i j. cbn [t t_idx at_ rev app nth].
  now destruct (nth j (topk_list (Z.to_nat k) (column s i)) (0, zero)).
Qed.

(** Scores and indices returned side by side belong together. *)
Lemma knn_aligned (a b : tensor T) (m n d : nat) (k : Z) (distance : string) :
  shape a = [m; d] -> shape b = [n; d] ->
  (0 < k <= Z.of_nat m)%Z -> str_in distance distances = true ->
  exists S I,
    get_knn_pytorch a b k distance = inr (S, I) /\
    forall i j, i < n -> j < Z.to_nat k ->
      at_ I [i; j] < m /\
      at_ S [i; j] = pair_score distance (row a (at_ I [i; j])) (row b i).
Proof.
  intros Ha Hb Hk Hd.
  destruct (get_knn_pytorch_result a b distance Ha Hb Hk Hd)
    as [s [S [I [Es [Ss [As [E [SS [SI A]]]]]]]]].
  exists S, I. split; [exact E|]. intros i j Hi Hj.
  assert (Hin : In (at_ I [i; j], at_ S [i; j]) (topk_list (Z.to_nat k) (column s i))).
  { rewrite A. apply nth_In. rewrite topk_list_length; [lia|].
    rewrite (column_length s i Ss). lia. }
  apply topk_list_in in Hin. apply (column_nth_error s i _ _ Ss) in Hin as [Hm Hs].
  split; [exact Hm|]. rewrite Hs. now apply As.
Qed.

(** Asking for more neighbours than there are keys is an error of the
    tensor library, not a failed assertion. *)
Lemma get_knn_pytorch_too_many (a b : tensor T) (m n d : nat) (k : Z) (distance : string) :
  shape a = [m; d] -> shape b = [n; d] ->
  (Z.of_nat m < k)%Z -> str_in distance distances = true ->
  get_knn_pytorch a b k distance = inl RuntimeError.
Proof.
  intros Ha Hb Hk Hd.
  destruct (score_matrix_entries a b distance Ha Hb Hd) as [s [Es [Ss _]]].
  unfold get_knn_pytorch. rewrite Ha, Hb, Nat.eqb_refl, Hd, Es.
  replace (0 <? k)%Z with true by (symmetry; apply Z.ltb_lt; lia).
  cbn [assert bind ret]. unfold topk. rewrite Ss.
  replace (Z.to_nat k <=? m) with false by (symmetry; apply Nat.leb_gt; lia).
  reflexivity.
Qed.

Lemma nth_map_fst (l : list (nat * T)) (j : nat) :
  nth j (map fst l) 0 = fst (nth j l (0, zero)).
Proof. exact (map_nth fst l (0, zero) j). Qed.

Section Ordered.
Hypothesis leb_total : forall x y : T, leb x y = true \/ leb y x = true.
Hypothesis leb_trans : forall x y z : T, leb x y = true -> leb y z = true -> leb x z = true.

(** No key left out of a selection scores higher than a key in it. *)
Lemma knn_best (a b : tensor T) (m n d : nat) (k : Z) (distance : string)
    (S : tensor T) (I : tensor nat) :
  shape a = [m; d] -> shape b = [n; d] ->
  (0 < k <= Z.of_nat m)%Z -> str_in distance distances = true ->
  get_knn_pytorch a b k distance = inr (S, I) ->
  forall i idx j, i < n -> idx < m -> j < Z.to_nat k ->
    (forall j', j' < Z.to_nat k -> at_ I [i; j'] <> idx) ->
    leb (pair_score distance (row a idx) (row b i)) (at_ S [i; j]) = true.
Proof.
  intros Ha Hb Hk Hd E0 i idx j Hi Hidx Hj Hout.
  destruct (get_knn_pytorch_result a b distance Ha Hb Hk Hd)
    as [s [S' [I' [Es [Ss [As [E [SS [SI A]]]]]]]]].
  rewrite E0 in E. injection E as <- <-.
  set (L := topk_list (Z.to_nat k) (column s i)).
  assert (HL : length L = Z.to_nat k).
  { apply topk_list_length. rewrite (column_length s i Ss). lia. }
  assert (Hin : In (at_ I [i; j], at_ S [i; j]) L)
    by (unfold L; rewrite A; apply nth_In; fold L; lia).
  rewrite <- (As idx i Hidx Hi).
  eapply (topk_list_best leb_total leb_trans); [exact Hin | |].
  - apply (column_nth_error s i idx _ Ss). split; [exact Hidx | reflexivity].
  - intros Hc. apply In_nth with (d := 0) in Hc as [j' [Hj' Hc]].
    fold L in Hj', Hc. rewrite length_map in Hj'.
    apply (Hout j'); [lia|].
    rewrite nth_map_fst in Hc. unfold L in Hc. now rewrite <- A in Hc.
Qed.

(** C6. For keys [a] of shape [(m, d)], queries [b] of shape [(n, d)],
    [0 < k <= m] and any of the three distances, the fallback search returns
    scores and indices of shape [(n, k)]; in every row [i] the scores are in
    descending order, the indices are [k] distinct rows of [a], each score is
    the score of query [i] against the key at the index beside it, and no key
    left out scores higher than a key returned.  The order [leb] of the
    element type is assumed total and transitive. *)
Theorem get_knn_pytorch_topk (a b : tensor T) (m n d : nat) (k : Z) (distance : string) :
  shape a = [m; d] -> shape b = [n; d] ->
  (0 < k <= Z.of_nat m)%Z -> str_in distance distances = true ->
  exists S I,
    get_knn_pytorch a b k distance = inr (S, I) /\
    shape S = [n; Z.to_nat k] /\ shape I = [n; Z.to_nat k] /\
    forall i, i < n ->
      (forall j j', j <= j' -> j' < Z.to_nat k ->
         leb (at_ S [i; j']) (at_ S [i; j]) = true) /\
      (forall j, j < Z.to_nat k -> at_ I [i; j] < m) /\
      (forall j j', j < Z.to_nat k -> j' < Z.to_nat k ->
         at_ I [i; j] = at_ I [i; j'] -> j = j') /\
      (forall j, j < Z.to_nat k ->
         at_ S [i; j] = pair_score distance (row a (at_ I [i; j])) (row b i)) /\
      (forall idx j, idx < m -> j < Z.to_nat k ->
         (forall j', j' < Z.to_nat k -> at_ I [i; j'] <> idx) ->
         leb (pair_score distance (row a idx) (row b i)) (at_ S [i; j]) = true).
Proof.
  intros Ha Hb Hk Hd.
  destruct (get_knn_pytorch_result a b distance Ha Hb Hk Hd)
    as [s [S [I [Es [Ss [As [E [SS [SI A]]]]]]]]].
  exists S, I. split; [exact E|]. split; [exact SS|]. split; [exact SI|].
  intros i Hi.
  set (K := Z.to_nat k) in *.
  set (L := topk_list K (column s i)) in *.
  assert (HL : length L = K).
  { apply topk_list_length. rewrite (column_length s i Ss). lia. }
  assert (Hnth : forall j, j < K ->
            at_ I [i; j] < m /\ at_ S [i; j] = at_ s [at_ I [i; j]; i]).
  { intros j Hj. pose proof (A i j) as Aj. fold L in Aj.
    assert (Hin : In (at_ I [i; j], at_ S [i; j]) L)
      by (rewrite Aj; apply nth_In; lia).
    apply topk_list_in in Hin as Hc.
    now apply (column_nth_error s i _ _ Ss) in Hc. }
  split; [|split; [|split; [|split]]].
  - intros j j' Hjj Hj'.
    destruct (Nat.eq_dec j j') as [<- | Hne].
    + destruct (leb_total (at_ S [i; j]) (at_ S [i; j])); assumption.
    + assert (Hs : above (nth j L (0, zero)) (nth j' L (0, zero))).
      { apply StronglySorted_nth; [|lia|lia].
        apply topk_list_sorted; assumption. }
      unfold above, L in Hs. rewrite <- !A in Hs. exact Hs.
  - intros j Hj. apply (Hnth j Hj).
  - intros j j' Hj Hj' Heq.
    pose proof (topk_list_NoDup K (column s i)) as Hnd. fold L in Hnd.
    apply (proj1 (NoDup_nth (map fst L) 0) Hnd); rewrite ?length_map; try lia.
    rewrite !nth_map_fst. unfold L. rewrite <- !A. exact Heq.
  - intros j Hj. destruct (Hnth j Hj) as [Hm Hs]. rewrite Hs. now apply As.
  - intros idx j Hidx Hj Hout.
    eapply knn_best; eassumption.
Qed.

End Ordered.

End SearchFacts.

(** *** Failed assertions *)

Section Assertions.
Context {T : Type} `{Scalar T}.
Import Faiss.

Lemma get_knn_pytorch_assertion (a b : tensor T) (m d n d' : nat) (k : Z)
    (distance : string) :
  shape a = [m; d] -> shape b = [n; d'] ->
  (get_knn_pytorch a b k distance = inl AssertionError <->
   (k <= 0)%Z \/ str_in distance distances = false \/ d' <> d).
Proof.
  intros Ha Hb. unfold get_knn_pytorch. rewrite Ha, Hb.
  destruct (Nat.eqb_spec d' d) as [-> | Hd]; cbn [assert bind ret raise];
    [|split; [intros _; now right; right | reflexivity]].
  destruct (Z.ltb_spec 0 k) as [Hk | Hk]; cbn [assert bind ret raise];
    [|split; [intros _; now left | reflexivity]].
  destruct (str_in distance distances) eqn:Hs; cbn [assert bind ret raise];
    [|split; [intros _; right; now left | reflexivity]].
  destruct (score_matrix_entries a b distance Ha Hb Hs) as [s [Es [Ss _]]].
  rewrite Es. cbn [bind]. unfold topk. rewrite Ss.
  split.
  - destruct (Z.to_nat k <=? m); cbn [bind ret raise]; discriminate.
  - intros [? | [? | ?]]; [lia | discriminate | contradiction].
Qed.

Lemma swig_ptr_from_FloatTensor_ok (x : torch_tensor) :
  swig_ptr_from_FloatTensor x
  = if float_ok x then inr (data_ptr x + storage_offset x * 4)%Z else inl AssertionError.
Proof.
  unfold swig_ptr_from_FloatTensor, float_ok.
  destruct (is_contiguous x), (dtype_eqb (dtype_of x) float32); reflexivity.
Qed.

Lemma get_knn_faiss_assertion (xb xq : torch_tensor) (nb d2 nq d1 : nat) (k : Z)
    (distance : string) (addr_D addr_I : Z) :
  size xb = [nb; d2] -> size xq = [nq; d1] ->
  (get_knn_faiss_args xb xq k distance addr_D addr_I = inl AssertionError <->
   device xb <> device xq \/
   existsb (String.eqb distance) faiss_distances = false \/
   float_ok xq = false \/ float_ok xb = false \/ d1 <> d2).
Proof.
  intros Hb Hq. unfold get_knn_faiss_args.
  destruct (String.eqb_spec (device xb) (device xq)) as [Hdev | Hdev];
    cbn [assert bind ret raise]; [|split; [intros _; now left | reflexivity]].
  destruct (existsb (String.eqb distance) faiss_distances) eqn:Hs;
    cbn [assert bind ret raise]; [|split; [intros _; right; now left | reflexivity]].
  rewrite !swig_ptr_from_FloatTensor_ok.
  destruct (float_ok xq) eqn:Fq; cbn [bind];
    [|split; [intros _; right; right; now left | reflexivity]].
  destruct (float_ok xb) eqn:Fb; cbn [bind];
    [|split; [intros _; right; right; right; now left | reflexivity]].
  rewrite Hq, Hb.
  destruct (Nat.eqb_spec d1 d2) as [Hd | Hd]; cbn [assert bind ret raise];
    [|split; [intros _; right; right; right; now right | reflexivity]].
  split.
  - unfold torch_empty. destruct (k <? 0)%Z; cbn; discriminate.
  - intros [? | [? | [? | [? | ?]]]]; try contradiction; discriminate.
Qed.

(** C5, as the code has it by design.  The fallback search fails an
    assertion exactly when [k <= 0], or the distance is none of
    [dot_product], [cosine], [l2], or the two feature dimensions differ.
    The native search, called with [k > 0], fails an assertion exactly when
    the two tensors live on different devices, or the distance is neither
    [dot_product] nor [l2], or one of the tensors is not a contiguous
    [float32] tensor, or the feature dimensions differ; such a failure is
    the failure of the whole call, whatever the library would do.  A call
    that fails returns no result.  Nothing is said of the native search for
    [k <= 0]: the function has no assertion on [k], which its sibling
    has. *)
Theorem search_assertions :
  (forall (a b : tensor T) (m d n d' : nat) (k : Z) (distance : string),
     shape a = [m; d] -> shape b = [n; d'] ->
     (get_knn_pytorch a b k distance = inl AssertionError <->
      (k <= 0)%Z \/ str_in distance distances = false \/ d' <> d) /\
     (get_knn_pytorch a b k distance = inl AssertionError ->
      ~ returns (get_knn_pytorch a b k distance))) /\
  (forall (xb xq : torch_tensor) (nb d2 nq d1 : nat) (k : Z) (distance : string)
          (addr_D addr_I : Z),
     size xb = [nb; d2] -> size xq = [nq; d1] -> (0 < k)%Z ->
     (get_knn_faiss_args xb xq k distance addr_D addr_I = inl AssertionError <->
      device xb <> device xq \/
      existsb (String.eqb distance) faiss_distances = false \/
      float_ok xq = false \/ float_ok xb = false \/ d1 <> d2) /\
     (forall bfKnn,
        get_knn_faiss_args xb xq k distance addr_D addr_I = inl AssertionError ->
        get_knn_faiss bfKnn xb xq k distance addr_D addr_I = inl AssertionError /\
        ~ returns (get_knn_faiss bfKnn xb xq k distance addr_D addr_I))).
Proof.
  split.
  - intros a b m d n d' k distance Ha Hb. split.
    + now apply get_knn_pytorch_assertion with (m := m) (n := n).
    + intros E [r Hr]. congruence.
  - intros xb xq nb d2 nq d1 k distance addr_D addr_I Hb Hq _. split.
    + now apply get_knn_faiss_assertion with (nb := nb) (nq := nq).
    + intros bfKnn E. unfold get_knn_faiss. rewrite E. cbn [bind].
      split; [reflexivity | intros [r Hr]; discriminate].
Qed.

End Assertions.

Lemma search_assertions_witness :
  get_knn_pytorch (of_rows 0%Z 3 2 [[1; 0]; [0; 1]; [2; 2]]%Z)
                  (of_rows 0%Z 2 2 [[1; 1]; [0; 3]]%Z) 0 "dot_product"
  = inl AssertionError /\
  (forall bfKnn,
     Faiss.get_knn_faiss bfKnn
       {| Faiss.size := [4; 3]; Faiss.device := "cuda:0";
          Faiss.dtype_of := Faiss.float32; Faiss.is_contiguous := true;
          Faiss.data_ptr := 4096; Faiss.storage_offset := 0 |}
       {| Faiss.size := [1; 2]; Faiss.device := "cuda:0";
          Faiss.dtype_of := Faiss.float32; Faiss.is_contiguous := true;
          Faiss.data_ptr := 8192; Faiss.storage_offset := 0 |}
       1 "l2" 12288 16384 = inl AssertionError).
Proof.
  split.
  - apply (proj1 (proj1 (@search_assertions Z ZScalar.scalar)
                    (of_rows 0%Z 3 2 [[1; 0]; [0; 1]; [2; 2]]%Z)
                    (of_rows 0%Z 2 2 [[1; 1]; [0; 3]]%Z) 3 2 2 2 0%Z "dot_product"%string
                    eq_refl eq_refl)).
    left. lia.
  - intros bfKnn.
    refine (proj1 (proj2 (proj2 (@search_assertions Z ZScalar.scalar)
                     {| Faiss.size := [4; 3]; Faiss.device := "cuda:0";
                        Faiss.dtype_of := Faiss.float32; Faiss.is_contiguous := true;
                        Faiss.data_ptr := 4096; Faiss.storage_offset := 0 |}
                     {| Faiss.size := [1; 2]; Faiss.device := "cuda:0";
                        Faiss.dtype_of := Faiss.float32; Faiss.is_contiguous := true;
                        Faiss.data_ptr := 8192; Faiss.storage_offset := 0 |}
                     4 3 1 2 1%Z "l2"%string 12288%Z 16384%Z
                     eq_refl eq_refl eq_refl) bfKnn _)).
    reflexivity.
Defined.

(** C5, as stated, fails for the native search.  With [k = 1], the
    distance [cosine] and equal feature dimensions, none of the three
    conditions holds and yet the call fails an assertion: the native search
    accepts [dot_product] and [l2] only. *)
Lemma search_assertions_counterexample :
  let xb := {| Faiss.size := [4; 2]; Faiss.device := "cuda:0";
               Faiss.dtype_of := Faiss.float32; Faiss.is_contiguous := true;
               Faiss.data_ptr := 4096; Faiss.storage_offset := 0 |} in
  let xq := {| Faiss.size := [1; 2]; Faiss.device := "cuda:0";
               Faiss.dtype_of := Faiss.float32; Faiss.is_contiguous := true;
               Faiss.data_ptr := 8192; Faiss.storage_offset := 0 |} in
  (forall bfKnn,
     Faiss.get_knn_faiss bfKnn xb xq 1 "cosine" 12288 16384 = inl AssertionError) /\
  ~ ((1 <= 0)%Z \/ str_in "cosine" distances = false \/
     nth 1 (Faiss.size xq) 0 <> nth 1 (Faiss.size xb) 0).
Proof.
  cbv zeta. split.
  - intros bfKnn. reflexivity.
  - intros [Hk | [Hs | Hd]]; [lia | discriminate | now apply Hd].
Qed.

(** *** Exact real arithmetic *)

Section RealScores.
Local Open Scope R_scope.

Lemma fold_left_Rplus_acc (l : list R) (acc : R) :
  fold_left Rplus l acc = acc + fold_left Rplus l 0.
Proof.
  revert acc. induction l as [|x l IH]; intros acc; cbn [fold_left]; [ring|].
  rewrite (IH (acc + x)), (IH (0 + x)). ring.
Qed.

Lemma sum_list_cons (x : R) (l : list R) : sum_list (x :: l) = x + sum_list l.
Proof.
  unfold sum_list. cbn [fold_left zero add RScalar.scalar].
  rewrite fold_left_Rplus_acc. ring.
Qed.

Lemma dot_cons (x y : R) (u v : list R) : dot (x :: u) (y :: v) = x * y + dot u v.
Proof. unfold dot. cbn [combine map fst snd]. now rewrite sum_list_cons. Qed.

Lemma dot_comm (u v : list R) : dot u v = dot v u.
Proof.
  revert v. induction u as [|x u IH]; intros [|y v]; try reflexivity.
  rewrite !dot_cons, IH. cbn [mul RScalar.scalar]. ring.
Qed.

Lemma sq_norm_cons (x : R) (u : list R) : sq_norm (x :: u) = x * x + sq_norm u.
Proof. unfold sq_norm. cbn [map]. now rewrite sum_list_cons. Qed.

Lemma sq_norm_nonneg (u : list R) : 0 <= sq_norm u.
Proof.
  induction u as [|x u IH]; [unfold sq_norm; cbn; lra|].
  rewrite sq_norm_cons. pose proof (Rle_0_sqr x) as Hx. unfold Rsqr in Hx. lra.
Qed.

Lemma norm_nonneg (u : list R) : 0 <= norm u.
Proof. unfold norm. cbn [sqrt RScalar.scalar]. apply sqrt_pos. Qed.

(** The [l2] score is the negative squared distance. *)
Lemma l2_score_exact (u v : list R) :
  length u = length v -> pair_score "l2" u v = neg_sq_dist u v.
Proof.
  unfold pair_score, neg_sq_dist. cbn [String.eqb Ascii.eqb Bool.eqb andb].
  cbn [sub mul two zero RScalar.scalar].
  revert v. induction u as [|x u IH]; intros [|y v] Hlen; try discriminate.
  - unfold dot, sq_norm. cbn. lra.
  - injection Hlen as Hlen. specialize (IH v Hlen).
    cbn [combine map fst snd]. rewrite dot_cons, !sq_norm_cons, sum_list_cons.
    cbn [mul sub RScalar.scalar] in *. lra.
Qed.

(** The [cosine] score is the dot product over the product of the two
    norms, each with its own epsilon. *)
Lemma cosine_score_exact (u v : list R) :
  pair_score "cosine" u v
  = dot v u / ((norm v + 1 / 10 ^ 9) * (norm u + 1 / 10 ^ 9)).
Proof.
  unfold pair_score. cbn [String.eqb Ascii.eqb Bool.eqb andb].
  cbn [div add eps RScalar.scalar]. rewrite (dot_comm v u).
  pose proof (norm_nonneg u). pose proof (norm_nonneg v).
  field. split; lra.
Qed.

Lemma Rleb_total (x y : R) : RScalar.Rleb x y = true \/ RScalar.Rleb y x = true.
Proof.
  unfold RScalar.Rleb. destruct (Rle_dec x y), (Rle_dec y x); auto. lra.
Qed.

Lemma Rleb_trans (x y z : R) :
  RScalar.Rleb x y = true -> RScalar.Rleb y z = true -> RScalar.Rleb x z = true.
Proof.
  unfold RScalar.Rleb. destruct (Rle_dec x y), (Rle_dec y z), (Rle_dec x z);
    intros; try discriminate; try reflexivity. lra.
Qed.

Lemma Rleb_le (x y : R) : RScalar.Rleb x y = true <-> x <= y.
Proof. unfold RScalar.Rleb. destruct (Rle_dec x y); split; intros; auto; discriminate. Qed.

Lemma map_nth_seq (A : Type) (l : list A) (d : A) :
  map (fun j => nth j l d) (seq 0 (length l)) = l.
Proof.
  apply nth_ext with (d := d) (d' := d); [now rewrite length_map, length_seq|].
  intros j Hj. rewrite length_map, length_seq in Hj.
  rewrite (nth_indep _ d (nth 0 l d)) by (now rewrite length_map, length_seq).
  change (nth 0 l d) with ((fun j => nth j l d) 0%nat).
  rewrite map_nth, seq_nth by assumption. reflexivity.
Qed.

Lemma row_length (x : tensor R) (m d j : nat) : shape x = [m; d] -> length (row x j) = d.
Proof. intros Hx. unfold row. rewrite Hx. cbn [nth]. now rewrite length_map, length_seq. Qed.

(** C7. Under the [cosine] distance the fallback search divides the dot
    product of key and query by the norm of the key plus [1e-9] and then by
    the norm of the query plus [1e-9], for every element type.  In exact
    arithmetic this is the dot product divided by the product of the two
    norms, each norm with its own [1e-9] added; it holds for every entry of
    the score matrix and for every score returned beside a key index. *)
Theorem cosine_score_formula :
  (forall (T : Type) (H : Scalar T) (a b : tensor T) (m n d : nat),
     shape a = [m; d] -> shape b = [n; d] ->
     exists s, score_matrix a b "cosine" = inr s /\
       forall j i, (j < m)%nat -> (i < n)%nat ->
         at_ s [j; i]
         = div (div (dot (row a j) (row b i)) (add (norm (row a j)) eps))
               (add (norm (row b i)) eps)) /\
  (forall (a b : tensor R) (m n d : nat) (k : Z),
     shape a = [m; d] -> shape b = [n; d] -> (0 < k <= Z.of_nat m)%Z ->
     (exists s, score_matrix a b "cosine" = inr s /\
        forall j i, (j < m)%nat -> (i < n)%nat ->
          at_ s [j; i]
          = dot (row b i) (row a j)
            / ((norm (row b i) + 1 / 10 ^ 9) * (norm (row a j) + 1 / 10 ^ 9))) /\
     (exists S I, get_knn_pytorch a b k "cosine" = inr (S, I) /\
        forall i j, (i < n)%nat -> (j < Z.to_nat k)%nat ->
          at_ S [i; j]
          = dot (row b i) (row a (at_ I [i; j]))
            / ((norm (row b i) + 1 / 10 ^ 9)
               * (norm (row a (at_ I [i; j])) + 1 / 10 ^ 9)))).
Proof.
  split.
  - intros T H a b m n d Ha Hb.
    destruct (score_matrix_entries a b "cosine" Ha Hb eq_refl) as [s [Es [_ As]]].
    exists s. split; [exact Es|]. intros j i Hj Hi. now rewrite As.
  - intros a b m n d k Ha Hb Hk. split.
    + destruct (score_matrix_entries a b "cosine" Ha Hb eq_refl) as [s [Es [_ As]]].
      exists s. split; [exact Es|]. intros j i Hj Hi.
      rewrite As by assumption. apply cosine_score_exact.
    + destruct (knn_aligned a b "cosine" Ha Hb Hk eq_refl) as [S [I [E A]]].
      exists S, I. split; [exact E|]. intros i j Hi Hj.
      destruct (A i j Hi Hj) as [_ ->]. apply cosine_score_exact.
Qed.

(** C1, in exact arithmetic.  For keys [a] of shape [(m, d)], queries
    [b] of shape [(n, d)] and [0 < k <= m], the [l2] search over the reals
    returns, for every query, the same indices as ranking the keys by
    negative squared Euclidean distance itself; each returned score is that
    negative squared distance, and no key left out is nearer to the query
    than a key returned. *)
Theorem l2_topk_exact (a b : tensor R) (m n d : nat) (k : Z) :
  shape a = [m; d] -> shape b = [n; d] -> (0 < k <= Z.of_nat m)%Z ->
  exists S I, get_knn_pytorch a b k "l2" = inr (S, I) /\
    forall i, (i < n)%nat ->
      map (fun j => at_ I [i; j]) (seq 0 (Z.to_nat k)) = knn_direct a b (Z.to_nat k) i /\
      (forall j, (j < Z.to_nat k)%nat ->
         at_ S [i; j] = neg_sq_dist (row a (at_ I [i; j])) (row b i)) /\
      (forall idx j, (idx < m)%nat -> (j < Z.to_nat k)%nat ->
         (forall j', (j' < Z.to_nat k)%nat -> at_ I [i; j'] <> idx) ->
         neg_sq_dist (row a idx) (row b i)
         <= neg_sq_dist (row a (at_ I [i; j])) (row b i)).
Proof.
  intros Ha Hb Hk.
  destruct (get_knn_pytorch_result a b "l2" Ha Hb Hk eq_refl)
    as [s [S [I [Es [Ss [As [E [SS [SI A]]]]]]]]].
  destruct (knn_aligned a b "l2" Ha Hb Hk eq_refl) as [S' [I' [E' Q]]].
  rewrite E in E'. injection E' as <- <-.
  exists S, I. split; [exact E|]. intros i Hi.
  assert (Hm : forall j, (j < Z.to_nat k)%nat -> (at_ I [i; j] < m)%nat)
    by (intros j Hj; apply (Q i j Hi Hj)).
  assert (Hs : forall j, (j < Z.to_nat k)%nat ->
            at_ S [i; j] = pair_score "l2" (row a (at_ I [i; j])) (row b i))
    by (intros j Hj; apply (Q i j Hi Hj)).
  assert (Hbest : forall idx j, (idx < m)%nat -> (j < Z.to_nat k)%nat ->
            (forall j', (j' < Z.to_nat k)%nat -> at_ I [i; j'] <> idx) ->
            leb (pair_score "l2" (row a idx) (row b i)) (at_ S [i; j]) = true).
  { intros idx j Hidx Hj Hout.
    eapply (knn_best (H := RScalar.scalar) Rleb_total Rleb_trans); try eassumption.
    reflexivity. }
  assert (Hl2 : forall j, (j < m)%nat ->
            pair_score "l2" (row a j) (row b i) = neg_sq_dist (row a j) (row b i)).
  { intros j _. apply l2_score_exact. now rewrite (row_length a j Ha), (row_length b i Hb). }
  split; [|split].
  - unfold knn_direct. rewrite Ha. cbn [nth].
    assert (Hc : column s i
                 = map (fun j => neg_sq_dist (row a j) (row b i)) (seq 0 m)).
    { unfold column. rewrite Ss. cbn [nth]. apply map_ext_in. intros j Hj.
      apply in_seq in Hj. rewrite As by lia. apply Hl2. lia. }
    rewrite <- Hc.
    assert (HL : length (topk_list (Z.to_nat k) (column s i)) = Z.to_nat k).
    { apply topk_list_length. rewrite (column_length s i Ss). lia. }
    rewrite <- (map_nth_seq (map fst (topk_list (Z.to_nat k) (column s i))) 0%nat).
    rewrite length_map, HL. apply map_ext. intros j.
    rewrite nth_map_fst, <- A. reflexivity.
  - intros j Hj. rewrite (Hs j Hj). apply Hl2. now apply Hm.
  - intros idx j Hidx Hj Hout.
    specialize (Hbest idx j Hidx Hj Hout). apply Rleb_le in Hbest.
    rewrite (Hs j Hj), !Hl2 in Hbest by (assumption || now apply Hm). exact Hbest.
Qed.

Lemma cosine_score_formula_witness :
  exists S I,
    get_knn_pytorch (of_rows 0 2 2 [[3; 4]; [1; 0]]) (of_rows 0 1 2 [[0; 2]]) 1 "cosine"
    = inr (S, I).
Proof.
  destruct (proj2 cosine_score_formula
              (of_rows 0 2 2 [[3; 4]; [1; 0]]) (of_rows 0 1 2 [[0; 2]]) 2%nat 1%nat 2%nat 1%Z
              eq_refl eq_refl ltac:(lia)) as [_ [S [I [E _]]]].
  exists S, I. exact E.
Defined.

Lemma l2_topk_exact_witness :
  exists S I,
    get_knn_pytorch (of_rows 0 2 1 [[10002]; [10003]]) (of_rows 0 1 1 [[10002]]) 1 "l2"
    = inr (S, I) /\
    [at_ I [0%nat; 0%nat]]
    = knn_direct (of_rows 0 2 1 [[10002]; [10003]]) (of_rows 0 1 1 [[10002]]) 1 0.
Proof.
  destruct (@l2_topk_exact
              (of_rows 0 2 1 [[10002]; [10003]]) (of_rows 0 1 1 [[10002]]) 2 1 1 1%Z
              eq_refl eq_refl ltac:(lia)) as [S [I [E P]]].
  exists S, I. split; [exact E|]. exact (proj1 (P 0%nat ltac:(lia))).
Defined.

End RealScores.

(** *** Integer and binary32 examples *)

Lemma Zleb_total (x y : Z) : Z.leb x y = true \/ Z.leb y x = true.
Proof. destruct (Z.leb_spec x y); [now left | right; apply Z.leb_le; lia]. Qed.

Lemma Zleb_trans (x y z : Z) : Z.leb x y = true -> Z.leb y z = true -> Z.leb x z = true.
Proof. rewrite !Z.leb_le. lia. Qed.

Ltac cmp_cases :=
  repeat match goal with
  | H : context [Z.compare ?a ?b] |- _ => destruct (Z.compare_spec a b)
  | |- context [Z.compare ?a ?b] => destruct (Z.compare_spec a b)
  | H : context [Pos.compare_cont Eq ?a ?b] |- _ =>
      change (Pos.compare_cont Eq a b) with (Pos.compare a b) in H
  | |- context [Pos.compare_cont Eq ?a ?b] =>
      change (Pos.compare_cont Eq a b) with (Pos.compare a b)
  | H : context [Pos.compare ?a ?b] |- _ => destruct (Pos.compare_spec a b)
  | |- context [Pos.compare ?a ?b] => destruct (Pos.compare_spec a b)
  end.

(** The order on [float32] that [topk] ranks by is total and
    transitive. *)
Lemma f32_leb_total (x y : float32) : f32_leb x y = true \/ f32_leb y x = true.
Proof.
  destruct x as [[]|[]| |[] m1 e1], y as [[]|[]| |[] m2 e2];
    cbn [f32_leb SFleb SFcompare]; auto;
    cmp_cases; cbn [CompOpp]; auto; subst; lia.
Qed.

Lemma f32_leb_trans (x y z : float32) :
  f32_leb x y = true -> f32_leb y z = true -> f32_leb x z = true.
Proof.
  destruct x as [[]|[]| |[] m1 e1], y as [[]|[]| |[] m2 e2], z as [[]|[]| |[] m3 e3];
    cbn [f32_leb SFleb SFcompare]; intros Hxy Hyz; try reflexivity; try discriminate;
    cmp_cases; cbn [CompOpp] in *; try reflexivity; try discriminate; subst; lia.
Qed.

Lemma get_knn_pytorch_topk_witness :
  exists S I,
    get_knn_pytorch
      (of_rows (of_Z 0) 3 2 [[of_Z 1; of_Z 0]; [of_Z 0; of_Z 1]; [of_Z 2; of_Z 2]])
      (of_rows (of_Z 0) 2 2 [[of_Z 1; of_Z 1]; [of_Z 0; of_Z 3]]) 2 "cosine"
    = inr (S, I) /\
    shape S = [2; 2] /\ shape I = [2; 2] /\
    at_ I [0; 0] < 3.
Proof.
  destruct (@get_knn_pytorch_topk float32 F32.scalar f32_leb_total f32_leb_trans
              (of_rows (of_Z 0) 3 2 [[of_Z 1; of_Z 0]; [of_Z 0; of_Z 1]; [of_Z 2; of_Z 2]])
              (of_rows (of_Z 0) 2 2 [[of_Z 1; of_Z 1]; [of_Z 0; of_Z 3]])
              3 2 2 2%Z "cosine"%string
              eq_refl eq_refl ltac:(lia) eq_refl) as [S [I [E [SS [SI P]]]]].
  exists S, I. split; [exact E|]. split; [exact SS|]. split; [exact SI|].
  destruct (P 0 ltac:(lia)) as [_ [Hm _]]. apply Hm. cbn. lia.
Defined.

(** C1, as stated, fails on [float32] tensors.  The query is [10002];
    the keys are [10002] itself and [10003].  In binary32 the score of the
    first key is [0] and the score of the second is [8], because
    [10002 * 10003] and the squares are rounded to multiples of [8]; the
    search returns the second key, while ranking by negative squared distance
    returns the first, at distance [0]. *)
Lemma l2_topk_counterexample :
  option_map (fun si => (map (map to_Z) (fst si), snd si))
    (run (get_knn_pytorch (of_rows (of_Z 0) 2 1 [[of_Z 10002]; [of_Z 10003]])
                          (of_rows (of_Z 0) 1 1 [[of_Z 10002]]) 1 "l2"))
  = Some ([[Some 8%Z]], [[1]]) /\
  knn_direct (of_rows (of_Z 0) 2 1 [[of_Z 10002]; [of_Z 10003]])
             (of_rows (of_Z 0) 1 1 [[of_Z 10002]]) 1 0 = [0] /\
  ((10002 - 10002) ^ 2 < (10002 - 10003) ^ 2)%Z.
Proof. split; [|split]; vm_compute; reflexivity. Qed.

End KnnFacts.

(** * Further facts *)

Unset Implicit Arguments.

(** ** The text filter *)

Module PostprocessFacts.
Import Postprocess.
Local Open Scope string_scope.

Example check_example :
  check_slang word_compile first_occurrences ["bad"; "awful"]
    (PyList ["a bad day"; "fine"; "fine"; "too awful"; "ok"])
  = {| stdout := []; result := Returned ["a bad day"; "too awful"] ["fine"; "ok"] |}.
Proof. vm_compute. reflexivity. Qed.

Section Checker.
Variable re_compile : string -> option (string -> bool).
Variable list_of_set : list string -> list string.

(** Listing a set gives each of its elements once. *)
Hypothesis list_of_set_spec :
  forall l, NoDup (list_of_set l) /\ forall x, In x (list_of_set l) <-> In x l.

Lemma flag_loop_filter (f : string -> bool) (l : list string) :
  flag_loop f l = filter f l.
Proof.
  unfold flag_loop.
  assert (G : forall acc,
             fold_left (fun flag s => if f s then (flag ++ [s])%list else flag) l acc
             = (acc ++ filter f l)%list).
  { induction l as [|x l IH]; intros acc; cbn [fold_left filter].
    - now rewrite app_nil_r.
    - rewrite IH. destruct (f x); [|reflexivity].
      now rewrite <- app_assoc. }
  apply (G []).
Qed.

Lemma existsb_eqb_In (x : string) (l : list string) :
  existsb (String.eqb x) l = true <-> In x l.
Proof.
  rewrite existsb_exists. split.
  - intros [y [Hy E]]. apply String.eqb_eq in E. now subst.
  - intros Hx. exists x. split; [exact Hx | apply String.eqb_refl].
Qed.

Lemma set_difference_flag (f : string -> bool) (l : list string) :
  set_difference l (filter f l) = filter (fun x => negb (f x)) l.
Proof.
  unfold set_difference. apply filter_ext_in. intros x Hx. f_equal.
  destruct (f x) eqn:E.
  - apply existsb_eqb_In. apply filter_In. now split.
  - destruct (existsb (String.eqb x) (filter f l)) eqn:E'; [|reflexivity].
    apply existsb_eqb_In, filter_In in E'. destruct E' as [_ E']. congruence.
Qed.

Lemma filter_none (A : Type) (f : A -> bool) (l : list A) :
  (forall x, In x l -> f x = false) -> filter f l = [].
Proof.
  induction l as [|x l IH]; intros Hf; [reflexivity|]. cbn [filter].
  rewrite (Hf x) by now left. apply IH. intros y Hy. apply Hf. now right.
Qed.

Lemma filter_all (A : Type) (f : A -> bool) (l : list A) :
  (forall x, In x l -> f x = true) -> filter f l = l.
Proof.
  induction l as [|x l IH]; intros Hf; [reflexivity|]. cbn [filter].
  rewrite (Hf x) by now left. f_equal. apply IH. intros y Hy. apply Hf. now right.
Qed.

Lemma list_of_set_nil : list_of_set [] = [].
Proof.
  destruct (list_of_set_spec []) as [_ H0].
  destruct (list_of_set []) as [|y ys]; [reflexivity|].
  exfalso. apply (proj1 (H0 y)). now left.
Qed.

Lemma filter_split_length (A : Type) (f : A -> bool) (l : list A) :
  length (filter f l) + length (filter (fun x => negb (f x)) l) = length l.
Proof.
  induction l as [|x l IH]; [reflexivity|]. cbn [filter].
  destruct (f x); cbn [negb length]; lia.
Qed.

(** X1. Given anything but a list, the check prints the message of the
    type test and ends in a [TypeError].  Given a list, it prints nothing;
    when the word list does not join into a regular expression it ends in
    [re.error]; otherwise it returns two lists: [flag] holds the sentences
    that the compiled pattern [f] matches, in their order and as often as
    they occur; [none] holds each sentence that does not match exactly
    once.  Every sentence of the input is then in exactly one of the two,
    and repeated clean sentences make the two lists shorter than the
    input. *)
Theorem check_slang_partition (slang : list string) :
  (forall f l, re_compile (String.concat "|" slang) = Some f ->
     exists flag none,
     check_slang re_compile list_of_set slang (PyList l)
     = {| stdout := []; result := Returned flag none |} /\
     flag = filter f l /\
     NoDup none /\
     (forall x, In x none <-> In x l /\ f x = false) /\
     (forall x, In x l -> (In x flag /\ ~ In x none) \/ (In x none /\ ~ In x flag)) /\
     length flag + length none <= length l) /\
  (forall l, re_compile (String.concat "|" slang) = None ->
     check_slang re_compile list_of_set slang (PyList l)
     = {| stdout := []; result := ReError |}) /\
  (forall type_repr,
     check_slang re_compile list_of_set slang (PyOther type_repr)
     = {| stdout := [type_message type_repr]; result := TypeError |}).
Proof.
  split; [|split; [|reflexivity]].
  2:{ intros l E. unfold check_slang. cbv zeta. now rewrite E. }
  intros f l E. unfold check_slang. cbv zeta. rewrite E.
  rewrite flag_loop_filter, set_difference_flag.
  destruct (list_of_set_spec (filter (fun x => negb (f x)) l)) as [Hnd Hin].
  eexists _, _. split; [reflexivity|]. split; [reflexivity|]. split; [exact Hnd|].
  assert (Hnone : forall x, In x (list_of_set (filter (fun x => negb (f x)) l))
                            <-> In x l /\ f x = false).
  { intros x. rewrite Hin, filter_In. rewrite negb_true_iff. tauto. }
  split; [exact Hnone|]. split.
  - intros x Hx. destruct (f x) eqn:Ex.
    + left. split; [apply filter_In; now split|].
      rewrite Hnone. intros [_ E']. congruence.
    + right. split; [apply Hnone; now split|].
      rewrite filter_In. intros [_ E']. congruence.
  - rewrite <- (filter_split_length _ f l).
    apply Nat.add_le_mono_l. apply NoDup_incl_length; [exact Hnd|].
    intros x Hx. now apply Hin.
Qed.

(** X2. Checking again changes nothing: the flagged sentences, checked
    on their own, are all flagged and none is clean; the clean sentences,
    checked on their own, are all clean (up to their order) and none is
    flagged. *)
Theorem check_slang_again (slang l flag none : list string) :
  check_slang re_compile list_of_set slang (PyList l)
  = {| stdout := []; result := Returned flag none |} ->
  check_slang re_compile list_of_set slang (PyList flag)
  = {| stdout := []; result := Returned flag [] |} /\
  exists none',
    check_slang re_compile list_of_set slang (PyList none)
    = {| stdout := []; result := Returned [] none' |} /\
    Permutation none' none.
Proof.
  unfold check_slang. cbv zeta.
  destruct (re_compile (String.concat "|" slang)) as [f|]; [|discriminate].
  rewrite !flag_loop_filter, !set_difference_flag. intros [= <- <-].
  destruct (list_of_set_spec (filter (fun x => negb (f x)) l)) as [Hnd Hin].
  assert (Hclean : forall x, In x (list_of_set (filter (fun x => negb (f x)) l))
                             -> f x = false).
  { intros x Hx. apply Hin, filter_In in Hx. now apply negb_true_iff. }
  split.
  - rewrite (filter_all _ f (filter f l))
      by (intros x Hx; now apply filter_In in Hx).
    rewrite (filter_none _ (fun x => negb (f x)) (filter f l))
      by (intros x Hx; apply filter_In in Hx as [_ Hx]; now rewrite Hx).
    now rewrite list_of_set_nil.
  - set (none := list_of_set (filter (fun x => negb (f x)) l)) in *.
    rewrite (filter_none _ f none) by exact Hclean.
    rewrite (filter_all _ (fun x => negb (f x)) none)
      by (intros x Hx; now rewrite (Hclean x Hx)).
    eexists. split; [reflexivity|].
    destruct (list_of_set_spec none) as [Hnd' Hin'].
    apply NoDup_Permutation; assumption.
Qed.

(** The pattern built from no word is the empty pattern, which compiles
    and matches at the start of every sentence. *)
Hypothesis re_compile_empty :
  exists f, re_compile "" = Some f /\ forall s, f s = true.

(** X3. With an empty word list every sentence is flagged and no
    sentence is clean. *)
Theorem check_slang_no_words (l : list string) :
  check_slang re_compile list_of_set [] (PyList l)
  = {| stdout := []; result := Returned l [] |}.
Proof.
  destruct re_compile_empty as [f [Ef Hf]].
  unfold check_slang. cbv zeta. cbn [String.concat]. rewrite Ef.
  rewrite flag_loop_filter, set_difference_flag.
  rewrite (filter_all _ f l) by (intros x _; apply Hf).
  rewrite (filter_none _ (fun x => negb (f x)) l)
    by (intros x _; now rewrite Hf).
  now rewrite list_of_set_nil.
Qed.

End Checker.

Lemma first_occurrences_spec (l : list string) :
  NoDup (first_occurrences l) /\ forall x, In x (first_occurrences l) <-> In x l.
Proof.
  unfold first_occurrences. split.
  - apply NoDup_rev, NoDup_nodup.
  - intros x. rewrite <- in_rev, nodup_In, <- in_rev. tauto.
Qed.

Lemma word_compile_empty :
  exists f, word_compile "" = Some f /\ forall s, f s = true.
Proof.
  exists (word_search ""). split; [reflexivity|].
  intros s. destruct s; reflexivity.
Qed.

Lemma check_slang_partition_witness :
  (exists flag none,
    check_slang word_compile first_occurrences ["bad"; "awful"]
      (PyList ["a bad day"; "fine"; "fine"; "too awful"; "ok"])
    = {| stdout := []; result := Returned flag none |} /\
    NoDup none /\ length flag + length none <= 5) /\
  check_slang word_compile first_occurrences ["bad"; "(awful"] (PyList ["fine"])
  = {| stdout := []; result := ReError |}.
Proof.
  split.
  - destruct (proj1 (check_slang_partition word_compile first_occurrences
                       first_occurrences_spec ["bad"; "awful"])
                (word_search "bad|awful")
                ["a bad day"; "fine"; "fine"; "too awful"; "ok"] eq_refl)
      as [flag [none [E [_ [Hnd [_ [_ Hlen]]]]]]].
    exists flag, none. split; [exact E|]. split; [exact Hnd | exact Hlen].
  - apply (proj1 (proj2 (check_slang_partition word_compile first_occurrences
                           first_occurrences_spec ["bad"; "(awful"]))
             ["fine"] eq_refl).
Defined.

Lemma check_slang_again_witness :
  check_slang word_compile first_occurrences ["bad"] (PyList ["a bad day"; "too bad"])
  = {| stdout := []; result := Returned ["a bad day"; "too bad"] [] |}.
Proof.
  apply (check_slang_again word_compile first_occurrences first_occurrences_spec
           ["bad"] ["a bad day"; "fine"; "fine"; "too bad"; "ok"]
           ["a bad day"; "too bad"] ["fine"; "ok"]).
  vm_compute. reflexivity.
Defined.

Lemma check_slang_no_words_witness :
  check_slang word_compile first_occurrences [] (PyList ["fine"; "ok"])
  = {| stdout := []; result := Returned ["fine"; "ok"] [] |}.
Proof.
  apply (check_slang_no_words word_compile first_occurrences
           first_occurrences_spec word_compile_empty).
Defined.

End PostprocessFacts.

(** ** More on the dimension slicer *)

Module SlicesExtra.
Import Py Slices SlicesSizes SlicesFacts.
Local Open Scope Z_scope.

Lemma groups_length (dim offset : Z) :
  length (group_A dim offset ++ group_B dim offset) = block_count dim offset.
Proof.
  unfold group_A, group_B. rewrite length_app, !length_map, !length_seq. lia.
Qed.

Lemma total_width_const (l : list slice) (w : Z) :
  (forall s, In s l -> snd s - fst s = w) -> total_width l = Z.of_nat (length l) * w.
Proof.
  induction l as [|s l IH]; intros Hw; [reflexivity|].
  cbn [total_width fold_right length]. fold (total_width l).
  rewrite IH by (intros t Ht; apply Hw; now right).
  rewrite (Hw s) by now left. lia.
Qed.

(** X4. For [head_id > 0], whenever the slicer returns, the block width
    [dim // 2^(head_id+1)] is not zero, every returned range has exactly
    that width (also the last one, which may reach beyond [dim]), there are
    as many ranges as block starts below [dim], and the range at position
    [p] is block number [2p] in the first half of the list and block number
    [2(p - h) + 1] after the first [h] ranges, [h] being half the count
    rounded up. *)
Theorem get_slices_widths (dim : Z) (head_id : nat) (l : list slice) :
  (0 < head_id)%nat -> get_slices dim head_id = inr l ->
  let offset := dim / 2 ^ (Z.of_nat head_id + 1) in
  offset <> 0 /\
  length l = block_count dim offset /\
  (forall s, In s l -> snd s - fst s = offset) /\
  (forall p s, nth_error l p = Some s ->
     s = block offset (block_at (block_count dim offset) p)).
Proof.
  intros Hh E offset. rewrite get_slices_blocks in E by lia. cbv zeta in E.
  fold offset in E. destruct (Z.eqb_spec offset 0) as [|Hne]; [discriminate|].
  injection E as <-. split; [exact Hne|]. split; [apply groups_length|]. split.
  - intros s Hs. apply in_groups in Hs as [q [_ ->]]. unfold block. cbn [fst snd]. lia.
  - intros p s Hs. now apply nth_error_groups in Hs.
Qed.

Lemma get_slices_widths_witness :
  length [(0, 2); (4, 6); (8, 10); (2, 4); (6, 8)] = block_count 9 (9 / 2 ^ (Z.of_nat 1 + 1)).
Proof.
  apply (get_slices_widths 9 1%nat [(0, 2); (4, 6); (8, 10); (2, 4); (6, 8)]);
    [lia | reflexivity].
Defined.

Lemma block_count_divisible (off P : Z) :
  0 < off -> 0 <= P -> block_count (off * P) off = Z.to_nat P.
Proof.
  intros Ho HP. unfold block_count, ceil_div.
  replace (- (off * P)) with ((- P) * off) by lia.
  rewrite Z.div_mul by lia. f_equal. lia.
Qed.

(** X5. When [dim > 0] is a multiple of [2^(head_id+1)], with
    [head_id > 0], the slicer returns [2^(head_id+1)] ranges of width
    [dim / 2^(head_id+1)] that are pairwise disjoint and cover exactly
    [0, dim); the first half of the list (group A) and the second half
    (group B) each select [dim / 2] coordinates. *)
Theorem get_slices_even_split (dim : Z) (head_id : nat) :
  (0 < head_id)%nat -> 0 < dim -> dim mod 2 ^ (Z.of_nat head_id + 1) = 0 ->
  exists l, get_slices dim head_id = inr l /\
    Z.of_nat (length l) = 2 ^ (Z.of_nat head_id + 1) /\
    (forall s, In s l -> snd s - fst s = dim / 2 ^ (Z.of_nat head_id + 1)) /\
    pairwise_disjoint l /\ union_is l 0 dim /\
    total_width (firstn (Z.to_nat (2 ^ Z.of_nat head_id)) l) = dim / 2 /\
    total_width (skipn (Z.to_nat (2 ^ Z.of_nat head_id)) l) = dim / 2.
Proof.
  intros Hh Hd Hm.
  set (c := 2 ^ Z.of_nat head_id).
  assert (Hc : 0 < c) by (apply Z.pow_pos_nonneg; lia).
  assert (HP : 2 ^ (Z.of_nat head_id + 1) = 2 * c)
    by (unfold c; rewrite Z.pow_add_r by lia; lia).
  rewrite HP in *.
  set (off := dim / (2 * c)).
  assert (Hdim : dim = off * (2 * c)).
  { unfold off. rewrite (Z.div_mod dim (2 * c)) at 1 by lia. rewrite Hm. lia. }
  assert (Ho : 0 < off) by nia.
  rewrite get_slices_blocks by lia. cbv zeta. rewrite HP. fold off.
  destruct (Z.eqb_spec off 0) as [|_]; [lia|].
  assert (Hcnt : block_count dim off = Z.to_nat (2 * c))
    by (rewrite Hdim; apply block_count_divisible; lia).
  assert (Hw : forall s, In s (group_A dim off ++ group_B dim off) ->
                         snd s - fst s = off).
  { intros s Hs. apply in_groups in Hs as [q [_ ->]]. unfold block. cbn [fst snd]. lia. }
  assert (HA : length (group_A dim off) = Z.to_nat c).
  { unfold group_A. rewrite length_map, length_seq, Hcnt. lia. }
  assert (HB : length (group_B dim off) = Z.to_nat c).
  { unfold group_B. rewrite length_map, length_seq, Hcnt. lia. }
  eexists. split; [reflexivity|].
  split; [rewrite groups_length, Hcnt; lia|].
  split; [exact Hw|].
  split; [now apply groups_disjoint|].
  split.
  - pose proof (groups_union dim Ho) as U.
    replace (off * ceil_div dim off) with dim in U; [exact U|].
    unfold block_count in Hcnt. unfold ceil_div in *.
    assert (- (- dim / off) = 2 * c); [|lia].
    rewrite Hdim. replace (- (off * (2 * c))) with ((- (2 * c)) * off) by lia.
    rewrite Z.div_mul by lia. lia.
  - assert (Hhalf : dim / 2 = Z.of_nat (Z.to_nat c) * off).
    { rewrite Hdim. replace (off * (2 * c)) with ((off * c) * 2) by lia.
      rewrite Z.div_mul by lia. lia. }
    rewrite <- HA at 1 2.
    rewrite firstn_app, firstn_all, Nat.sub_diag, firstn_O, app_nil_r.
    rewrite skipn_app, skipn_all, Nat.sub_diag, skipn_O. cbn [app].
    rewrite Hhalf. split.
    + rewrite <- HA. apply total_width_const.
      intros s Hs. apply Hw, in_or_app. now left.
    + rewrite <- HB. apply total_width_const.
      intros s Hs. apply Hw, in_or_app. now right.
Qed.

Lemma get_slices_even_split_witness :
  exists l, get_slices 8 1 = inr l /\
    total_width (firstn (Z.to_nat (2 ^ Z.of_nat 1)) l) = 8 / 2.
Proof.
  destruct (get_slices_even_split 8 1%nat ltac:(lia) ltac:(lia) eq_refl)
    as [l [E [_ [_ [_ [_ [HA _]]]]]]].
  exists l. split; [exact E | exact HA].
Defined.

End SlicesExtra.

(** ** More on the cartesian product *)

Module TensorExtra.
Import Py Tensor TensorFacts.
Local Open Scope nat_scope.

Section CartesianProduct.
Context {T : Type}.

(** X6. On two matrices the cartesian product fails its assertion
    exactly when the row counts differ and returns exactly when they agree;
    an argument that is not a matrix makes the unpacking of its shape fail
    with a [ValueError]. *)
Theorem cartesian_product_outcome (a b : tensor T) :
  (forall n1 d1 n2 d2, shape a = [n1; d1] -> shape b = [n2; d2] ->
     (cartesian_product a b = inl AssertionError <-> n1 <> n2) /\
     (returns (cartesian_product a b) <-> n1 = n2)) /\
  ((forall n d, shape a <> [n; d]) \/ (forall n d, shape b <> [n; d]) ->
   cartesian_product a b = inl ValueError).
Proof.
  split.
  - intros n1 d1 n2 d2 Ha Hb.
    destruct (Nat.eq_dec n1 n2) as [<- | Hne].
    + destruct (cartesian_product_entries a b Ha Hb) as [out [E _]].
      rewrite E. split; split; try congruence; try discriminate.
      intros _. now exists out.
    + unfold cartesian_product. rewrite Ha, Hb.
      apply Nat.eqb_neq in Hne as Hb'. rewrite Hb'. cbn [assert bind raise].
      split; split; try congruence.
      intros [r Hr]. discriminate.
  - intros H. unfold cartesian_product.
    destruct (shape a) as [|n1 [|d1 [|x xs]]] eqn:Ea; try reflexivity;
      destruct (shape b) as [|n2 [|d2 [|y ys]]] eqn:Eb; try reflexivity.
    destruct H as [H | H]; exfalso; eapply H; reflexivity.
Qed.

(** X7. Reading the product back: in row [r] the pair at position
    [p < d1 * d2] is made of entry [p / d2] of row [r] of [a] and entry
    [p mod d2] of row [r] of [b]. *)
Theorem cartesian_product_decode (a b : tensor T) (n d1 d2 : nat) :
  shape a = [n; d1] -> shape b = [n; d2] ->
  exists out, cartesian_product a b = inr out /\
    forall r p, r < n -> p < d1 * d2 ->
      at_ out [r; p; 0] = at_ a [r; p / d2] /\
      at_ out [r; p; 1] = at_ b [r; p mod d2].
Proof.
  intros Ha Hb.
  destruct (cartesian_product_entries a b Ha Hb) as [out [E [_ A]]].
  exists out. split; [exact E|]. intros r p Hr Hp.
  destruct (pair_position_split d1 d2 Hp) as [Hi [Hj Hpq]].
  rewrite Hpq at 1 3. now apply A.
Qed.

End CartesianProduct.

Lemma cartesian_product_outcome_witness :
  cartesian_product (of_rows 0%Z 2 2 [[10; 20]; [30; 40]]%Z)
                    (of_rows 0%Z 3 1 [[1]; [2]; [3]]%Z) = inl AssertionError.
Proof.
  apply (proj1 (cartesian_product_outcome
                  (of_rows 0%Z 2 2 [[10; 20]; [30; 40]]%Z)
                  (of_rows 0%Z 3 1 [[1]; [2]; [3]]%Z)) 2 2 3 1 eq_refl eq_refl).
  lia.
Defined.

Lemma cartesian_product_decode_witness :
  exists out,
    cartesian_product (of_rows 0%Z 2 2 [[10; 20]; [30; 40]]%Z)
                      (of_rows 0%Z 2 3 [[1; 2; 3]; [4; 5; 6]]%Z) = inr out /\
    at_ out [1; 4; 0] = 40%Z /\ at_ out [1; 4; 1] = 5%Z.
Proof.
  destruct (cartesian_product_decode
              (of_rows 0%Z 2 2 [[10; 20]; [30; 40]]%Z)
              (of_rows 0%Z 2 3 [[1; 2; 3]; [4; 5; 6]]%Z) 2 2 3 eq_refl eq_refl)
    as [out [E A]].
  exists out. split; [exact E|]. exact (A 1 4 ltac:(lia) ltac:(lia)).
Defined.

End TensorExtra.

(** ** More on the fallback search *)

Module KnnExtra.
Import Py Tensor Knn ZScalar RScalar F32 KnnFacts.
Local Open Scope nat_scope.

Ltac outcome_cases :=
  repeat split; intros; try reflexivity; try discriminate;
  repeat match goal with
         | H : _ /\ _ |- _ => destruct H
         | H : returns _ |- _ => destruct H as [? ?]
         end;
  try discriminate; try lia; try congruence; try tauto.

(** *** Outcomes on [float32] tensors *)

(** X8. On two [float32] matrices the fallback search returns exactly when the
    feature dimensions agree, [0 < k <= m] and the distance is one of the
    three; it ends in a [RuntimeError] of the tensor library exactly when the
    assertions hold and [k > m]; in every other case it fails an assertion.
    No branch is left without a score matrix. *)
Theorem get_knn_pytorch_outcome (a b : tensor float32) (m d n d' : nat) (k : Z)
    (distance : string) :
  shape a = [m; d] -> shape b = [n; d'] ->
  (returns (get_knn_pytorch a b k distance) <->
   d' = d /\ (0 < k <= Z.of_nat m)%Z /\ str_in distance distances = true) /\
  (get_knn_pytorch a b k distance = inl RuntimeError <->
   d' = d /\ (Z.of_nat m < k)%Z /\ str_in distance distances = true) /\
  (~ returns (get_knn_pytorch a b k distance) ->
   get_knn_pytorch a b k distance <> inl RuntimeError ->
   get_knn_pytorch a b k distance = inl AssertionError).
Proof.
  intros Ha Hb.
  pose proof (@get_knn_pytorch_assertion float32 F32.scalar a b m d n d' k distance Ha Hb)
    as HA.
  destruct (Nat.eq_dec d' d) as [-> | Hd].
  2: { assert (E : get_knn_pytorch a b k distance = inl AssertionError)
         by (apply HA; now right; right).
       rewrite E. outcome_cases. }
  destruct (str_in distance distances) eqn:Hs.
  2: { assert (E : get_knn_pytorch a b k distance = inl AssertionError)
         by (apply HA; right; now left).
       rewrite E. outcome_cases. }
  destruct (Z_le_gt_dec k 0) as [Hk | Hk].
  { assert (E : get_knn_pytorch a b k distance = inl AssertionError)
      by (apply HA; now left).
    rewrite E. outcome_cases. }
  destruct (Z_le_gt_dec k (Z.of_nat m)) as [Hm | Hm].
  - assert (Hkm : (0 < k <= Z.of_nat m)%Z) by lia.
    destruct (@get_knn_pytorch_result float32 F32.scalar a b m n d k distance Ha Hb Hkm Hs)
      as [s [S [I [_ [_ [_ [E _]]]]]]].
    rewrite E. split; [|split].
    + split; [intros _; split; [reflexivity | split; [lia | reflexivity]]
             | intros _; now exists (S, I)].
    + split; [discriminate | intros [_ [Hgt _]]; lia].
    + intros Hn. exfalso. apply Hn. now exists (S, I).
  - assert (Hgt : (Z.of_nat m < k)%Z) by lia.
    rewrite (@get_knn_pytorch_too_many float32 F32.scalar a b m n d k distance Ha Hb Hgt Hs).
    outcome_cases.
Qed.

Lemma get_knn_pytorch_outcome_witness :
  get_knn_pytorch (of_rows (S754_zero false) 3 2
                     [[of_Z 1; of_Z 0]; [of_Z 0; of_Z 1]; [of_Z 2; of_Z 2]])
                  (of_rows (S754_zero false) 2 2 [[of_Z 1; of_Z 1]; [of_Z 0; of_Z 3]])
                  4 "cosine" = inl RuntimeError.
Proof.
  apply (proj1 (proj2 (get_knn_pytorch_outcome
                  (of_rows (S754_zero false) 3 2
                     [[of_Z 1; of_Z 0]; [of_Z 0; of_Z 1]; [of_Z 2; of_Z 2]])
                  (of_rows (S754_zero false) 2 2 [[of_Z 1; of_Z 1]; [of_Z 0; of_Z 3]])
                  3 2 2 2 4%Z "cosine"%string eq_refl eq_refl))).
  split; [reflexivity | split; [lia | reflexivity]].
Defined.

(** *** Every element type *)

Section Generic.
Context {T : Type} `{Scalar T}.

(** X9. Asking for as many neighbours as there are keys returns, for
    every query, every key index exactly once. *)
Theorem get_knn_pytorch_all_keys (a b : tensor T) (m n d : nat) (distance : string) :
  shape a = [m; d] -> shape b = [n; d] -> 0 < m ->
  str_in distance distances = true ->
  exists S I, get_knn_pytorch a b (Z.of_nat m) distance = inr (S, I) /\
    forall i, i < n ->
      Permutation (map (fun j => at_ I [i; j]) (seq 0 m)) (seq 0 m).
Proof.
  intros Ha Hb Hm Hd.
  assert (Hk : (0 < Z.of_nat m <= Z.of_nat m)%Z) by lia.
  destruct (get_knn_pytorch_result a b distance Ha Hb Hk Hd)
    as [s [S [I [_ [Ss [_ [E [_ [_ A]]]]]]]]].
  exists S, I. split; [exact E|]. intros i _.
  rewrite Nat2Z.id in A.
  pose proof (column_length s i Ss) as Hlen.
  set (L := topk_list m (column s i)).
  assert (HL : length L = m) by (apply topk_list_length; lia).
  assert (E1 : map (fun j => at_ I [i; j]) (seq 0 m) = map fst L).
  { rewrite <- (map_nth_seq (map fst L) 0). rewrite length_map, HL.
    apply map_ext. intros j. rewrite nth_map_fst. unfold L. now rewrite <- A. }
  rewrite E1. unfold L, topk_list.
  rewrite firstn_all2
    by (rewrite (Permutation_length (sort_desc_perm _)), length_combine, length_seq; lia).
  replace (seq 0 m) with (seq 0 (length (column s i))) by (now rewrite Hlen).
  eapply Permutation_trans; [apply Permutation_map, sort_desc_perm|].
  now rewrite enumerate_fst.
Qed.

(** X10. The scores returned for [k1] neighbours are the first [k1] of
    the scores returned for [k2 >= k1] neighbours. *)
Theorem get_knn_pytorch_prefix (a b : tensor T) (m n d : nat) (k1 k2 : Z)
    (distance : string) :
  shape a = [m; d] -> shape b = [n; d] ->
  (0 < k1 <= k2)%Z -> (k2 <= Z.of_nat m)%Z -> str_in distance distances = true ->
  exists S1 I1 S2 I2,
    get_knn_pytorch a b k1 distance = inr (S1, I1) /\
    get_knn_pytorch a b k2 distance = inr (S2, I2) /\
    forall i j, i < n -> j < Z.to_nat k1 -> at_ S1 [i; j] = at_ S2 [i; j].
Proof.
  intros Ha Hb Hk1 Hk2 Hd.
  assert (H1 : (0 < k1 <= Z.of_nat m)%Z) by lia.
  assert (H2 : (0 < k2 <= Z.of_nat m)%Z) by lia.
  destruct (get_knn_pytorch_result a b distance Ha Hb H1 Hd)
    as [s [S1 [I1 [Es [_ [_ [E1 [_ [_ A1]]]]]]]]].
  destruct (get_knn_pytorch_result a b distance Ha Hb H2 Hd)
    as [s' [S2 [I2 [Es' [_ [_ [E2 [_ [_ A2]]]]]]]]].
  rewrite Es in Es'. injection Es' as <-.
  exists S1, I1, S2, I2. split; [exact E1|]. split; [exact E2|].
  intros i j _ Hj.
  pose proof (A1 i j) as B1. pose proof (A2 i j) as B2.
  unfold topk_list in B1, B2. rewrite nth_firstn in B1, B2.
  destruct (Nat.ltb_spec j (Z.to_nat k1)); [|lia].
  destruct (Nat.ltb_spec j (Z.to_nat k2)); [|lia].
  rewrite <- B2 in B1. now injection B1.
Qed.

End Generic.

Lemma get_knn_pytorch_all_keys_witness :
  exists S I,
    get_knn_pytorch (of_rows 0%Z 3 2 [[1; 0]; [0; 1]; [2; 2]]%Z)
                    (of_rows 0%Z 2 2 [[1; 1]; [0; 3]]%Z) 3 "dot_product" = inr (S, I) /\
    Permutation (map (fun j => at_ I [1; j]) (seq 0 3)) (seq 0 3).
Proof.
  destruct (@get_knn_pytorch_all_keys Z ZScalar.scalar
              (of_rows 0%Z 3 2 [[1; 0]; [0; 1]; [2; 2]]%Z)
              (of_rows 0%Z 2 2 [[1; 1]; [0; 3]]%Z) 3 2 2 "dot_product"%string
              eq_refl eq_refl ltac:(lia) eq_refl) as [S [I [E P]]].
  exists S, I. split; [exact E | apply P; lia].
Defined.

Lemma get_knn_pytorch_prefix_witness :
  exists S1 I1 S2 I2,
    get_knn_pytorch (of_rows 0%Z 3 2 [[1; 0]; [0; 1]; [2; 2]]%Z)
                    (of_rows 0%Z 2 2 [[1; 1]; [0; 3]]%Z) 1 "l2" = inr (S1, I1) /\
    get_knn_pytorch (of_rows 0%Z 3 2 [[1; 0]; [0; 1]; [2; 2]]%Z)
                    (of_rows 0%Z 2 2 [[1; 1]; [0; 3]]%Z) 2 "l2" = inr (S2, I2) /\
    at_ S1 [1; 0] = at_ S2 [1; 0].
Proof.
  destruct (@get_knn_pytorch_prefix Z ZScalar.scalar
              (of_rows 0%Z 3 2 [[1; 0]; [0; 1]; [2; 2]]%Z)
              (of_rows 0%Z 2 2 [[1; 1]; [0; 3]]%Z) 3 2 2 1%Z 2%Z "l2"%string
              eq_refl eq_refl ltac:(lia) ltac:(lia) eq_refl)
    as [S1 [I1 [S2 [I2 [E1 [E2 P]]]]]].
  exists S1, I1, S2, I2. split; [exact E1|]. split; [exact E2|].
  apply P; cbn; lia.
Defined.

End KnnExtra.

(** ** More on the native search *)

Module FaissExtra.
Import Py Faiss FaissChecks KnnFacts.
Local Open Scope Z_scope.

Lemma dtype_eqb_eq (x y : dtype) : dtype_eqb x y = true <-> x = y.
Proof. destruct x, y; cbn; split; intros; try reflexivity; discriminate. Qed.

Lemma float_ptr_form (x : torch_tensor) :
  swig_ptr_from_FloatTensor x
  = if is_contiguous x && dtype_eqb (dtype_of x) float32
    then inr (data_ptr x + storage_offset x * 4) else inl AssertionError.
Proof.
  unfold swig_ptr_from_FloatTensor.
  destruct (is_contiguous x), (dtype_eqb (dtype_of x) float32); reflexivity.
Qed.

Lemma index_ptr_form (x : torch_tensor) :
  swig_ptr_from_IndicesTensor x
  = if is_contiguous x && dtype_eqb (dtype_of x) int64
    then inr (data_ptr x + storage_offset x * 8) else inl AssertionError.
Proof.
  unfold swig_ptr_from_IndicesTensor.
  destruct (is_contiguous x), (dtype_eqb (dtype_of x) int64); reflexivity.
Qed.

(** X16. A pointer to float data is handed out exactly for a contiguous
    [float32] tensor, a pointer to index data exactly for a contiguous
    [int64] tensor, so no tensor gets both; every other tensor fails an
    assertion.  The pointer is the storage address plus the storage offset
    counted in bytes, 4 per float and 8 per index: a view that starts [n]
    elements later in the same storage gets a pointer [4 n] (or [8 n]) bytes
    further. *)
Theorem swig_ptr_spec (x : torch_tensor) :
  (forall p, swig_ptr_from_FloatTensor x = inr p <->
     is_contiguous x = true /\ dtype_of x = float32 /\
     p = data_ptr x + 4 * storage_offset x) /\
  (forall p, swig_ptr_from_IndicesTensor x = inr p <->
     is_contiguous x = true /\ dtype_of x = int64 /\
     p = data_ptr x + 8 * storage_offset x) /\
  (~ returns (swig_ptr_from_FloatTensor x) ->
   swig_ptr_from_FloatTensor x = inl AssertionError) /\
  (~ returns (swig_ptr_from_IndicesTensor x) ->
   swig_ptr_from_IndicesTensor x = inl AssertionError) /\
  ~ (returns (swig_ptr_from_FloatTensor x) /\ returns (swig_ptr_from_IndicesTensor x)) /\
  (forall y n p q,
     data_ptr y = data_ptr x -> storage_offset y = storage_offset x + n ->
     (swig_ptr_from_FloatTensor x = inr p -> swig_ptr_from_FloatTensor y = inr q ->
      q = p + 4 * n) /\
     (swig_ptr_from_IndicesTensor x = inr p -> swig_ptr_from_IndicesTensor y = inr q ->
      q = p + 8 * n)).
Proof.
  pose proof (float_ptr_form x) as Fx. pose proof (index_ptr_form x) as Ix.
  split; [|split; [|split; [|split; [|split]]]].
  - intros p. rewrite Fx. destruct (is_contiguous x), (dtype_of x); cbn [andb dtype_eqb];
      split; try discriminate; try (intros [? [? ?]]; discriminate).
    + intros [= <-]. split; [reflexivity | split; [reflexivity | lia]].
    + intros [_ [_ ->]]. f_equal. lia.
  - intros p. rewrite Ix. destruct (is_contiguous x), (dtype_of x); cbn [andb dtype_eqb];
      split; try discriminate; try (intros [? [? ?]]; discriminate).
    + intros [= <-]. split; [reflexivity | split; [reflexivity | lia]].
    + intros [_ [_ ->]]. f_equal. lia.
  - rewrite Fx. destruct (is_contiguous x && dtype_eqb (dtype_of x) float32);
      [intros Hn; exfalso; apply Hn; eexists; reflexivity | reflexivity].
  - rewrite Ix. destruct (is_contiguous x && dtype_eqb (dtype_of x) int64);
      [intros Hn; exfalso; apply Hn; eexists; reflexivity | reflexivity].
  - rewrite Fx, Ix. intros [[p Hp] [q Hq]].
    destruct (is_contiguous x), (dtype_of x); cbn in Hp, Hq; discriminate.
  - intros y n p q Hy Ho. rewrite Fx, Ix, (float_ptr_form y), (index_ptr_form y), Hy, Ho.
    split; intros Hp Hq.
    + destruct (is_contiguous x && dtype_eqb (dtype_of x) float32); [|discriminate].
      destruct (is_contiguous y && dtype_eqb (dtype_of y) float32); [|discriminate].
      injection Hp as <-. injection Hq as <-. lia.
    + destruct (is_contiguous x && dtype_eqb (dtype_of x) int64); [|discriminate].
      destruct (is_contiguous y && dtype_eqb (dtype_of y) int64); [|discriminate].
      injection Hp as <-. injection Hq as <-. lia.
Qed.

Lemma swig_ptr_spec_witness :
  swig_ptr_from_FloatTensor
    {| size := [4; 2]%nat; device := "cuda:0"; dtype_of := float32; is_contiguous := true;
       data_ptr := 4096; storage_offset := 6 |} = inr 4120.
Proof.
  apply (proj1 (swig_ptr_spec
                  {| size := [4; 2]%nat; device := "cuda:0"; dtype_of := float32;
                     is_contiguous := true; data_ptr := 4096; storage_offset := 6 |})).
  split; [reflexivity | split; [reflexivity | reflexivity]].
Defined.

(** The argument record and the two output tensors in closed form. *)
Lemma get_knn_faiss_args_form (xb xq : torch_tensor) (nb d2 nq d1 : nat) (k : Z)
    (distance : string) (addr_D addr_I : Z) :
  size xb = [nb; d2] -> size xq = [nq; d1] -> checks_pass xb xq distance ->
  get_knn_faiss_args xb xq k distance addr_D addr_I =
  if k <? 0 then inl RuntimeError
  else inr ({| metric := if String.eqb distance "dot_product"
                         then METRIC_INNER_PRODUCT else METRIC_L2;
               k := k; dims := d1;
               vectors := data_ptr xb + storage_offset xb * 4;
               vectorsRowMajor := false; vectorType := DistanceDataType_F32;
               numVectors := nb;
               queries := data_ptr xq + storage_offset xq * 4;
               queriesRowMajor := false; queryType := DistanceDataType_F32;
               numQueries := nq;
               outDistances := addr_D; outIndices := addr_I;
               outIndicesType := IndicesDataType_I64 |},
            {| size := [nq; Z.to_nat k]; device := device xb; dtype_of := float32;
               is_contiguous := true; data_ptr := addr_D; storage_offset := 0 |},
            {| size := [nq; Z.to_nat k]; device := device xb; dtype_of := int64;
               is_contiguous := true; data_ptr := addr_I; storage_offset := 0 |}).
Proof.
  intros Hb Hq [Hdev [Hs [Fq [Fb Hd]]]]. rewrite Hq, Hb in Hd. cbn [nth] in Hd.
  unfold get_knn_faiss_args. rewrite Hdev, String.eqb_refl, Hs.
  cbn [assert bind ret]. rewrite !swig_ptr_from_FloatTensor_ok, Fq, Fb.
  cbn [bind]. rewrite Hq, Hb, Hd, Nat.eqb_refl. cbn [assert bind ret].
  unfold torch_empty. destruct (k <? 0); [reflexivity|].
  cbn [bind ret]. unfold swig_ptr_from_FloatTensor, swig_ptr_from_IndicesTensor.
  cbn [is_contiguous dtype_of dtype_eqb assert bind ret data_ptr storage_offset].
  rewrite !Z.add_0_r. reflexivity.
Qed.

Lemma checks_pass_dec (xb xq : torch_tensor) (distance : string) :
  checks_pass xb xq distance \/ ~ checks_pass xb xq distance.
Proof.
  unfold checks_pass.
  destruct (string_dec (device xb) (device xq)); [|right; tauto].
  destruct (existsb (String.eqb distance) faiss_distances); [|right; intuition discriminate].
  destruct (float_ok xq); [|right; intuition discriminate].
  destruct (float_ok xb); [|right; intuition discriminate].
  destruct (Nat.eq_dec (nth 1 (size xq) 0%nat) (nth 1 (size xb) 0%nat));
    [left; tauto | right; tauto].
Qed.

Lemma get_knn_faiss_args_fail (xb xq : torch_tensor) (nb d2 nq d1 : nat) (k : Z)
    (distance : string) (addr_D addr_I : Z) :
  size xb = [nb; d2] -> size xq = [nq; d1] -> ~ checks_pass xb xq distance ->
  get_knn_faiss_args xb xq k distance addr_D addr_I = inl AssertionError.
Proof.
  intros Hb Hq Hn.
  apply (@get_knn_faiss_assertion xb xq nb d2 nq d1 k distance addr_D addr_I Hb Hq).
  unfold checks_pass in Hn. rewrite Hq, Hb in Hn. cbn [nth] in Hn.
  destruct (string_dec (device xb) (device xq)); [|now left].
  destruct (existsb (String.eqb distance) faiss_distances); [|right; now left].
  destruct (float_ok xq); [|right; right; now left].
  destruct (float_ok xb); [|right; right; right; now left].
  right; right; right; right. intros ->. apply Hn. tauto.
Qed.

(** X17. On two matrices the native search reaches the library exactly
    when the devices agree, the distance is [dot_product] or [l2], both
    tensors are contiguous [float32] tensors, the feature dimensions agree
    and [k >= 0]; with [k < 0] and the other checks passing it ends in a
    [RuntimeError] when the outputs are allocated; in every other case it
    fails an assertion. *)
Theorem get_knn_faiss_args_outcome (xb xq : torch_tensor) (nb d2 nq d1 : nat) (k : Z)
    (distance : string) (addr_D addr_I : Z) :
  size xb = [nb; d2] -> size xq = [nq; d1] ->
  (returns (get_knn_faiss_args xb xq k distance addr_D addr_I) <->
   checks_pass xb xq distance /\ 0 <= k) /\
  (get_knn_faiss_args xb xq k distance addr_D addr_I = inl RuntimeError <->
   checks_pass xb xq distance /\ k < 0) /\
  (~ checks_pass xb xq distance ->
   get_knn_faiss_args xb xq k distance addr_D addr_I = inl AssertionError).
Proof.
  intros Hb Hq.
  destruct (checks_pass_dec xb xq distance) as [Hc | Hn].
  - rewrite (get_knn_faiss_args_form xb xq nb d2 nq d1 k distance addr_D addr_I Hb Hq Hc).
    destruct (Z.ltb_spec k 0) as [Hk | Hk].
    + split; [|split].
      * split; [intros [r Hr]; discriminate | intros [_ ?]; lia].
      * split; [intros _; now split | reflexivity].
      * intros Hn. contradiction.
    + split; [|split].
      * split; [intros _; now split | intros _; eexists; reflexivity].
      * split; [discriminate | intros [_ ?]; lia].
      * intros Hn. contradiction.
  - rewrite (get_knn_faiss_args_fail xb xq nb d2 nq d1 k distance addr_D addr_I Hb Hq Hn).
    split; [|split].
    + split; [intros [r Hr]; discriminate | intros [? _]; contradiction].
    + split; [discriminate | intros [? _]; contradiction].
    + reflexivity.
Qed.

(** X18. When the checks pass and [k >= 0], the library is called with
    the metric of the distance, [k], the feature dimension, the numbers of
    keys and queries and the two data pointers; the call then ends as the
    library call ends, and on success returns the two freshly allocated
    tensors of shape [(nq, k)], the distances as [float32] and the indices as
    [int64], on the device of the keys.  When a check fails or [k < 0] the
    library is not called: the outcome does not depend on it. *)
Theorem get_knn_faiss_call (bfKnn : GpuDistanceParams -> result unit)
    (xb xq : torch_tensor) (nb d2 nq d1 : nat) (k : Z) (distance : string)
    (addr_D addr_I : Z) :
  size xb = [nb; d2] -> size xq = [nq; d1] ->
  (checks_pass xb xq distance -> 0 <= k ->
   exists args D I,
     get_knn_faiss_args xb xq k distance addr_D addr_I = inr (args, D, I) /\
     metric args = (if String.eqb distance "l2" then METRIC_L2 else METRIC_INNER_PRODUCT) /\
     Faiss.k args = k /\ dims args = d2 /\ numVectors args = nb /\ numQueries args = nq /\
     swig_ptr_from_FloatTensor xb = inr (vectors args) /\
     swig_ptr_from_FloatTensor xq = inr (queries args) /\
     size D = [nq; Z.to_nat k] /\ size I = [nq; Z.to_nat k] /\
     dtype_of D = float32 /\ dtype_of I = int64 /\
     device D = device xb /\ device I = device xb /\
     get_knn_faiss bfKnn xb xq k distance addr_D addr_I
     = match bfKnn args with
       | inl e => inl e
       | inr _ => inr (D, I)
       end) /\
  (~ (checks_pass xb xq distance /\ 0 <= k) ->
   forall bfKnn',
     get_knn_faiss bfKnn xb xq k distance addr_D addr_I
     = get_knn_faiss bfKnn' xb xq k distance addr_D addr_I).
Proof.
  intros Hb Hq. split.
  - intros Hc Hk.
    pose proof (get_knn_faiss_args_form xb xq nb d2 nq d1 k distance addr_D addr_I Hb Hq Hc)
      as E.
    destruct (Z.ltb_spec k 0) as [|_]; [lia|].
    destruct Hc as [Hdev [Hs [Fq [Fb Hd]]]]. rewrite Hq, Hb in Hd. cbn [nth] in Hd.
    eexists _, _, _. split; [exact E|]. cbn [metric Faiss.k dims numVectors numQueries
      vectors queries size dtype_of device].
    split.
    { unfold faiss_distances in Hs. cbn [existsb] in Hs.
      destruct (String.eqb_spec distance "dot_product") as [-> | _]; [reflexivity|].
      cbn [orb] in Hs. rewrite orb_false_r in Hs. now rewrite Hs. }
    split; [reflexivity|]. split; [exact Hd|]. split; [reflexivity|]. split; [reflexivity|].
    split; [now rewrite swig_ptr_from_FloatTensor_ok, Fb|].
    split; [now rewrite swig_ptr_from_FloatTensor_ok, Fq|].
    repeat (split; [reflexivity|]).
    unfold get_knn_faiss. rewrite E. cbn [bind fst snd ret].
    destruct (bfKnn _); reflexivity.
  - intros Hn bfKnn'. unfold get_knn_faiss.
    destruct (checks_pass_dec xb xq distance) as [Hc | Hc].
    + rewrite (get_knn_faiss_args_form xb xq nb d2 nq d1 k distance addr_D addr_I Hb Hq Hc).
      destruct (Z.ltb_spec k 0) as [Hk | Hk]; [reflexivity|].
      exfalso. apply Hn. now split.
    + now rewrite (get_knn_faiss_args_fail xb xq nb d2 nq d1 k distance addr_D addr_I
                     Hb Hq Hc).
Qed.

Lemma get_knn_faiss_args_outcome_witness :
  get_knn_faiss_args
    {| size := [4; 2]%nat; device := "cuda:0"; dtype_of := float32; is_contiguous := true;
       data_ptr := 4096; storage_offset := 0 |}
    {| size := [1; 2]%nat; device := "cuda:0"; dtype_of := float32; is_contiguous := true;
       data_ptr := 8192; storage_offset := 0 |}
    (-1) "l2" 12288 16384 = inl RuntimeError.
Proof.
  apply (proj1 (proj2 (get_knn_faiss_args_outcome
           {| size := [4; 2]%nat; device := "cuda:0"; dtype_of := float32;
              is_contiguous := true; data_ptr := 4096; storage_offset := 0 |}
           {| size := [1; 2]%nat; device := "cuda:0"; dtype_of := float32;
              is_contiguous := true; data_ptr := 8192; storage_offset := 0 |}
           4 2 1 2 (-1) "l2"%string 12288 16384 eq_refl eq_refl))).
  split; [repeat split | lia].
Defined.

Lemma get_knn_faiss_call_witness :
  exists D I,
    get_knn_faiss (fun _ => inr tt)
      {| size := [4; 2]%nat; device := "cuda:0"; dtype_of := float32; is_contiguous := true;
         data_ptr := 4096; storage_offset := 0 |}
      {| size := [1; 2]%nat; device := "cuda:0"; dtype_of := float32; is_contiguous := true;
         data_ptr := 8192; storage_offset := 0 |}
      3 "dot_product" 12288 16384 = inr (D, I) /\
    size D = [1; 3]%nat /\ dtype_of I = int64.
Proof.
  destruct (proj1 (get_knn_faiss_call (fun _ => inr tt)
           {| size := [4; 2]%nat; device := "cuda:0"; dtype_of := float32;
              is_contiguous := true; data_ptr := 4096; storage_offset := 0 |}
           {| size := [1; 2]%nat; device := "cuda:0"; dtype_of := float32;
              is_contiguous := true; data_ptr := 8192; storage_offset := 0 |}
           4 2 1 2 3 "dot_product"%string 12288 16384 eq_refl eq_refl))
    as [args [D [I [_ [_ [_ [_ [_ [_ [_ [_ [SD [_ [_ [TI [_ [_ E]]]]]]]]]]]]]]]]].
  - repeat split.
  - lia.
  - exists D, I. split; [exact E|]. split; [exact SD | exact TI].
Defined.

End FaissExtra.
(** * Floating-point facts *)

(** ** Rounding to nearest *)

Module IEEEFacts.
Import IEEE.
Local Open Scope R_scope.


Lemma bpow_pos (e : Z) : 0 < bpow e.
Proof. apply powerRZ_lt. lra. Qed.

Lemma bpow_plus (a b : Z) : bpow (a + b) = bpow a * bpow b.
Proof. apply powerRZ_add. lra. Qed.

Lemma bpow_0 : bpow 0 = 1.
Proof. reflexivity. Qed.

Lemma bpow_1 : bpow 1 = 2.
Proof. apply powerRZ_1. Qed.

Lemma bpow_opp (e : Z) : bpow (- e) = / bpow e.
Proof. apply powerRZ_neg'. Qed.

Lemma bpow_succ (e : Z) : bpow (e + 1) = 2 * bpow e.
Proof. rewrite bpow_plus, bpow_1. ring. Qed.

Lemma bpow_pred (e : Z) : bpow (e - 1) = bpow e / 2.
Proof.
  replace e with ((e - 1) + 1)%Z at 2 by ring. rewrite bpow_succ. field.
Qed.

Lemma bpow_minus (a b : Z) : bpow (a - b) = bpow a / bpow b.
Proof.
  unfold Z.sub. rewrite bpow_plus, bpow_opp. reflexivity.
Qed.

Lemma IZR_pow2 (n : Z) : (0 <= n)%Z -> IZR (2 ^ n) = bpow n.
Proof.
  intros Hn. rewrite <- (Z2Nat.id n Hn). rewrite <- pow_IZR.
  unfold bpow. now rewrite pow_powerRZ.
Qed.

Lemma two_pow_pos (n : Z) : (0 <= n)%Z -> (0 < 2 ^ n)%Z.
Proof. intros. apply Z.pow_pos_nonneg; lia. Qed.

Lemma bpow_ge_1 (n : Z) : (0 <= n)%Z -> 1 <= bpow n.
Proof.
  intros Hn. rewrite <- IZR_pow2 by exact Hn. apply IZR_le.
  pose proof (two_pow_pos n Hn). lia.
Qed.

Lemma bpow_le (a b : Z) : (a <= b)%Z -> bpow a <= bpow b.
Proof.
  intros H. replace b with (a + (b - a))%Z by ring. rewrite bpow_plus.
  pose proof (bpow_pos a). pose proof (bpow_ge_1 (b - a) ltac:(lia)). nra.
Qed.

Lemma bpow_lt (a b : Z) : (a < b)%Z -> bpow a < bpow b.
Proof.
  intros H. apply Rlt_le_trans with (bpow (a + 1)).
  - rewrite bpow_succ. pose proof (bpow_pos a). lra.
  - apply bpow_le. lia.
Qed.

Lemma bpow_lt_inv (a b : Z) : bpow a < bpow b -> (a < b)%Z.
Proof.
  intros H. destruct (Z_lt_le_dec a b) as [L | L]; [exact L|].
  apply bpow_le in L. lra.
Qed.

Lemma bpow_le_inv (a b : Z) : bpow a <= bpow b -> (a <= b)%Z.
Proof.
  intros H. destruct (Z_le_gt_dec a b) as [L | L]; [exact L|].
  assert (b < a)%Z by lia. apply bpow_lt in H0. lra.
Qed.

(** *** Binary digits *)

Lemma digits2_pos_spec (p : positive) :
  (2 ^ (Z.pos (digits2_pos p) - 1) <= Z.pos p < 2 ^ Z.pos (digits2_pos p))%Z.
Proof.
  induction p as [p IH | p IH |]; cbn [digits2_pos].
  - rewrite Pos2Z.inj_succ.
    replace (Z.succ (Z.pos (digits2_pos p)) - 1)%Z with (Z.succ (Z.pos (digits2_pos p) - 1))
      by lia.
    rewrite !Z.pow_succ_r by lia. lia.
  - rewrite Pos2Z.inj_succ.
    replace (Z.succ (Z.pos (digits2_pos p)) - 1)%Z with (Z.succ (Z.pos (digits2_pos p) - 1))
      by lia.
    rewrite !Z.pow_succ_r by lia. lia.
  - cbn. lia.
Qed.

Lemma Zdigits2_spec (m : Z) :
  (0 < m)%Z -> (2 ^ (Zdigits2 m - 1) <= m < 2 ^ Zdigits2 m)%Z /\ (0 < Zdigits2 m)%Z.
Proof.
  destruct m as [|p|p]; try lia. intros _. cbn [Zdigits2].
  split; [apply digits2_pos_spec | lia].
Qed.

Lemma pow2_lt_inv (a b : Z) : (0 <= a)%Z -> (0 <= b)%Z -> (2 ^ a < 2 ^ b)%Z -> (a < b)%Z.
Proof. intros Ha Hb H. apply (Z.pow_lt_mono_r_iff 2); lia. Qed.

Lemma Zdigits2_unique (m d : Z) :
  (0 < d)%Z -> (2 ^ (d - 1) <= m < 2 ^ d)%Z -> Zdigits2 m = d.
Proof.
  intros Hd [L U].
  assert (Hm : (0 < m)%Z) by (pose proof (two_pow_pos (d - 1) ltac:(lia)); lia).
  destruct (Zdigits2_spec m Hm) as [[L' U'] Hd'].
  assert (d - 1 < Zdigits2 m)%Z by (apply pow2_lt_inv; lia).
  assert (Zdigits2 m - 1 < d)%Z by (apply pow2_lt_inv; lia).
  lia.
Qed.

Lemma Zdigits2_nonneg (m : Z) : (0 <= Zdigits2 m)%Z.
Proof. destruct m; cbn; lia. Qed.

Lemma Zdigits2_shr (m n : Z) :
  (0 < m)%Z -> (0 <= n < Zdigits2 m)%Z -> Zdigits2 (m / 2 ^ n) = (Zdigits2 m - n)%Z.
Proof.
  intros Hm Hn. destruct (Zdigits2_spec m Hm) as [[L U] Hd].
  apply Zdigits2_unique; [lia|].
  pose proof (two_pow_pos n ltac:(lia)) as Hp.
  split.
  - apply Z.div_le_lower_bound; [lia|].
    rewrite <- Z.pow_add_r by lia. replace (n + (Zdigits2 m - n - 1))%Z with (Zdigits2 m - 1)%Z by lia.
    exact L.
  - apply Z.div_lt_upper_bound; [lia|].
    rewrite <- Z.pow_add_r by lia. replace (n + (Zdigits2 m - n))%Z with (Zdigits2 m) by lia.
    exact U.
Qed.

Lemma Zdigits2_shr_zero (m n : Z) :
  (0 <= m)%Z -> (Zdigits2 m <= n)%Z -> (m / 2 ^ n = 0)%Z.
Proof.
  intros Hm Hn. destruct (Z.eq_dec m 0) as [-> | Hz].
  - apply Z.div_0_l. pose proof (two_pow_pos n (Z.le_trans _ _ _ (Zdigits2_nonneg 0) Hn)). lia.
  - destruct (Zdigits2_spec m ltac:(lia)) as [[L U] Hd].
    apply Z.div_small. split; [lia|].
    apply Z.lt_le_trans with (2 ^ Zdigits2 m)%Z; [exact U|].
    apply Z.pow_le_mono_r; lia.
Qed.

Lemma Zdigits2_shl (m n : Z) :
  (0 < m)%Z -> (0 <= n)%Z -> Zdigits2 (m * 2 ^ n) = (Zdigits2 m + n)%Z.
Proof.
  intros Hm Hn. destruct (Zdigits2_spec m Hm) as [[L U] Hd].
  pose proof (two_pow_pos n Hn) as Hp.
  apply Zdigits2_unique; [lia|]. split.
  - replace (Zdigits2 m + n - 1)%Z with ((Zdigits2 m - 1) + n)%Z by lia.
    rewrite Z.pow_add_r by lia. nia.
  - rewrite Z.pow_add_r by lia. nia.
Qed.

Lemma Zdigits2_succ (m : Z) :
  (0 < m)%Z ->
  Zdigits2 (m + 1) = Zdigits2 m \/
  ((m + 1 = 2 ^ Zdigits2 m)%Z /\ Zdigits2 (m + 1) = (Zdigits2 m + 1)%Z).
Proof.
  intros Hm. destruct (Zdigits2_spec m Hm) as [[L U] Hd].
  destruct (Z.eq_dec (m + 1) (2 ^ Zdigits2 m)) as [E | E].
  - right. split; [exact E|]. apply Zdigits2_unique; [lia|].
    replace (Zdigits2 m + 1 - 1)%Z with (Zdigits2 m) by lia. rewrite E.
    split; [lia|]. apply Z.pow_lt_mono_r; lia.
  - left. apply Zdigits2_unique; [lia|]. lia.
Qed.

Lemma Zdigits2_le (m n : Z) : (0 < m <= n)%Z -> (Zdigits2 m <= Zdigits2 n)%Z.
Proof.
  intros [Hm Hn].
  destruct (Zdigits2_spec m Hm) as [[L U] Hd].
  destruct (Zdigits2_spec n ltac:(lia)) as [[L' U'] Hd'].
  assert (Zdigits2 m - 1 < Zdigits2 n)%Z by (apply pow2_lt_inv; lia).
  lia.
Qed.



(** *** Shifting a mantissa to the right *)

Lemma IZR_xI (p : positive) : IZR (Z.pos p~1) = 2 * IZR (Z.pos p) + 1.
Proof. rewrite Pos2Z.inj_xI, plus_IZR, mult_IZR. reflexivity. Qed.

Lemma IZR_xO (p : positive) : IZR (Z.pos p~0) = 2 * IZR (Z.pos p).
Proof. rewrite Pos2Z.inj_xO, mult_IZR. reflexivity. Qed.

Lemma loc_of_shr_record_of_loc (m : Z) (l : location) :
  loc_of_shr_record (shr_record_of_loc m l) = l /\ shr_m (shr_record_of_loc m l) = m.
Proof. destruct l as [|[| |]]; split; reflexivity. Qed.

Lemma shr_1_spec (mrs : shr_record) (y : R) :
  (0 <= shr_m mrs)%Z ->
  inbetween_int (shr_m mrs) (loc_of_shr_record mrs) y ->
  shr_m (shr_1 mrs) = (shr_m mrs / 2)%Z /\
  (0 <= shr_m (shr_1 mrs))%Z /\
  inbetween_int (shr_m (shr_1 mrs)) (loc_of_shr_record (shr_1 mrs)) (y / 2).
Proof.
  destruct mrs as [m r s]. cbn [shr_m]. intros Hm.
  destruct m as [|p|p]; [| |lia].
  - destruct r, s; cbn; intros Hy; (split; [reflexivity|]); (split; [lia|]); lra.
  - destruct p as [p|p|].
    + pose proof (IZR_xI p) as E.
      assert (D : (Z.pos p~1 / 2 = Z.pos p)%Z) by (rewrite Pos2Z.inj_xI; lia).
      destruct r, s; cbn [shr_1 orb shr_m loc_of_shr_record inbetween_int];
        intros Hy; (split; [now rewrite D|]); (split; [lia|]); lra.
    + pose proof (IZR_xO p) as E.
      assert (D : (Z.pos p~0 / 2 = Z.pos p)%Z) by (rewrite Pos2Z.inj_xO; lia).
      destruct r, s; cbn [shr_1 orb shr_m loc_of_shr_record inbetween_int];
        intros Hy; (split; [now rewrite D|]); (split; [lia|]); lra.
    + destruct r, s; cbn [shr_1 orb shr_m loc_of_shr_record inbetween_int];
        intros Hy; (split; [reflexivity|]); (split; [lia|]); lra.
Qed.

Lemma iter_pos_invariant (A : Type) (f : A -> A) (I : Z -> A -> Prop) :
  (forall k z, (0 <= k)%Z -> I k z -> I (k + 1)%Z (f z)) ->
  forall n k z, (0 <= k)%Z -> I k z -> I (k + Z.pos n)%Z (SpecFloat.iter_pos f n z).
Proof.
  intros Hf. induction n as [n IH | n IH |]; intros k z Hk Hz; cbn [SpecFloat.iter_pos].
  - replace (k + Z.pos n~1)%Z with (k + 1 + Z.pos n + Z.pos n)%Z by lia.
    apply IH; [lia|]. apply IH; [lia|]. now apply Hf.
  - replace (k + Z.pos n~0)%Z with (k + Z.pos n + Z.pos n)%Z by lia.
    apply IH; [lia|]. now apply IH.
  - now apply Hf.
Qed.

Lemma shr_iter_spec (n : positive) (mrs : shr_record) (y : R) :
  (0 <= shr_m mrs)%Z ->
  inbetween_int (shr_m mrs) (loc_of_shr_record mrs) y ->
  let mrs' := SpecFloat.iter_pos shr_1 n mrs in
  shr_m mrs' = (shr_m mrs / 2 ^ Z.pos n)%Z /\
  (0 <= shr_m mrs')%Z /\
  inbetween_int (shr_m mrs') (loc_of_shr_record mrs') (y / bpow (Z.pos n)).
Proof.
  intros Hm Hy.
  pose (I := fun (k : Z) (z : shr_record) =>
               shr_m z = (shr_m mrs / 2 ^ k)%Z /\ (0 <= shr_m z)%Z /\
               inbetween_int (shr_m z) (loc_of_shr_record z) (y / bpow k)).
  assert (G : I (0 + Z.pos n)%Z (SpecFloat.iter_pos shr_1 n mrs)).
  { apply iter_pos_invariant.
    - intros k z Hk [Ez [Pz Iz]].
      destruct (shr_1_spec z _ Pz Iz) as [E1 [P1 I1]].
      split; [|split; [exact P1|]].
      + rewrite E1, Ez. rewrite Z.pow_add_r by lia.
        rewrite Z.div_div; [reflexivity | | lia].
        pose proof (two_pow_pos k Hk). lia.
      + replace (y / bpow (k + 1)) with (y / bpow k / 2); [exact I1|].
        rewrite bpow_succ. field. pose proof (bpow_pos k). lra.
    - lia.
    - unfold I. rewrite Z.pow_0_r, Z.div_1_r, bpow_0.
      replace (y / 1) with y by field. auto. }
  exact G.
Qed.

Section Format.
Variables prec emax : Z.
Hypothesis prec_pos : (0 < prec)%Z.
Hypothesis prec_lt_emax : (prec < emax)%Z.

Lemma fexp_mono (a b : Z) : (a <= b)%Z -> (fexp prec emax a <= fexp prec emax b)%Z.
Proof. unfold fexp. lia. Qed.

Lemma fexp_succ (a : Z) : (fexp prec emax (a + 1) <= fexp prec emax a + 1)%Z.
Proof. unfold fexp. lia. Qed.

Lemma fexp_ge_emin (a : Z) : (emin prec emax <= fexp prec emax a)%Z.
Proof. unfold fexp. lia. Qed.

Lemma shr_fexp_spec (m e : Z) (l : location) (y : R) :
  (0 <= m)%Z -> inbetween_int m l y ->
  let E := Z.max e (fexp prec emax (Zdigits2 m + e)) in
  let r := shr_fexp prec emax m e l in
  snd r = E /\
  shr_m (fst r) = (m / 2 ^ (E - e))%Z /\
  (0 <= shr_m (fst r))%Z /\
  inbetween_int (shr_m (fst r)) (loc_of_shr_record (fst r)) (y / bpow (E - e)).
Proof.
  intros Hm Hy E r. unfold r, shr_fexp, shr.
  destruct (loc_of_shr_record_of_loc m l) as [El Em].
  destruct (fexp prec emax (Zdigits2 m + e) - e)%Z as [|n|n] eqn:En; cbn [fst snd].
  - assert (E = e) by (unfold E; lia). rewrite H, Z.sub_diag, Z.pow_0_r, Z.div_1_r, bpow_0.
    rewrite El, Em. replace (y / 1) with y by field. auto.
  - assert (HE : (E - e = Z.pos n)%Z) by (unfold E; lia).
    rewrite HE. split; [lia|].
    pose proof (shr_iter_spec n (shr_record_of_loc m l) y) as G.
    rewrite El, Em in G. apply (G Hm Hy).
  - assert (E = e) by (unfold E; lia). rewrite H, Z.sub_diag, Z.pow_0_r, Z.div_1_r, bpow_0.
    rewrite El, Em. replace (y / 1) with y by field. auto.
Qed.

(** *** Rounding to the nearest integer *)

Lemma round_nearest_even_spec (m : Z) (l : location) (y : R) :
  inbetween_int m l y ->
  let K := round_nearest_even m l in
  (K = m \/ K = (m + 1)%Z) /\ Rabs (IZR K - y) <= / 2.
Proof.
  intros Hy K. unfold K.
  destruct l as [|[| |]]; cbn [round_nearest_even inbetween_int] in *.
  - split; [now left|]. subst y. rewrite Rminus_diag, Rabs_R0. lra.
  - destruct (Z.even m); (split; [tauto|]); rewrite ?plus_IZR; subst y.
    + replace (IZR m - (IZR m + / 2)) with (- / 2) by ring.
      rewrite Rabs_Ropp, Rabs_pos_eq; lra.
    + replace (IZR m + 1 - (IZR m + / 2)) with (/ 2) by field.
      rewrite Rabs_pos_eq; lra.
  - split; [now left|]. apply Rabs_le. lra.
  - split; [now right|]. rewrite plus_IZR. apply Rabs_le. lra.
Qed.

(** *** One rounding *)

Lemma carry_spec (m e K : Z) :
  (0 <= m)%Z ->
  let E := fexp prec emax (Zdigits2 m + e) in
  (e <= E)%Z ->
  K = (m / 2 ^ (E - e))%Z \/ K = (m / 2 ^ (E - e) + 1)%Z ->
  (0 < K)%Z ->
  let E2 := fexp prec emax (Zdigits2 K + E) in
  (E <= E2 <= E + 1)%Z /\
  (K mod 2 ^ (E2 - E) = 0)%Z /\
  (0 < K / 2 ^ (E2 - E))%Z /\
  (Zdigits2 (K / 2 ^ (E2 - E)) + E2 = Zdigits2 K + E)%Z.
Proof.
  intros Hm E HE HK Kpos E2.
  assert (Hsame : E2 = E ->
            (E <= E2 <= E + 1)%Z /\ (K mod 2 ^ (E2 - E) = 0)%Z /\
            (0 < K / 2 ^ (E2 - E))%Z /\
            (Zdigits2 (K / 2 ^ (E2 - E)) + E2 = Zdigits2 K + E)%Z).
  { intros ->. rewrite Z.sub_diag, Z.pow_0_r, Z.mod_1_r, Z.div_1_r. lia. }
  assert (Hone : K = 1%Z -> E = emin prec emax -> E2 = E).
  { intros HK1 HEm. unfold E2. rewrite HK1, HEm. cbn [Zdigits2 digits2_pos].
    unfold fexp. lia. }
  destruct (Z.eq_dec m 0) as [Hm0 | Hm0].
  { (* nothing to shift *)
    assert (m / 2 ^ (E - e) = 0)%Z by (rewrite Hm0; apply Z.div_0_l;
      pose proof (two_pow_pos (E - e) ltac:(lia)); lia).
    apply Hsame, Hone; [lia|]. unfold E in *. rewrite Hm0 in *. cbn [Zdigits2] in *.
    unfold fexp in *. lia. }
  destruct (Zdigits2_spec m ltac:(lia)) as [[L U] Hd].
  destruct (Z_lt_le_dec (E - e) (Zdigits2 m)) as [Hn | Hn].
  - pose proof (Zdigits2_shr m (E - e) ltac:(lia) ltac:(lia)) as Hd1.
    set (m1 := (m / 2 ^ (E - e))%Z) in *.
    assert (Hm1 : (0 < m1)%Z).
    { destruct (Z_lt_le_dec 0 m1) as [? | Hle]; [assumption|].
      assert (m1 = 0)%Z.
      { assert (Hp2 : (0 < 2 ^ (E - e))%Z) by (apply two_pow_pos; lia).
        pose proof (Z.div_pos m (2 ^ (E - e)) ltac:(lia) Hp2) as Hdp.
        fold m1 in Hdp. lia. }
      rewrite H in Hd1. cbn [Zdigits2] in Hd1. lia. }
    assert (Hmu : (Zdigits2 m1 + E = Zdigits2 m + e)%Z) by lia.
    destruct HK as [-> | ->].
    + apply Hsame. unfold E2. rewrite Hmu. reflexivity.
    + destruct (Zdigits2_succ m1 Hm1) as [Hs | [Hp Hs]].
      * apply Hsame. unfold E2. rewrite Hs, Hmu. reflexivity.
      * assert (HE2 : E2 = fexp prec emax (Zdigits2 m + e + 1)).
        { unfold E2. rewrite Hs. f_equal. lia. }
        pose proof (fexp_succ (Zdigits2 m + e)) as F1.
        pose proof (fexp_mono (Zdigits2 m + e) (Zdigits2 m + e + 1) ltac:(lia)) as F2.
        fold E in F1, F2. rewrite <- HE2 in F1, F2.
        destruct (Z.eq_dec E2 E) as [Heq | Hne]; [now apply Hsame|].
        assert (H1 : (E2 - E = 1)%Z) by lia.
        assert (Hj : (0 < Zdigits2 m1)%Z) by (apply Zdigits2_spec; lia).
        assert (HKp : (m1 + 1 = 2 ^ (Zdigits2 m1 - 1) * 2)%Z).
        { rewrite Hp. replace (Zdigits2 m1) with (Z.succ (Zdigits2 m1 - 1)) at 1 by lia.
          rewrite Z.pow_succ_r by lia. ring. }
        assert (Hhalf : Zdigits2 (2 ^ (Zdigits2 m1 - 1)) = Zdigits2 m1).
        { apply Zdigits2_unique; [lia|]. split; [lia|].
          apply Z.pow_lt_mono_r; lia. }
        rewrite H1, Z.pow_1_r.
        split; [lia|]. split; [|split].
        -- rewrite HKp. apply Z.mod_mul. lia.
        -- rewrite HKp, Z.div_mul by lia. apply two_pow_pos. lia.
        -- rewrite Hs. rewrite HKp, Z.div_mul by lia. rewrite Hhalf. lia.
  - (* the whole mantissa is shifted out *)
    assert (m / 2 ^ (E - e) = 0)%Z by (apply Zdigits2_shr_zero; lia).
    apply Hsame, Hone; [lia|]. unfold E in *. unfold fexp in *. lia.
Qed.

Theorem binary_round_aux_correct (s : bool) (m e : Z) (l : location) (x : R) :
  (0 <= m)%Z ->
  inbetween_int m l (x / bpow e) ->
  let E := fexp prec emax (Zdigits2 m + e) in
  (e <= E)%Z ->
  exists K : Z,
    (0 <= K)%Z /\ Rabs (IZR K - x / bpow E) <= / 2 /\
    (K = (m / 2 ^ (E - e))%Z \/ K = (m / 2 ^ (E - e) + 1)%Z) /\
    match binary_round_aux prec emax s m e l with
    | S754_zero s' => s' = s /\ K = 0%Z
    | S754_finite s' M e' =>
        s' = s /\ F2R (Z.pos M) e' = F2R K E /\ bounded prec emax M e' = true
    | S754_infinity s' => s' = s /\ bpow emax <= F2R K E
    | S754_nan => False
    end.
Proof.
  intros Hm Hy E HE.
  unfold binary_round_aux.
  pose proof (shr_fexp_spec m e l (x / bpow e) Hm Hy) as S1. cbv zeta in S1.
  fold E in S1. rewrite Z.max_r in S1 by exact HE.
  destruct (shr_fexp prec emax m e l) as [mrs1 e1]. cbn [fst snd] in S1.
  destruct S1 as [-> [Em1 [Pm1 I1]]].
  replace (x / bpow e / bpow (E - e)) with (x / bpow E) in I1.
  2:{ replace E with (e + (E - e))%Z at 1 by ring. rewrite bpow_plus. field.
      pose proof (bpow_pos e). pose proof (bpow_pos (E - e)). lra. }
  destruct (round_nearest_even_spec _ _ _ I1) as [HK HKy].
  set (K := round_nearest_even (shr_m mrs1) (loc_of_shr_record mrs1)) in *.
  rewrite Em1 in HK.
  assert (HK0 : (0 <= K)%Z) by (rewrite Em1 in Pm1; lia).
  exists K. split; [exact HK0|]. split; [exact HKy|]. split; [exact HK|].
  pose proof (shr_fexp_spec K E loc_Exact (IZR K) HK0 eq_refl) as S2. cbv zeta in S2.
  destruct (shr_fexp prec emax K E loc_Exact) as [mrs2 e2]. cbn [fst snd] in S2.
  destruct S2 as [-> [Em2 [Pm2 _]]].
  destruct (Z.eq_dec K 0) as [HKz | HKz].
  { (* the number is rounded to zero *)
    rewrite Em2, HKz, Z.div_0_l.
    - now split.
    - pose proof (two_pow_pos (Z.max E (fexp prec emax (Zdigits2 0 + E)) - E) ltac:(lia)). lia. }
  destruct (carry_spec m e K Hm HE HK ltac:(lia)) as [HE2 [Hmod [Hq Hdig]]].
  fold E in HE2, Hmod, Hq, Hdig.
  set (E2 := fexp prec emax (Zdigits2 K + E)) in *.
  rewrite Z.max_r in Em2 |- * by lia.
  destruct (shr_m mrs2) as [|M|M] eqn:EM; [lia | | lia].
  assert (Hval : F2R (Z.pos M) E2 = F2R K E).
  { unfold F2R. rewrite Em2.
    assert (HKq : (K = K / 2 ^ (E2 - E) * 2 ^ (E2 - E))%Z).
    { pose proof (Z.div_mod K (2 ^ (E2 - E))
                    ltac:(pose proof (two_pow_pos (E2 - E) ltac:(lia)); lia)). lia. }
    rewrite HKq at 2. rewrite mult_IZR, IZR_pow2 by lia.
    rewrite Rmult_assoc, <- bpow_plus. do 2 f_equal. lia. }
  destruct (Z.leb_spec E2 (emax - prec)) as [Hfin | Hinf].
  - split; [reflexivity|]. split; [exact Hval|].
    unfold bounded, canonical_mantissa. apply andb_true_intro. split.
    + apply Z.eqb_eq. change (Z.pos (digits2_pos M)) with (Zdigits2 (Z.pos M)).
      rewrite Em2, Hdig. reflexivity.
    + now apply Z.leb_le.
  - split; [reflexivity|].
    destruct (Zdigits2_spec K ltac:(lia)) as [[LK UK] HdK].
    assert (Hmag : (emax <= Zdigits2 K - 1 + E)%Z).
    { unfold E2, fexp, emin in Hinf. lia. }
    apply Rle_trans with (bpow (Zdigits2 K - 1 + E)); [now apply bpow_le|].
    rewrite bpow_plus. unfold F2R. apply Rmult_le_compat_r.
    + pose proof (bpow_pos E). lra.
    + rewrite <- IZR_pow2 by lia. now apply IZR_le.
Qed.

Lemma inbetween_int_bounds (m : Z) (l : location) (y : R) :
  inbetween_int m l y -> IZR m <= y < IZR m + 1.
Proof. destruct l as [|[| |]]; cbn; lra. Qed.

Lemma grid_of_digits (m e : Z) (l : location) (x : R) :
  (0 <= m)%Z -> inbetween_int m l (x / bpow e) ->
  (e <= fexp prec emax (Zdigits2 m + e))%Z ->
  grid prec emax (fexp prec emax (Zdigits2 m + e)) x.
Proof.
  intros Hm Hy HE. apply inbetween_int_bounds in Hy.
  pose proof (bpow_pos e) as Hpe.
  assert (Hx : IZR m * bpow e <= x < (IZR m + 1) * bpow e).
  { replace x with (x / bpow e * bpow e) by (field; lra).
    split; [apply Rmult_le_compat_r | apply Rmult_lt_compat_r]; lra. }
  set (E := fexp prec emax (Zdigits2 m + e)) in *.
  assert (Hup : x < bpow (Zdigits2 m + e)).
  { apply Rlt_le_trans with ((IZR m + 1) * bpow e); [apply Hx|].
    rewrite bpow_plus. apply Rmult_le_compat_r; [lra|].
    rewrite <- IZR_pow2 by apply Zdigits2_nonneg. rewrite <- plus_IZR. apply IZR_le.
    destruct (Z.eq_dec m 0) as [-> | Hz]; [cbn; lia|].
    destruct (Zdigits2_spec m ltac:(lia)) as [[_ U] _]. lia. }
  split; [apply fexp_ge_emin|]. split.
  - apply Rlt_le_trans with (1 := Hup). apply bpow_le. unfold E, fexp. lia.
  - destruct (Z.eq_dec E (emin prec emax)) as [He | He]; [now left | right].
    assert (HEd : (E = Zdigits2 m + e - prec)%Z) by (unfold E, fexp in *; lia).
    assert (Hmpos : (0 < m)%Z).
    { destruct (Z.eq_dec m 0) as [Hz | Hz]; [|lia].
      rewrite Hz in HEd. cbn [Zdigits2] in HEd. lia. }
    destruct (Zdigits2_spec m Hmpos) as [[L _] Hd].
    apply Rle_trans with (IZR m * bpow e); [|apply Hx].
    replace (E + prec - 1)%Z with ((Zdigits2 m - 1) + e)%Z by lia.
    rewrite bpow_plus. apply Rmult_le_compat_r; [lra|].
    rewrite <- IZR_pow2 by lia. now apply IZR_le.
Qed.

Theorem binary_round_aux_rounded (s : bool) (m e : Z) (l : location) (x : R) :
  (0 <= m)%Z -> inbetween_int m l (x / bpow e) ->
  (e <= fexp prec emax (Zdigits2 m + e))%Z ->
  rounded prec emax s x (binary_round_aux prec emax s m e l).
Proof.
  intros Hm Hy HE.
  destruct (binary_round_aux_correct s m e l x Hm Hy HE) as [K [HK [HKy [_ Hr]]]].
  exists K, (fexp prec emax (Zdigits2 m + e)).
  split; [now apply grid_of_digits with (l := l)|]. auto.
Qed.



Lemma Rabs_le_inv (a b : R) : Rabs a <= b -> - b <= a <= b.
Proof. unfold Rabs. destruct (Rcase_abs a); lra. Qed.

Lemma F2R_pos (M : positive) (e : Z) : 0 < F2R (Z.pos M) e.
Proof.
  unfold F2R. apply Rmult_lt_0_compat; [|apply bpow_pos].
  apply IZR_lt. lia.
Qed.

Lemma SF2R_finite_abs (s : bool) (M : positive) (e : Z) :
  Rabs (SF2R (S754_finite s M e)) = F2R (Z.pos M) e.
Proof.
  pose proof (F2R_pos M e) as Hp. unfold SF2R, cond_Zopp.
  destruct s.
  - unfold F2R in *. rewrite opp_IZR, Ropp_mult_distr_l_reverse, Rabs_Ropp.
    apply Rabs_pos_eq. lra.
  - apply Rabs_pos_eq. lra.
Qed.

Lemma SF2R_finite_sign (s : bool) (M : positive) (e : Z) :
  SF2R (S754_finite s M e) = if s then - F2R (Z.pos M) e else F2R (Z.pos M) e.
Proof.
  unfold SF2R, cond_Zopp, F2R. destruct s; [|reflexivity].
  rewrite opp_IZR. ring.
Qed.


Lemma bounded_spec (M : positive) (e : Z) :
  bounded prec emax M e = true ->
  (Z.pos M < 2 ^ prec)%Z /\ (emin prec emax <= e <= emax - prec)%Z /\
  e = fexp prec emax (Zdigits2 (Z.pos M) + e).
Proof.
  unfold bounded, canonical_mantissa. intros H.
  apply andb_prop in H. destruct H as [Hc He].
  apply Z.eqb_eq in Hc. apply Z.leb_le in He.
  change (Z.pos (digits2_pos M)) with (Zdigits2 (Z.pos M)) in Hc.
  destruct (Zdigits2_spec (Z.pos M) ltac:(lia)) as [[L U] Hd].
  assert (Hdp : (Zdigits2 (Z.pos M) <= prec)%Z) by (unfold fexp in Hc; lia).
  split; [|split; [|now symmetry]].
  - apply Z.lt_le_trans with (1 := U). apply Z.pow_le_mono_r; lia.
  - split; [|exact He]. rewrite <- Hc. apply fexp_ge_emin.
Qed.

Lemma bounded_in_format (M : positive) (e : Z) :
  bounded prec emax M e = true ->
  in_format prec emax (F2R (Z.pos M) e) /\ F2R (Z.pos M) e < bpow emax.
Proof.
  intros H. destruct (bounded_spec M e H) as [HM [[He1 He2] _]]. split.
  - exists (Z.pos M), e. split; [reflexivity|]. split; [lia | exact He1].
  - unfold F2R. apply Rlt_le_trans with (bpow prec * bpow e).
    + apply Rmult_lt_compat_r; [apply bpow_pos|].
      rewrite <- IZR_pow2 by lia. now apply IZR_lt.
    + rewrite <- bpow_plus. apply bpow_le. lia.
Qed.

Lemma in_format_bpow (k : Z) : (emin prec emax <= k)%Z -> in_format prec emax (bpow k).
Proof.
  intros Hk. exists 1%Z, k. split; [unfold F2R; ring|]. split; [|exact Hk].
  cbn [Z.abs]. apply (Z.pow_lt_mono_r 2 0 prec); lia.
Qed.

Lemma in_format_lt (b : R) :
  in_format prec emax b ->
  exists M e, b = F2R M e /\ (emin prec emax <= e)%Z /\ b < bpow (prec + e).
Proof.
  intros [M [e [-> [HM He]]]]. exists M, e. split; [reflexivity|]. split; [exact He|].
  rewrite bpow_plus. unfold F2R. apply Rmult_lt_compat_r; [apply bpow_pos|].
  rewrite <- IZR_pow2 by lia. apply IZR_lt. lia.
Qed.

(** A number of the format that is a multiple of the last bit kept. *)
Lemma format_on_grid (M e E : Z) :
  (E <= e)%Z -> F2R M e = IZR (M * 2 ^ (e - E)) * bpow E.
Proof.
  intros H. unfold F2R. rewrite mult_IZR, IZR_pow2 by lia.
  rewrite Rmult_assoc, <- bpow_plus. do 2 f_equal. lia.
Qed.

Lemma nearest_le (K J : Z) (y : R) :
  Rabs (IZR K - y) <= / 2 -> y <= IZR J -> (K <= J)%Z.
Proof.
  intros HK Hy. apply Rabs_le_inv in HK.
  assert (IZR K < IZR (J + 1)) by (rewrite plus_IZR; lra).
  apply lt_IZR in H. lia.
Qed.

Lemma nearest_ge (K J : Z) (y : R) :
  Rabs (IZR K - y) <= / 2 -> IZR J <= y -> (J <= K)%Z.
Proof.
  intros HK Hy. apply Rabs_le_inv in HK.
  assert (IZR (J - 1) < IZR K) by (rewrite minus_IZR; lra).
  apply lt_IZR in H. lia.
Qed.

Lemma scaled_le (x b : R) (E : Z) : x <= b * bpow E -> x / bpow E <= b.
Proof.
  intros H. pose proof (bpow_pos E).
  apply Rmult_le_reg_r with (bpow E); [lra|].
  replace (x / bpow E * bpow E) with x by (field; lra). exact H.
Qed.

Lemma scaled_ge (x b : R) (E : Z) : b * bpow E <= x -> b <= x / bpow E.
Proof.
  intros H. pose proof (bpow_pos E).
  apply Rmult_le_reg_r with (bpow E); [lra|].
  replace (x / bpow E * bpow E) with x by (field; lra). exact H.
Qed.

(** The multiple chosen for [x] does not pass a number of the format
    above [x], nor one below. *)
Lemma rounded_multiple_le (K E : Z) (x b : R) :
  grid prec emax E x -> Rabs (IZR K - x / bpow E) <= / 2 ->
  x <= b -> in_format prec emax b -> F2R K E <= b.
Proof.
  intros [HE [Hup Hlow]] HK Hx Hb.
  destruct (in_format_lt b Hb) as [M [e [Eb [He Hlt]]]].
  assert (HEe : (E <= e)%Z).
  { destruct Hlow as [-> | Hlow]; [exact He|].
    assert (bpow (E + prec - 1) < bpow (prec + e)) by lra.
    apply bpow_lt_inv in H. lia. }
  rewrite Eb, (format_on_grid M e E HEe). unfold F2R.
  apply Rmult_le_compat_r; [pose proof (bpow_pos E); lra|].
  apply IZR_le. apply nearest_le with (1 := HK).
  apply scaled_le. rewrite <- format_on_grid by exact HEe. now rewrite <- Eb.
Qed.

Lemma rounded_multiple_ge (K E : Z) (x a : R) :
  grid prec emax E x -> Rabs (IZR K - x / bpow E) <= / 2 ->
  a <= x -> in_format prec emax a -> a <= F2R K E.
Proof.
  intros [HE [Hup Hlow]] HK Hx Ha.
  destruct (in_format_lt a Ha) as [M [e [Ea [He Hlt]]]].
  destruct (Z_le_gt_dec E e) as [HEe | HEe].
  - rewrite Ea, (format_on_grid M e E HEe). unfold F2R.
    apply Rmult_le_compat_r; [pose proof (bpow_pos E); lra|].
    apply IZR_le. apply nearest_ge with (1 := HK).
    apply scaled_ge. rewrite <- format_on_grid by exact HEe. now rewrite <- Ea.
  - destruct Hlow as [-> | Hlow]; [lia|].
    apply Rle_trans with (bpow (E + prec - 1)).
    + apply Rlt_le. apply Rlt_le_trans with (1 := Hlt). apply bpow_le. lia.
    + replace (E + prec - 1)%Z with ((prec - 1) + E)%Z by lia.
      rewrite bpow_plus. unfold F2R.
      apply Rmult_le_compat_r; [pose proof (bpow_pos E); lra|].
      rewrite <- IZR_pow2 by lia. apply IZR_le. apply nearest_ge with (1 := HK).
      apply scaled_ge. rewrite IZR_pow2 by lia. rewrite <- bpow_plus.
      replace (prec - 1 + E)%Z with (E + prec - 1)%Z by lia. exact Hlow.
Qed.

Lemma rounded_le (s : bool) (x b : R) (r : spec_float) :
  rounded prec emax s x r -> x <= b -> in_format prec emax b -> b < bpow emax ->
  is_finite r = true /\ Rabs (SF2R r) <= b.
Proof.
  intros [K [E [HG [HK0 [HK Hr]]]]] Hx Hb Hmax.
  pose proof (rounded_multiple_le K E x b HG HK Hx Hb) as HKb.
  assert (H0 : 0 <= b).
  { apply Rle_trans with (2 := HKb). unfold F2R.
    apply Rmult_le_pos; [apply IZR_le; lia | pose proof (bpow_pos E); lra]. }
  destruct r as [s' | s' | | s' M e'].
  - split; [reflexivity|]. cbn [SF2R]. now rewrite Rabs_R0.
  - destruct Hr as [_ Hr]. lra.
  - contradiction.
  - destruct Hr as [_ [Hv _]]. split; [reflexivity|].
    rewrite SF2R_finite_abs, Hv. exact HKb.
Qed.

Lemma rounded_ge (s : bool) (x a : R) (r : spec_float) :
  rounded prec emax s x r -> a <= x -> in_format prec emax a ->
  is_finite r = true -> a <= Rabs (SF2R r).
Proof.
  intros [K [E [HG [HK0 [HK Hr]]]]] Hx Ha Hfin.
  pose proof (rounded_multiple_ge K E x a HG HK Hx Ha) as HKa.
  destruct r as [s' | s' | | s' M e']; try discriminate.
  - destruct Hr as [_ ->]. cbn [SF2R]. rewrite Rabs_R0.
    unfold F2R in HKa. lra.
  - destruct Hr as [_ [Hv _]]. rewrite SF2R_finite_abs, Hv. exact HKa.
Qed.

Lemma rounded_sign (s : bool) (x : R) (r : spec_float) :
  rounded prec emax s x r ->
  SF2R r = if s then - Rabs (SF2R r) else Rabs (SF2R r).
Proof.
  intros [K [E [_ [_ [_ Hr]]]]].
  destruct r as [s' | s' | | s' M e']; cbn [SF2R]; rewrite ?Rabs_R0;
    try (destruct s; lra).
  destruct Hr as [-> _]. fold (SF2R (S754_finite s M e')).
  rewrite SF2R_finite_abs. apply SF2R_finite_sign.
Qed.

Lemma rounded_valid (s : bool) (x : R) (r : spec_float) :
  rounded prec emax s x r -> valid_binary prec emax r = true.
Proof.
  intros [K [E [_ [_ [_ Hr]]]]].
  destruct r as [s' | s' | | s' M e']; cbn [valid_binary]; try reflexivity.
  now destruct Hr as [_ [_ Hb]].
Qed.

(** The error of one rounding: half of the last bit kept. *)
Lemma rounded_error (s : bool) (x : R) (r : spec_float) :
  rounded prec emax s x r -> is_finite r = true -> 0 <= x ->
  (bpow (emin prec emax + prec - 1) <= x ->
   Rabs (Rabs (SF2R r) - x) <= bpow (- prec) * x) /\
  Rabs (Rabs (SF2R r) - x) <= bpow (- prec) * x + bpow (emin prec emax - 1).
Proof.
  intros [K [E [[HE [Hup Hlow]] [HK0 [HK Hr]]]]] Hfin Hx0.
  assert (Hval : Rabs (SF2R r) = F2R K E).
  { destruct r as [s' | s' | | s' M e']; try discriminate.
    - destruct Hr as [_ ->]. cbn [SF2R]. rewrite Rabs_R0. unfold F2R. ring.
    - destruct Hr as [_ [Hv _]]. now rewrite SF2R_finite_abs. }
  pose proof (bpow_pos E) as HpE.
  assert (Herr : Rabs (Rabs (SF2R r) - x) <= bpow (E - 1)).
  { rewrite Hval, bpow_pred. unfold F2R.
    replace (IZR K * bpow E - x) with ((IZR K - x / bpow E) * bpow E) by (field; lra).
    rewrite Rabs_mult, (Rabs_pos_eq (bpow E)) by lra.
    replace (bpow E / 2) with (/ 2 * bpow E) by field.
    apply Rmult_le_compat_r; lra. }
  assert (Hrel : bpow (E + prec - 1) <= x -> bpow (E - 1) <= bpow (- prec) * x).
  { intros H. replace (E - 1)%Z with (- prec + (E + prec - 1))%Z by lia.
    rewrite bpow_plus. apply Rmult_le_compat_l; [pose proof (bpow_pos (- prec)); lra|].
    exact H. }
  split.
  - intros Hn. apply Rle_trans with (1 := Herr). apply Hrel.
    destruct Hlow as [-> | Hlow]; assumption.
  - destruct Hlow as [HEm | Hlow].
    + rewrite HEm in Herr. apply Rle_trans with (1 := Herr).
      pose proof (bpow_pos (- prec)).
      assert (0 <= bpow (- prec) * x) by (apply Rmult_le_pos; lra). lra.
    + pose proof (bpow_pos (emin prec emax - 1)).
      apply Rle_trans with (1 := Herr). specialize (Hrel Hlow). lra.
Qed.



Lemma shl_align_spec (mx : positive) (ex ex' : Z) :
  snd (shl_align mx ex ex') = Z.min ex ex' /\
  Z.pos (fst (shl_align mx ex ex'))
  = (Z.pos mx * 2 ^ (ex - snd (shl_align mx ex ex')))%Z.
Proof.
  unfold shl_align. destruct (ex' - ex)%Z as [|d|d] eqn:Ed; cbn [fst snd].
  - split; [lia|]. rewrite Z.sub_diag. lia.
  - split; [lia|]. rewrite Z.sub_diag. lia.
  - split; [lia|]. replace (ex - ex')%Z with (Z.pos d) by lia.
    change (Pos.iter xO mx d) with (shift_pos d mx). rewrite shift_pos_correct.
    change (Z.pow_pos 2 d) with (2 ^ Z.pos d)%Z. ring.
Qed.

Lemma F2R_shl (m e e' : Z) : (e' <= e)%Z -> F2R (m * 2 ^ (e - e')) e' = F2R m e.
Proof. intros H. symmetry. now apply format_on_grid. Qed.

Lemma F2R_cond_Zopp (s : bool) (m e : Z) :
  F2R (cond_Zopp s m) e = if s then - F2R m e else F2R m e.
Proof. unfold F2R, cond_Zopp. destruct s; [rewrite opp_IZR; ring | reflexivity]. Qed.

Lemma F2R_plus (a b e : Z) : F2R (a + b) e = F2R a e + F2R b e.
Proof. unfold F2R. rewrite plus_IZR. ring. Qed.

Lemma F2R_mult (a b e f : Z) : F2R (a * b) (e + f) = F2R a e * F2R b f.
Proof. unfold F2R. rewrite mult_IZR, bpow_plus. ring. Qed.


Theorem binary_round_rounded (s : bool) (mx : positive) (ex : Z) :
  rounded prec emax s (F2R (Z.pos mx) ex) (binary_round prec emax s mx ex).
Proof.
  unfold binary_round.
  pose proof (shl_align_spec mx ex (fexp prec emax (Z.pos (digits2_pos mx) + ex)))
    as [He Hm].
  destruct (shl_align mx ex (fexp prec emax (Z.pos (digits2_pos mx) + ex))) as [mz ez].
  cbn [fst snd] in He, Hm.
  change (Z.pos (digits2_pos mx)) with (Zdigits2 (Z.pos mx)) in He.
  assert (Hd : (Zdigits2 (Z.pos mz) + ez = Zdigits2 (Z.pos mx) + ex)%Z).
  { rewrite Hm, Zdigits2_shl by lia. lia. }
  assert (Hx : F2R (Z.pos mx) ex = F2R (Z.pos mz) ez).
  { rewrite Hm. symmetry. apply F2R_shl. lia. }
  rewrite Hx.
  apply binary_round_aux_rounded.
  - lia.
  - cbn [inbetween_int]. unfold F2R. field. pose proof (bpow_pos ez). lra.
  - rewrite Hd. lia.
Qed.

Theorem binary_normalize_rounded (m e : Z) (sz : bool) :
  m <> 0%Z ->
  rounded prec emax (m <? 0)%Z (Rabs (F2R m e)) (binary_normalize prec emax m e sz).
Proof.
  intros Hm. destruct m as [|p|p]; [contradiction| |]; cbn [binary_normalize].
  - change (Z.pos p <? 0)%Z with false.
    rewrite Rabs_pos_eq by (pose proof (F2R_pos p e); lra).
    apply binary_round_rounded.
  - change (Z.neg p <? 0)%Z with true.
    replace (Rabs (F2R (Z.neg p) e)) with (F2R (Z.pos p) e).
    + apply binary_round_rounded.
    + change (Z.neg p) with (- Z.pos p)%Z. unfold F2R. rewrite opp_IZR.
      rewrite Ropp_mult_distr_l_reverse, Rabs_Ropp. symmetry. apply Rabs_pos_eq.
      pose proof (F2R_pos p e). unfold F2R in H. lra.
Qed.

Lemma rounded_self (s : bool) (M : positive) (e : Z) :
  bounded prec emax M e = true ->
  rounded prec emax s (F2R (Z.pos M) e) (S754_finite s M e).
Proof.
  intros Hb. destruct (bounded_spec M e Hb) as [HM [[He1 He2] Hc]].
  exists (Z.pos M), e. split; [|split; [lia|split]].
  - split; [exact He1|]. split.
    + rewrite bpow_plus, Rmult_comm. unfold F2R.
      apply Rmult_lt_compat_r; [apply bpow_pos|].
      rewrite <- IZR_pow2 by lia. now apply IZR_lt.
    + destruct (Z.eq_dec e (emin prec emax)) as [-> | Hne]; [now left | right].
      destruct (Zdigits2_spec (Z.pos M) ltac:(lia)) as [[L U] Hd].
      assert (Zdigits2 (Z.pos M) = prec) by (unfold fexp in Hc; lia).
      replace (e + prec - 1)%Z with ((prec - 1) + e)%Z by lia.
      rewrite bpow_plus. unfold F2R. apply Rmult_le_compat_r; [pose proof (bpow_pos e); lra|].
      rewrite <- IZR_pow2 by lia. apply IZR_le. now rewrite <- H.
  - unfold F2R. replace (IZR (Z.pos M) * bpow e / bpow e) with (IZR (Z.pos M))
      by (field; pose proof (bpow_pos e); lra).
    rewrite Rminus_diag, Rabs_R0. lra.
  - auto.
Qed.

Lemma Zdigits2_mul (a b : Z) :
  (0 < a)%Z -> (0 < b)%Z -> (Zdigits2 a + Zdigits2 b - 1 <= Zdigits2 (a * b))%Z.
Proof.
  intros Ha Hb.
  destruct (Zdigits2_spec a Ha) as [[La Ua] Hda].
  destruct (Zdigits2_spec b Hb) as [[Lb Ub] Hdb].
  destruct (Zdigits2_spec (a * b) ltac:(nia)) as [[L U] Hd].
  assert (2 ^ (Zdigits2 a - 1 + (Zdigits2 b - 1)) <= a * b)%Z.
  { rewrite Z.pow_add_r by lia.
    pose proof (two_pow_pos (Zdigits2 a - 1) ltac:(lia)).
    pose proof (two_pow_pos (Zdigits2 b - 1) ltac:(lia)). nia. }
  assert (Zdigits2 a - 1 + (Zdigits2 b - 1) < Zdigits2 (a * b))%Z
    by (apply pow2_lt_inv; lia).
  lia.
Qed.

Theorem SFmul_rounded (sx sy : bool) (mx my : positive) (ex ey : Z) :
  bounded prec emax mx ex = true -> bounded prec emax my ey = true ->
  rounded prec emax (xorb sx sy) (F2R (Z.pos mx) ex * F2R (Z.pos my) ey)
    (SFmul prec emax (S754_finite sx mx ex) (S754_finite sy my ey)).
Proof.
  intros Hx Hy. cbn [SFmul].
  destruct (bounded_spec mx ex Hx) as [HMx [[Hex1 Hex2] Hcx]].
  destruct (bounded_spec my ey Hy) as [HMy [[Hey1 Hey2] Hcy]].
  rewrite <- F2R_mult. change (Z.pos mx * Z.pos my)%Z with (Z.pos (mx * my)).
  apply binary_round_aux_rounded.
  - lia.
  - cbn [inbetween_int]. unfold F2R. field. pose proof (bpow_pos (ex + ey)). lra.
  - pose proof (Zdigits2_mul (Z.pos mx) (Z.pos my) ltac:(lia) ltac:(lia)) as Hd.
    change (Z.pos mx * Z.pos my)%Z with (Z.pos (mx * my)) in Hd.
    destruct (Zdigits2_spec (Z.pos mx) ltac:(lia)) as [_ Hdx].
    destruct (Zdigits2_spec (Z.pos my) ltac:(lia)) as [_ Hdy].
    unfold fexp, emin in *. lia.
Qed.

(** The sum and the difference of two finite floats round the exact sum
    and the exact difference. *)
Lemma SFadd_finite (sx sy : bool) (mx my : positive) (ex ey : Z) :
  exists z ez : Z,
    F2R z ez = SF2R (S754_finite sx mx ex) + SF2R (S754_finite sy my ey) /\
    SFadd prec emax (S754_finite sx mx ex) (S754_finite sy my ey)
    = binary_normalize prec emax z ez false.
Proof.
  cbn [SFadd]. eexists _, _. split; [|reflexivity].
  destruct (shl_align_spec mx ex (Z.min ex ey)) as [E1 M1].
  destruct (shl_align_spec my ey (Z.min ex ey)) as [E2 M2].
  rewrite F2R_plus, !F2R_cond_Zopp, M1, M2, E1, E2.
  replace (Z.min ex (Z.min ex ey)) with (Z.min ex ey) by lia.
  replace (Z.min ey (Z.min ex ey)) with (Z.min ex ey) by lia.
  rewrite !F2R_shl by lia. rewrite !SF2R_finite_sign. reflexivity.
Qed.

Lemma SFsub_finite (sx sy : bool) (mx my : positive) (ex ey : Z) :
  exists z ez : Z,
    F2R z ez = SF2R (S754_finite sx mx ex) - SF2R (S754_finite sy my ey) /\
    SFsub prec emax (S754_finite sx mx ex) (S754_finite sy my ey)
    = binary_normalize prec emax z ez false.
Proof.
  cbn [SFsub]. eexists _, _. split; [|reflexivity].
  destruct (shl_align_spec mx ex (Z.min ex ey)) as [E1 M1].
  destruct (shl_align_spec my ey (Z.min ex ey)) as [E2 M2].
  unfold Z.sub at 1. rewrite F2R_plus.
  replace (- cond_Zopp sy (Z.pos (fst (shl_align my ey (Z.min ex ey)))))%Z
    with (cond_Zopp (negb sy) (Z.pos (fst (shl_align my ey (Z.min ex ey)))))
    by (destruct sy; cbn; lia).
  rewrite !F2R_cond_Zopp, M1, M2, E1, E2.
  replace (Z.min ex (Z.min ex ey)) with (Z.min ex ey) by lia.
  replace (Z.min ey (Z.min ex ey)) with (Z.min ex ey) by lia.
  rewrite !F2R_shl by lia. rewrite !SF2R_finite_sign.
  destruct sx, sy; cbn [negb]; ring.
Qed.


(** *** Division and square root *)

Lemma ratio_half (r n : Z) :
  (0 < n)%Z ->
  ((2 * r < n)%Z -> IZR r / IZR n < / 2) /\
  ((2 * r = n)%Z -> IZR r / IZR n = / 2) /\
  ((n < 2 * r)%Z -> / 2 < IZR r / IZR n).
Proof.
  intros Hn. assert (Hp : 0 < IZR n) by (apply IZR_lt; lia).
  split; [|split]; intros H.
  - apply IZR_lt in H. rewrite mult_IZR in H.
    apply Rmult_lt_reg_r with (IZR n); [exact Hp|].
    replace (IZR r / IZR n * IZR n) with (IZR r) by (field; lra). lra.
  - apply (f_equal IZR) in H. rewrite mult_IZR in H.
    apply Rmult_eq_reg_r with (IZR n); [|lra].
    replace (IZR r / IZR n * IZR n) with (IZR r) by (field; lra). lra.
  - apply IZR_lt in H. rewrite mult_IZR in H.
    apply Rmult_lt_reg_r with (IZR n); [exact Hp|].
    replace (IZR r / IZR n * IZR n) with (IZR r) by (field; lra). lra.
Qed.

Lemma new_location_spec (n r q : Z) :
  (0 < n)%Z -> (0 <= r < n)%Z ->
  inbetween_int q (new_location n r) (IZR q + IZR r / IZR n).
Proof.
  intros Hn Hr. destruct (ratio_half r n Hn) as [Hlt [Heq Hgt]].
  assert (Hp : 0 < IZR n) by (apply IZR_lt; lia).
  assert (Hr1 : IZR r / IZR n < 1).
  { apply Rmult_lt_reg_r with (IZR n); [exact Hp|].
    replace (IZR r / IZR n * IZR n) with (IZR r) by (field; lra).
    rewrite Rmult_1_l. apply IZR_lt. lia. }
  assert (Hr0 : (0 < r)%Z -> 0 < IZR r / IZR n).
  { intros H. apply Rdiv_lt_0_compat; [apply IZR_lt; lia | exact Hp]. }
  unfold new_location.
  destruct (Z.even n) eqn:Ev; unfold new_location_even, new_location_odd;
    (destruct (Z.eqb_spec r 0) as [Hz | Hnz];
     [subst r; cbn [inbetween_int]; unfold Rdiv; rewrite Rmult_0_l; ring|]);
    specialize (Hr0 ltac:(lia)).
  - destruct (Z.compare_spec (2 * r) n) as [C | C | C]; cbn [inbetween_int].
    + rewrite (Heq C). reflexivity.
    + specialize (Hlt C). lra.
    + specialize (Hgt C). lra.
  - assert (Hodd : (2 * r <> n)%Z).
    { intros E. rewrite <- E, Z.even_mul in Ev. discriminate. }
    destruct (Z.compare_spec (2 * r + 1) n) as [C | C | C]; cbn [inbetween_int].
    + specialize (Hlt ltac:(lia)). lra.
    + specialize (Hlt ltac:(lia)). lra.
    + specialize (Hgt ltac:(lia)). lra.
Qed.

Lemma Zdigits2_ge (q j : Z) : (0 <= j)%Z -> (2 ^ j <= q)%Z -> (j + 1 <= Zdigits2 q)%Z.
Proof.
  intros Hj Hq.
  assert (Hq0 : (0 < q)%Z) by (pose proof (two_pow_pos j Hj); lia).
  destruct (Zdigits2_spec q Hq0) as [[L U] Hd].
  assert (j < Zdigits2 q)%Z by (apply pow2_lt_inv; lia). lia.
Qed.

Lemma SFdiv_core_binary_spec (m1 m2 : positive) (e1 e2 : Z) :
  let r := SFdiv_core_binary prec emax (Z.pos m1) e1 (Z.pos m2) e2 in
  let q := fst (fst r) in
  let e' := snd (fst r) in
  (0 <= q)%Z /\
  inbetween_int q (snd r) (F2R (Z.pos m1) e1 / F2R (Z.pos m2) e2 / bpow e') /\
  (e' <= fexp prec emax (Zdigits2 q + e'))%Z.
Proof.
  unfold SFdiv_core_binary.
  set (d1 := Zdigits2 (Z.pos m1)). set (d2 := Zdigits2 (Z.pos m2)).
  set (e' := Z.min (fexp prec emax (d1 + e1 - (d2 + e2))) (e1 - e2)).
  set (s := (e1 - e2 - e')%Z).
  assert (Hs : (0 <= s)%Z) by (unfold s, e'; lia).
  set (m' := match s with
             | 0%Z => Z.pos m1
             | Z.pos _ => Z.shiftl (Z.pos m1) s
             | Z.neg _ => 0%Z
             end).
  assert (Hm' : m' = (Z.pos m1 * 2 ^ s)%Z).
  { unfold m'. destruct s as [|p|p] eqn:Es; [rewrite Z.pow_0_r; lia | | lia].
    apply Z.shiftl_mul_pow2. lia. }
  pose proof (Z_div_mod m' (Z.pos m2) ltac:(lia)) as Hdiv.
  destruct (Z.div_eucl m' (Z.pos m2)) as [q r]. destruct Hdiv as [Hqr Hr].
  cbv zeta. cbn [fst snd].
  pose proof (two_pow_pos s Hs) as Hps.
  assert (Hq0 : (0 <= q)%Z) by nia.
  split; [exact Hq0|]. split.
  - replace (F2R (Z.pos m1) e1 / F2R (Z.pos m2) e2 / bpow e')
      with (IZR q + IZR r / IZR (Z.pos m2)).
    + apply new_location_spec; lia.
    + assert (H2 : 0 < IZR (Z.pos m2)) by (apply IZR_lt; lia).
      unfold F2R. replace e1 with (s + e2 + e')%Z by (unfold s; lia).
      rewrite !bpow_plus. rewrite <- (IZR_pow2 s Hs).
      pose proof (bpow_pos e2). pose proof (bpow_pos e').
      apply (f_equal IZR) in Hqr. rewrite Hm', plus_IZR, !mult_IZR in Hqr.
      field_simplify_eq; [|lra]. rewrite Hqr. ring.
  - apply Z.le_trans with (fexp prec emax (d1 + e1 - (d2 + e2))); [unfold e'; lia|].
    apply fexp_mono.
    destruct (Z_le_gt_dec (d1 + s - d2) 0) as [Hle | Hgt].
    + pose proof (Zdigits2_nonneg q). unfold s in *. lia.
    + assert (Hq : (d1 + s - d2 <= Zdigits2 q)%Z).
      { destruct (Zdigits2_spec (Z.pos m1) ltac:(lia)) as [[L1 U1] Hd1].
        destruct (Zdigits2_spec (Z.pos m2) ltac:(lia)) as [[L2 U2] Hd2].
        fold d1 in L1, U1, Hd1. fold d2 in L2, U2, Hd2.
        replace (d1 + s - d2)%Z with ((d1 + s - d2 - 1) + 1)%Z by lia.
        apply Zdigits2_ge; [lia|].
        assert (H1 : (2 ^ (d1 - 1 + s) <= m')%Z).
        { rewrite Hm', Z.pow_add_r by lia. nia. }
        assert (H2 : (m' < (q + 1) * 2 ^ d2)%Z) by nia.
        assert (H3 : (2 ^ (d1 + s - d2 - 1) * 2 ^ d2 = 2 ^ (d1 - 1 + s))%Z).
        { rewrite <- Z.pow_add_r by lia. f_equal. lia. }
        pose proof (two_pow_pos d2 ltac:(lia)).
        pose proof (two_pow_pos (d1 + s - d2 - 1) ltac:(lia)). nia. }
      unfold s in *. lia.
Qed.

Theorem SFdiv_rounded (sx sy : bool) (mx my : positive) (ex ey : Z) :
  rounded prec emax (xorb sx sy) (F2R (Z.pos mx) ex / F2R (Z.pos my) ey)
    (SFdiv prec emax (S754_finite sx mx ex) (S754_finite sy my ey)).
Proof.
  cbn [SFdiv].
  pose proof (SFdiv_core_binary_spec mx my ex ey) as H. cbv zeta in H.
  destruct (SFdiv_core_binary prec emax (Z.pos mx) ex (Z.pos my) ey) as [[q e'] l].
  cbn [fst snd] in H. destruct H as [Hq [Hl He]].
  now apply binary_round_aux_rounded.
Qed.

Lemma SFsqrt_core_binary_spec (m : positive) (e : Z) :
  let r := SFsqrt_core_binary prec emax (Z.pos m) e in
  let q := fst (fst r) in
  let e' := snd (fst r) in
  (0 <= q)%Z /\
  inbetween_int q (snd r) (sqrt (F2R (Z.pos m) e) / bpow e') /\
  (e' <= fexp prec emax (Zdigits2 q + e'))%Z.
Proof.
  unfold SFsqrt_core_binary.
  set (d := Zdigits2 (Z.pos m)).
  set (e' := Z.min (fexp prec emax (Z.div2 (d + e + 1))) (Z.div2 e)).
  set (s := (e - 2 * e')%Z).
  assert (Hs : (0 <= s)%Z) by (unfold s, e'; rewrite !Z.div2_div; lia).
  set (m' := match s with
             | 0%Z => Z.pos m
             | Z.pos _ => Z.shiftl (Z.pos m) s
             | Z.neg _ => 0%Z
             end).
  assert (Hm' : m' = (Z.pos m * 2 ^ s)%Z).
  { unfold m'. destruct s as [|p|p] eqn:Es; [rewrite Z.pow_0_r; lia | | lia].
    apply Z.shiftl_mul_pow2. lia. }
  pose proof (two_pow_pos s Hs) as Hps.
  pose proof (Z.sqrtrem_spec m' ltac:(nia)) as Hsq.
  destruct (Z.sqrtrem m') as [q r]. destruct Hsq as [Hqr Hr].
  cbv zeta. cbn [fst snd].
  assert (Hq0 : (0 <= q)%Z) by lia.
  split; [exact Hq0|].
  pose proof (bpow_pos e') as Hpe.
  assert (Hval : sqrt (F2R (Z.pos m) e) / bpow e' = sqrt (IZR m')).
  { assert (E1 : F2R (Z.pos m) e = IZR m' * (bpow e' * bpow e')).
    { unfold F2R. rewrite Hm', mult_IZR, IZR_pow2 by exact Hs.
      rewrite <- bpow_plus, Rmult_assoc, <- bpow_plus. do 2 f_equal. unfold s. lia. }
    rewrite E1, sqrt_mult_alt by (apply IZR_le; nia).
    rewrite sqrt_square by lra. field. lra. }
  rewrite Hval.
  set (t := sqrt (IZR m')).
  assert (Ht0 : 0 <= t) by apply sqrt_pos.
  assert (Htt : t * t = IZR q * IZR q + IZR r).
  { unfold t. rewrite sqrt_sqrt by (apply IZR_le; nia).
    rewrite Hqr, plus_IZR, mult_IZR. reflexivity. }
  assert (HQ : 0 <= IZR q) by (apply IZR_le; lia).
  split.
  - destruct (Z.eqb_spec r 0) as [Hz | Hnz].
    + cbn [inbetween_int]. rewrite Hz in Htt. nra.
    + assert (HR : 1 <= IZR r) by (apply IZR_le; lia).
      destruct (Z.leb_spec r q) as [Hle | Hgt]; cbn [inbetween_int].
      * apply IZR_le in Hle. split; nra.
      * assert (HR2 : IZR q + 1 <= IZR r) by (rewrite <- plus_IZR; apply IZR_le; lia).
        assert (HR3 : IZR r <= 2 * IZR q) by (rewrite <- mult_IZR; apply IZR_le; lia).
        split; nra.
  - apply Z.le_trans with (fexp prec emax (Z.div2 (d + e + 1))); [unfold e'; lia|].
    apply fexp_mono.
    assert (Hj : (Z.div2 (d + e + 1) = Z.div2 (d + s + 1) + e')%Z).
    { rewrite !Z.div2_div. unfold s. lia. }
    rewrite Hj.
    destruct (Z_le_gt_dec (Z.div2 (d + s + 1)) 0) as [Hle | Hgt].
    + pose proof (Zdigits2_nonneg q). lia.
    + set (j := Z.div2 (d + s + 1)) in *.
      assert (Hq : (j <= Zdigits2 q)%Z).
      { replace j with ((j - 1) + 1)%Z by lia. apply Zdigits2_ge; [lia|].
        destruct (Zdigits2_spec (Z.pos m) ltac:(lia)) as [[L U] Hd].
        fold d in L, U, Hd.
        assert (H1 : (2 ^ (d - 1 + s) <= m')%Z).
        { rewrite Hm', Z.pow_add_r by lia. nia. }
        assert (H2 : (2 ^ (j - 1) * 2 ^ (j - 1) <= 2 ^ (d - 1 + s))%Z).
        { rewrite <- Z.pow_add_r by lia. apply Z.pow_le_mono_r; [lia|].
          unfold j. rewrite Z.div2_div. lia. }
        pose proof (two_pow_pos (j - 1) ltac:(lia)). nia. }
      lia.
Qed.

Theorem SFsqrt_rounded (m : positive) (e : Z) :
  rounded prec emax false (sqrt (F2R (Z.pos m) e))
    (SFsqrt prec emax (S754_finite false m e)).
Proof.
  cbn [SFsqrt].
  pose proof (SFsqrt_core_binary_spec m e) as H. cbv zeta in H.
  destruct (SFsqrt_core_binary prec emax (Z.pos m) e) as [[q e'] l].
  cbn [fst snd] in H. destruct H as [Hq [Hl He]].
  now apply binary_round_aux_rounded.
Qed.

(** *** Order and uniqueness *)

Lemma rounded_value (s : bool) (x : R) (r : spec_float) :
  rounded prec emax s x r -> is_finite r = true ->
  exists K E : Z,
    grid prec emax E x /\ (0 <= K)%Z /\ Rabs (IZR K - x / bpow E) <= / 2 /\
    Rabs (SF2R r) = F2R K E.
Proof.
  intros [K [E [HG [HK0 [HK Hr]]]]] Hfin. exists K, E.
  split; [exact HG|]. split; [exact HK0|]. split; [exact HK|].
  destruct r as [s' | s' | | s' M e']; try discriminate.
  - destruct Hr as [_ ->]. cbn [SF2R]. rewrite Rabs_R0. unfold F2R. ring.
  - destruct Hr as [_ [Hv _]]. now rewrite SF2R_finite_abs.
Qed.

Lemma rounded_between (s : bool) (x a b : R) (r : spec_float) :
  rounded prec emax s x r -> a <= x <= b -> 0 < a ->
  in_format prec emax a -> in_format prec emax b -> b < bpow emax ->
  exists M e, r = S754_finite s M e /\ bounded prec emax M e = true /\
              a <= F2R (Z.pos M) e <= b.
Proof.
  intros Hr [Hax Hxb] Ha Fa Fb Hb.
  destruct (rounded_le s x b r Hr Hxb Fb Hb) as [Hfin Hle].
  pose proof (rounded_ge s x a r Hr Hax Fa Hfin) as Hge.
  destruct Hr as [K [E [_ [_ [_ Hr]]]]].
  destruct r as [s' | s' | | s' M e']; try discriminate.
  - cbn [SF2R] in Hge. rewrite Rabs_R0 in Hge. lra.
  - destruct Hr as [-> [_ Hbd]]. rewrite SF2R_finite_abs in Hle, Hge.
    exists M, e'. auto.
Qed.

Lemma finite_value_lt (r : spec_float) :
  valid_binary prec emax r = true -> Rabs (SF2R r) < bpow emax.
Proof.
  intros Hv. destruct r as [s | s | | s M e];
    [cbn [SF2R]; rewrite Rabs_R0; apply bpow_pos ..|].
  rewrite SF2R_finite_abs. now apply bounded_in_format.
Qed.

Lemma grid_le (E E' : Z) (x y : R) :
  grid prec emax E x -> grid prec emax E' y -> x <= y -> (E <= E')%Z.
Proof.
  intros [HE [Hup Hlow]] [HE' [Hup' Hlow']] Hxy.
  destruct Hlow as [-> | Hlow]; [exact HE'|].
  assert (bpow (E + prec - 1) < bpow (E' + prec)) by lra.
  apply bpow_lt_inv in H. lia.
Qed.

Lemma rounded_multiple_mono (K E K' E' : Z) (x y : R) :
  grid prec emax E x -> Rabs (IZR K - x / bpow E) <= / 2 ->
  grid prec emax E' y -> Rabs (IZR K' - y / bpow E') <= / 2 ->
  x < y -> F2R K E <= F2R K' E'.
Proof.
  intros HG HK HG' HK' Hxy.
  pose proof (grid_le E E' x y HG HG' (Rlt_le _ _ Hxy)) as HEE.
  destruct HG as [HE [Hup Hlow]]. destruct HG' as [HE' [Hup' Hlow']].
  pose proof (bpow_pos E) as HpE. pose proof (bpow_pos E') as HpE'.
  destruct (Z.eq_dec E E') as [<- | Hne].
  - unfold F2R. apply Rmult_le_compat_r; [lra|].
    apply Rabs_le_inv in HK. apply Rabs_le_inv in HK'.
    assert (Hlt : x / bpow E < y / bpow E).
    { unfold Rdiv. apply Rmult_lt_compat_r; [apply Rinv_0_lt_compat; lra | exact Hxy]. }
    assert (IZR K < IZR (K' + 1)) by (rewrite plus_IZR; lra).
    apply lt_IZR in H. apply IZR_le. lia.
  - apply Rle_trans with (bpow (E + prec)).
    + rewrite Z.add_comm, bpow_plus. unfold F2R. apply Rmult_le_compat_r; [lra|].
      rewrite <- IZR_pow2 by lia. apply IZR_le. apply nearest_le with (1 := HK).
      rewrite IZR_pow2 by lia. apply scaled_le. rewrite <- bpow_plus, Z.add_comm. lra.
    + apply Rle_trans with (bpow (E' + prec - 1)); [apply bpow_le; lia|].
      destruct Hlow' as [-> | Hlow']; [lia|].
      replace (E' + prec - 1)%Z with ((prec - 1) + E')%Z by lia.
      rewrite bpow_plus. unfold F2R. apply Rmult_le_compat_r; [lra|].
      rewrite <- IZR_pow2 by lia. apply IZR_le. apply nearest_ge with (1 := HK').
      rewrite IZR_pow2 by lia. apply scaled_ge. rewrite <- bpow_plus.
      replace (prec - 1 + E')%Z with (E' + prec - 1)%Z by lia. exact Hlow'.
Qed.

(** Rounding is monotone. *)
Lemma rounded_mono (s s' : bool) (x y : R) (r r' : spec_float) :
  rounded prec emax s x r -> rounded prec emax s' y r' -> x < y ->
  is_finite r' = true ->
  is_finite r = true /\ Rabs (SF2R r) <= Rabs (SF2R r').
Proof.
  intros Hr Hr' Hxy Hfin'.
  pose proof (finite_value_lt r' (rounded_valid s' y r' Hr')) as Hlt'.
  destruct (rounded_value s' y r' Hr' Hfin') as [K' [E' [HG' [_ [HK' Hv']]]]].
  destruct Hr as [K [E [HG [HK0 [HK Hr]]]]].
  pose proof (rounded_multiple_mono K E K' E' x y HG HK HG' HK' Hxy) as Hm.
  rewrite Hv'. rewrite Hv' in Hlt'.
  destruct r as [s0 | s0 | | s0 M e0].
  - split; [reflexivity|]. cbn [SF2R]. rewrite Rabs_R0.
    rewrite <- Hv'. apply Rabs_pos.
  - destruct Hr as [_ Hr]. lra.
  - contradiction.
  - destruct Hr as [_ [Hv _]]. split; [reflexivity|].
    now rewrite SF2R_finite_abs, Hv.
Qed.

(** A number has one float. *)
Lemma bounded_unique (M M' : positive) (e e' : Z) :
  bounded prec emax M e = true -> bounded prec emax M' e' = true ->
  F2R (Z.pos M) e = F2R (Z.pos M') e' -> M = M' /\ e = e'.
Proof.
  assert (G : forall M M' e e',
             bounded prec emax M e = true -> bounded prec emax M' e' = true ->
             F2R (Z.pos M) e = F2R (Z.pos M') e' -> (e <= e')%Z).
  { clear. intros M M' e e' Hb Hb' Hv.
    destruct (bounded_spec M e Hb) as [HM [[He1 He2] Hc]].
    destruct (bounded_spec M' e' Hb') as [HM' [[He1' He2'] Hc']].
    destruct (Zdigits2_spec (Z.pos M) ltac:(lia)) as [[L U] Hd].
    destruct (Zdigits2_spec (Z.pos M') ltac:(lia)) as [[L' U'] Hd'].
    rewrite Hc, Hc'. apply fexp_mono.
    (* the magnitudes agree *)
    assert (H1 : bpow (Zdigits2 (Z.pos M) - 1 + e) <= F2R (Z.pos M) e).
    { rewrite bpow_plus. unfold F2R. apply Rmult_le_compat_r; [pose proof (bpow_pos e); lra|].
      rewrite <- IZR_pow2 by lia. now apply IZR_le. }
    assert (H2 : F2R (Z.pos M') e' < bpow (Zdigits2 (Z.pos M') + e')).
    { rewrite bpow_plus. unfold F2R. apply Rmult_lt_compat_r; [apply bpow_pos|].
      rewrite <- IZR_pow2 by lia. now apply IZR_lt. }
    assert (H3 : bpow (Zdigits2 (Z.pos M) - 1 + e) < bpow (Zdigits2 (Z.pos M') + e')) by lra.
    apply bpow_lt_inv in H3. lia. }
  intros Hb Hb' Hv.
  assert (He : e = e').
  { apply Z.le_antisymm; [now apply (G M M') | apply (G M' M); auto]. }
  split; [|exact He]. subst e'.
  unfold F2R in Hv. apply Rmult_eq_reg_r in Hv; [|pose proof (bpow_pos e); lra].
  apply eq_IZR in Hv. congruence.
Qed.

(** The sign given to [binary_round] only signs the result. *)
Lemma binary_round_aux_opp (s : bool) (m e : Z) (l : location) :
  binary_round_aux prec emax (negb s) m e l = SFopp (binary_round_aux prec emax s m e l)
  \/ binary_round_aux prec emax s m e l = S754_nan.
Proof.
  unfold binary_round_aux.
  destruct (shr_fexp prec emax m e l) as [mrs1 e1].
  destruct (shr_fexp prec emax _ e1 loc_Exact) as [mrs2 e2].
  destruct (shr_m mrs2) as [|p|p].
  - now left.
  - destruct (e2 <=? emax - prec)%Z; now left.
  - now right.
Qed.

Lemma binary_round_abs (s : bool) (mx : positive) (e : Z) :
  Rabs (SF2R (binary_round prec emax s mx e))
  = Rabs (SF2R (binary_round prec emax false mx e)) /\
  is_finite (binary_round prec emax s mx e)
  = is_finite (binary_round prec emax false mx e).
Proof.
  destruct s; [|auto]. unfold binary_round.
  destruct (shl_align mx e _) as [mz ez].
  destruct (binary_round_aux_opp false (Z.pos mz) ez loc_Exact) as [E | E].
  - cbn [negb] in E. rewrite E.
    destruct (binary_round_aux prec emax false (Z.pos mz) ez loc_Exact) as [s0|s0| |s0 M0 e0];
      cbn [SFopp]; try (split; reflexivity).
    split; [|reflexivity]. now rewrite !SF2R_finite_abs.
  - exfalso.
    unfold binary_round_aux in E.
    destruct (shr_fexp_spec (Z.pos mz) ez loc_Exact (IZR (Z.pos mz)) ltac:(lia) eq_refl)
      as [_ [_ [P1 I1]]].
    destruct (shr_fexp prec emax (Z.pos mz) ez loc_Exact) as [mrs1 e1].
    cbn [fst snd] in P1, I1.
    destruct (round_nearest_even_spec _ _ _ I1) as [HK _].
    set (K := round_nearest_even (shr_m mrs1) (loc_of_shr_record mrs1)) in *.
    destruct (shr_fexp_spec K e1 loc_Exact (IZR K) ltac:(lia) eq_refl) as [_ [_ [P2 _]]].
    destruct (shr_fexp prec emax K e1 loc_Exact) as [mrs2 e2]. cbn [fst snd] in P2.
    destruct (shr_m mrs2) as [|p|p]; [discriminate | | lia].
    destruct (e2 <=? emax - prec)%Z; discriminate.
Qed.

(** *** The operations on finite floats *)

Lemma F2R_sign (z e : Z) :
  (0 < F2R z e -> (0 < z)%Z) /\ (F2R z e < 0 -> (z < 0)%Z) /\ (F2R z e = 0 -> z = 0%Z).
Proof.
  pose proof (bpow_pos e) as Hp. unfold F2R.
  destruct (Z.compare_spec z 0) as [-> | Hz | Hz].
  - rewrite Rmult_0_l. repeat split; intros; try lra; reflexivity.
  - assert (IZR z * bpow e < 0).
    { apply IZR_lt in Hz. nra. }
    repeat split; intros; try lra; lia.
  - assert (0 < IZR z * bpow e).
    { apply IZR_lt in Hz. nra. }
    repeat split; intros; try lra; lia.
Qed.

Lemma rounds_to_self (x : spec_float) :
  valid_binary prec emax x = true -> is_finite x = true ->
  rounds_to prec emax (SF2R x) x.
Proof.
  intros Vx Fx. destruct x as [s | s | | s m e]; try discriminate.
  - left. split; [reflexivity | eauto].
  - right. rewrite SF2R_finite_sign. pose proof (F2R_pos m e) as Hp.
    destruct s; [right | left]; (split; [lra|]).
    + rewrite Ropp_involutive. now apply rounded_self.
    + now apply rounded_self.
Qed.

Theorem binary_normalize_rounds (z e : Z) (sz : bool) :
  rounds_to prec emax (F2R z e) (binary_normalize prec emax z e sz).
Proof.
  destruct (Z.eq_dec z 0) as [-> | Hz].
  - left. split; [unfold F2R; ring | cbn; eauto].
  - pose proof (binary_normalize_rounded z e sz Hz) as Hr.
    destruct (F2R_sign z e) as [Hp [Hn H0]].
    destruct (Rtotal_order (F2R z e) 0) as [Hlt | [Heq | Hgt]].
    + right; right. split; [exact Hlt|]. specialize (Hn Hlt).
      replace (z <? 0)%Z with true in Hr by (symmetry; apply Z.ltb_lt; lia).
      rewrite Rabs_left in Hr by exact Hlt. exact Hr.
    + specialize (H0 Heq). contradiction.
    + right; left. split; [exact Hgt|]. specialize (Hp Hgt).
      replace (z <? 0)%Z with false in Hr by (symmetry; apply Z.ltb_ge; lia).
      rewrite Rabs_pos_eq in Hr by lra. exact Hr.
Qed.

Theorem SFadd_rounds (x y : spec_float) :
  valid_binary prec emax x = true -> valid_binary prec emax y = true ->
  is_finite x = true -> is_finite y = true ->
  rounds_to prec emax (SF2R x + SF2R y) (SFadd prec emax x y).
Proof.
  intros Vx Vy Fx Fy.
  destruct x as [sx | sx | | sx mx ex]; try discriminate;
    destruct y as [sy | sy | | sy my ey]; try discriminate.
  - left. split; [cbn [SF2R]; ring|]. destruct sx, sy; cbn; eauto.
  - cbn [SFadd]. change (SF2R (S754_zero sx)) with 0. rewrite Rplus_0_l.
    now apply rounds_to_self.
  - cbn [SFadd]. change (SF2R (S754_zero sy)) with 0. rewrite Rplus_0_r.
    now apply rounds_to_self.
  - destruct (SFadd_finite sx sy mx my ex ey) as [z [ez [Hz ->]]]. rewrite <- Hz.
    apply binary_normalize_rounds.
Qed.

Theorem SFsub_rounds (x y : spec_float) :
  valid_binary prec emax x = true -> valid_binary prec emax y = true ->
  is_finite x = true -> is_finite y = true ->
  rounds_to prec emax (SF2R x - SF2R y) (SFsub prec emax x y).
Proof.
  intros Vx Vy Fx Fy.
  destruct x as [sx | sx | | sx mx ex]; try discriminate;
    destruct y as [sy | sy | | sy my ey]; try discriminate.
  - left. split; [cbn [SF2R]; ring|]. destruct sx, sy; cbn; eauto.
  - cbn [SFsub]. change (SF2R (S754_zero sx)) with 0.
    replace (0 - SF2R (S754_finite sy my ey)) with (SF2R (S754_finite (negb sy) my ey)).
    + now apply rounds_to_self.
    + rewrite !SF2R_finite_sign. destruct sy; cbn [negb]; ring.
  - cbn [SFsub]. change (SF2R (S754_zero sy)) with 0. rewrite Rminus_0_r.
    now apply rounds_to_self.
  - destruct (SFsub_finite sx sy mx my ex ey) as [z [ez [Hz ->]]]. rewrite <- Hz.
    apply binary_normalize_rounds.
Qed.

Theorem SFmul_rounds (x y : spec_float) :
  valid_binary prec emax x = true -> valid_binary prec emax y = true ->
  is_finite x = true -> is_finite y = true ->
  rounds_to prec emax (SF2R x * SF2R y) (SFmul prec emax x y).
Proof.
  intros Vx Vy Fx Fy.
  destruct x as [sx | sx | | sx mx ex]; try discriminate;
    destruct y as [sy | sy | | sy my ey]; try discriminate;
    try (left; split; [cbn [SF2R]; ring | cbn [SFmul]; eauto]).
  pose proof (SFmul_rounded sx sy mx my ex ey Vx Vy) as Hr.
  pose proof (F2R_pos mx ex) as Hpx. pose proof (F2R_pos my ey) as Hpy.
  pose proof (Rmult_lt_0_compat _ _ Hpx Hpy) as Hp.
  right. rewrite !SF2R_finite_sign.
  destruct sx, sy; cbn [xorb] in Hr.
  - left. split; [nra|]. replace (- F2R (Z.pos mx) ex * - F2R (Z.pos my) ey)
      with (F2R (Z.pos mx) ex * F2R (Z.pos my) ey) by ring. exact Hr.
  - right. split; [nra|]. replace (- (- F2R (Z.pos mx) ex * F2R (Z.pos my) ey))
      with (F2R (Z.pos mx) ex * F2R (Z.pos my) ey) by ring. exact Hr.
  - right. split; [nra|]. replace (- (F2R (Z.pos mx) ex * - F2R (Z.pos my) ey))
      with (F2R (Z.pos mx) ex * F2R (Z.pos my) ey) by ring. exact Hr.
  - left. split; [nra | exact Hr].
Qed.

Theorem SFdiv_rounds (x : spec_float) (sy : bool) (my : positive) (ey : Z) :
  is_finite x = true ->
  rounds_to prec emax (SF2R x / SF2R (S754_finite sy my ey))
    (SFdiv prec emax x (S754_finite sy my ey)).
Proof.
  intros Fx. destruct x as [sx | sx | | sx mx ex]; try discriminate.
  - left. split; [cbn [SF2R]; unfold Rdiv; ring | cbn [SFdiv]; eauto].
  - pose proof (SFdiv_rounded sx sy mx my ex ey) as Hr.
    pose proof (F2R_pos mx ex) as Hpx. pose proof (F2R_pos my ey) as Hpy.
    assert (Hp : 0 < F2R (Z.pos mx) ex / F2R (Z.pos my) ey)
      by now apply Rdiv_lt_0_compat.
    right. rewrite !SF2R_finite_sign.
    destruct sx, sy; cbn [xorb] in Hr.
    + left. replace (- F2R (Z.pos mx) ex / - F2R (Z.pos my) ey)
        with (F2R (Z.pos mx) ex / F2R (Z.pos my) ey) by (field; lra). auto.
    + right. replace (- F2R (Z.pos mx) ex / F2R (Z.pos my) ey)
        with (- (F2R (Z.pos mx) ex / F2R (Z.pos my) ey)) by (field; lra).
      rewrite Ropp_involutive. split; [lra | exact Hr].
    + right. replace (F2R (Z.pos mx) ex / - F2R (Z.pos my) ey)
        with (- (F2R (Z.pos mx) ex / F2R (Z.pos my) ey)) by (field; lra).
      rewrite Ropp_involutive. split; [lra | exact Hr].
    + left. auto.
Qed.

Theorem SFsqrt_rounds (m : positive) (e : Z) :
  rounds_to prec emax (sqrt (SF2R (S754_finite false m e)))
    (SFsqrt prec emax (S754_finite false m e)).
Proof.
  right; left. rewrite SF2R_finite_sign. split.
  - apply sqrt_lt_R0. apply F2R_pos.
  - apply SFsqrt_rounded.
Qed.

(** *** What a rounded number is known to be *)

Lemma in_format_opp (b : R) : in_format prec emax b -> in_format prec emax (- b).
Proof.
  intros [M [e [-> [HM He]]]]. exists (- M)%Z, e.
  split; [unfold F2R; rewrite opp_IZR; ring|]. split; [lia | exact He].
Qed.

Lemma in_format_0 : in_format prec emax 0.
Proof.
  exists 0%Z, (emin prec emax). split; [unfold F2R; ring|].
  split; [cbn; apply two_pow_pos; lia | lia].
Qed.

Lemma rounds_to_valid (v : R) (r : spec_float) :
  rounds_to prec emax v r -> valid_binary prec emax r = true.
Proof.
  intros [[_ [s ->]] | [[_ Hr] | [_ Hr]]]; [reflexivity | |];
    now apply rounded_valid in Hr.
Qed.

(** A rounded number stays on its side of every number of the format. *)
Lemma rounds_to_bounds (v a b : R) (r : spec_float) :
  rounds_to prec emax v r -> a <= v <= b ->
  in_format prec emax a -> in_format prec emax b ->
  Rabs a < bpow emax -> Rabs b < bpow emax ->
  is_finite r = true /\ a <= SF2R r <= b.
Proof.
  intros Hr [Hav Hvb] Fa Fb Ha Hb.
  apply Rabs_def2 in Ha. apply Rabs_def2 in Hb.
  destruct Hr as [[Hv [s ->]] | [[Hv Hr] | [Hv Hr]]].
  - split; [reflexivity|]. cbn [SF2R]. lra.
  - destruct (rounded_le false v b r Hr Hvb Fb ltac:(lra)) as [Hfin Hle].
    split; [exact Hfin|]. rewrite (rounded_sign false v r Hr). split; [|exact Hle].
    destruct (Rle_lt_dec a 0) as [Ha0 | Ha0].
    + pose proof (Rabs_pos (SF2R r)). lra.
    + now apply (rounded_ge false v a r Hr).
  - destruct (rounded_le true (- v) (- a) r Hr ltac:(lra) (in_format_opp a Fa) ltac:(lra))
      as [Hfin Hle].
    split; [exact Hfin|]. rewrite (rounded_sign true (- v) r Hr). split; [lra|].
    destruct (Rle_lt_dec 0 b) as [Hb0 | Hb0].
    + pose proof (Rabs_pos (SF2R r)). lra.
    + pose proof (rounded_ge true (- v) (- b) r Hr ltac:(lra) (in_format_opp b Fb) Hfin).
      lra.
Qed.

(** The error of one rounding. *)
Lemma rounds_to_error (v : R) (r : spec_float) :
  rounds_to prec emax v r -> is_finite r = true ->
  (bpow (emin prec emax + prec - 1) <= Rabs v ->
   Rabs (SF2R r - v) <= bpow (- prec) * Rabs v) /\
  Rabs (SF2R r - v) <= bpow (- prec) * Rabs v + bpow (emin prec emax - 1).
Proof.
  intros Hr Hfin.
  destruct Hr as [[Hv [s ->]] | [[Hv Hr] | [Hv Hr]]].
  - subst v. cbn [SF2R]. rewrite Rminus_diag, Rabs_R0, Rmult_0_r.
    pose proof (bpow_pos (emin prec emax - 1)). split; intros; lra.
  - rewrite (rounded_sign false v r Hr), (Rabs_pos_eq v) by lra.
    apply (rounded_error false v r Hr Hfin). lra.
  - rewrite (rounded_sign true (- v) r Hr), (Rabs_left v) by lra.
    replace (- Rabs (SF2R r) - v) with (- (Rabs (SF2R r) - - v)) by ring.
    rewrite Rabs_Ropp. apply (rounded_error true (- v) r Hr Hfin). lra.
Qed.

(** Rounding is monotone: a smaller number has a float that is not
    larger. *)
Lemma rounds_to_mono (v w : R) (r r' : spec_float) :
  rounds_to prec emax v r -> rounds_to prec emax w r' ->
  0 <= v < w -> is_finite r' = true ->
  is_finite r = true /\ 0 <= SF2R r <= SF2R r'.
Proof.
  intros Hr Hr' [Hv Hvw] Hfin'.
  destruct Hr' as [[Hw _] | [[Hw Hr'] | [Hw _]]]; [lra | | lra].
  rewrite (rounded_sign false w r' Hr').
  destruct Hr as [[_ [s ->]] | [[Hv' Hr] | [Hv' _]]]; [ | | lra].
  - split; [reflexivity|]. cbn [SF2R]. pose proof (Rabs_pos (SF2R r')). lra.
  - destruct (rounded_mono false false v w r r' Hr Hr' Hvw Hfin') as [Hfin Hle].
    split; [exact Hfin|]. rewrite (rounded_sign false v r Hr).
    pose proof (Rabs_pos (SF2R r)). lra.
Qed.

End Format.
End IEEEFacts.
(** ** Key generators *)

Module KeysFacts.
Import Py Tensor Keys IEEE IEEEFacts.
Local Open Scope R_scope.

(** *** The two formats *)

Lemma prec64_pos : (0 < F64.prec)%Z.
Proof. reflexivity. Qed.

Lemma prec64_lt_emax : (F64.prec < F64.emax)%Z.
Proof. reflexivity. Qed.

Lemma prec32_pos : (0 < F32.prec)%Z.
Proof. reflexivity. Qed.

Lemma prec32_lt_emax : (F32.prec < F32.emax)%Z.
Proof. reflexivity. Qed.

Lemma bpow_nat (n : nat) : bpow (Z.of_nat n) = 2 ^ n.
Proof. unfold bpow. now rewrite <- pow_powerRZ. Qed.

Lemma bpow_neg_nat (n : nat) : bpow (- Z.of_nat n) = / 2 ^ n.
Proof. now rewrite bpow_opp, bpow_nat. Qed.

Lemma in_format64_bpow (k : Z) : (-1074 <= k)%Z -> in_format F64.prec F64.emax (bpow k).
Proof. intros H. apply in_format_bpow; [reflexivity | exact H]. Qed.

Lemma in_format32_bpow (k : Z) : (-149 <= k)%Z -> in_format F32.prec F32.emax (bpow k).
Proof. intros H. apply in_format_bpow; [reflexivity | exact H]. Qed.

(** A valid positive [float64] and its value. *)
Lemma bounded64_in_format (M : positive) (e : Z) :
  bounded F64.prec F64.emax M e = true ->
  in_format F64.prec F64.emax (F2R (Z.pos M) e) /\ F2R (Z.pos M) e < bpow 1024.
Proof. apply bounded_in_format. reflexivity. Qed.

(** *** The bound [1 / math.sqrt(dim)] *)

Lemma of_Z_exact (z : Z) :
  (1 <= z < 2 ^ 53)%Z ->
  exists M e, F64.of_Z z = S754_finite false M e /\
              bounded F64.prec F64.emax M e = true /\ F2R (Z.pos M) e = IZR z.
Proof.
  intros Hz.
  pose proof (binary_normalize_rounded F64.prec F64.emax prec64_pos prec64_lt_emax
                z 0 false ltac:(lia)) as Hr.
  replace (z <? 0)%Z with false in Hr by (symmetry; apply Z.ltb_ge; lia).
  assert (Hv : Rabs (F2R z 0) = IZR z).
  { unfold F2R. rewrite bpow_0, Rmult_1_r. apply Rabs_pos_eq. apply IZR_le. lia. }
  rewrite Hv in Hr.
  assert (Hf : in_format F64.prec F64.emax (IZR z)).
  { exists z, 0%Z. split; [unfold F2R; rewrite bpow_0; ring|].
    split; [change F64.prec with 53%Z; lia | discriminate]. }
  assert (Hlt : IZR z < bpow F64.emax).
  { apply Rlt_le_trans with (bpow 53).
    - rewrite <- IZR_pow2 by lia. apply IZR_lt. lia.
    - apply bpow_le. discriminate. }
  destruct (rounded_between F64.prec F64.emax prec64_pos false (IZR z) (IZR z) (IZR z)
              (F64.of_Z z) Hr ltac:(lra) ltac:(apply IZR_lt; lia) Hf Hf Hlt)
    as [M [e [E [Hb Hval]]]].
  exists M, e. split; [exact E|]. split; [exact Hb | lra].
Qed.

Lemma bpow_m53 : bpow (-53) = / 9007199254740992.
Proof.
  change (-53)%Z with (Z.opp 53). rewrite bpow_opp, <- (IZR_pow2 53) by lia. reflexivity.
Qed.

Lemma bpow_m24 : bpow (-24) = / 16777216.
Proof.
  change (-24)%Z with (Z.opp 24). rewrite bpow_opp, <- (IZR_pow2 24) by lia. reflexivity.
Qed.

Lemma sqrt_bpow_even (k : Z) : sqrt (bpow (2 * k)) = bpow k.
Proof.
  replace (2 * k)%Z with (k + k)%Z by lia. rewrite bpow_plus.
  apply sqrt_square. pose proof (bpow_pos k). lra.
Qed.

Lemma math_sqrt_spec (d : nat) :
  (1 <= Z.of_nat d < 2 ^ 53)%Z ->
  exists M e, math_sqrt d = inr (S754_finite false M e) /\
    bounded F64.prec F64.emax M e = true /\
    1 <= F2R (Z.pos M) e <= bpow 27 /\
    Rabs (F2R (Z.pos M) e - sqrt (INR d)) <= bpow (-53) * sqrt (INR d).
Proof.
  intros Hd. destruct (of_Z_exact (Z.of_nat d) Hd) as [M0 [e0 [E0 [Hb0 Hv0]]]].
  unfold math_sqrt. rewrite E0. rewrite INR_IZR_INZ, <- Hv0.
  pose proof (SFsqrt_rounded F64.prec F64.emax prec64_pos prec64_lt_emax M0 e0) as Hr.
  fold (F64.sqrt (S754_finite false M0 e0)) in Hr.
  assert (H1 : 1 <= sqrt (F2R (Z.pos M0) e0)).
  { rewrite <- sqrt_1 at 1. apply sqrt_le_1_alt. rewrite Hv0. apply IZR_le. lia. }
  assert (H2 : sqrt (F2R (Z.pos M0) e0) <= bpow 27).
  { rewrite <- (sqrt_bpow_even 27). apply sqrt_le_1_alt. rewrite Hv0.
    change (2 * 27)%Z with 54%Z. rewrite <- IZR_pow2 by lia. apply IZR_le. lia. }
  destruct (rounded_between F64.prec F64.emax prec64_pos false _ 1 (bpow 27) _ Hr
              (conj H1 H2) ltac:(lra)
              (in_format64_bpow 0 ltac:(lia)) (in_format64_bpow 27 ltac:(lia))
              (bpow_lt 27 1024 ltac:(lia)))
    as [M [e [E [Hb Hval]]]].
  exists M, e. split; [now rewrite E|]. split; [exact Hb|]. split; [exact Hval|].
  assert (Hfin : is_finite (F64.sqrt (S754_finite false M0 e0)) = true) by now rewrite E.
  destruct (rounded_error F64.prec F64.emax false _ _ Hr Hfin ltac:(lra)) as [Hrel _].
  rewrite E, SF2R_finite_abs in Hrel. apply Hrel.
  apply Rle_trans with (2 := H1). rewrite <- bpow_0. apply bpow_le. discriminate.
Qed.

Lemma of_Z_one : F64.of_Z 1 = S754_finite false 4503599627370496 (-52).
Proof. reflexivity. Qed.

Lemma F2R_one : F2R (Z.pos 4503599627370496) (-52) = 1.
Proof.
  unfold F2R. change (Z.pos 4503599627370496) with (2 ^ 52)%Z.
  rewrite IZR_pow2 by lia. rewrite <- bpow_plus. apply bpow_0.
Qed.

(** The bound is a positive float within three units of the last place
    of [1 / sqrt dim]. *)
Lemma uniform_bound_spec (d : nat) :
  (1 <= Z.of_nat d < 2 ^ 53)%Z ->
  exists M e, uniform_bound d = inr (S754_finite false M e) /\
    bounded F64.prec F64.emax M e = true /\
    bpow (-27) <= F2R (Z.pos M) e <= 1 /\
    (1 - 3 * bpow (-53)) / sqrt (INR d) <= F2R (Z.pos M) e
      <= (1 + 3 * bpow (-53)) / sqrt (INR d).
Proof.
  intros Hd. destruct (math_sqrt_spec d Hd) as [Ms [es [Es [Hbs [[Hs1 Hs2] Hserr]]]]].
  unfold uniform_bound. rewrite Es. cbn [bind one_over ret]. rewrite of_Z_one.
  pose proof (SFdiv_rounded F64.prec F64.emax prec64_pos prec64_lt_emax
                false false 4503599627370496 Ms (-52) es) as Hr.
  cbn [xorb] in Hr. rewrite F2R_one in Hr.
  fold (F64.div (S754_finite false 4503599627370496 (-52)) (S754_finite false Ms es)) in Hr.
  set (v := F2R (Z.pos Ms) es) in *.
  assert (H1 : bpow (-27) <= 1 / v).
  { change (-27)%Z with (Z.opp 27). rewrite bpow_opp. unfold Rdiv. rewrite Rmult_1_l.
    apply Rinv_le_contravar; lra. }
  assert (H2 : 1 / v <= 1).
  { unfold Rdiv. rewrite Rmult_1_l. apply Rle_trans with (/ 1).
    - apply Rinv_le_contravar; lra.
    - rewrite Rinv_1. lra. }
  assert (F1 : in_format F64.prec F64.emax 1).
  { pose proof (in_format64_bpow 0 ltac:(lia)) as F. now rewrite bpow_0 in F. }
  assert (L1 : 1 < bpow F64.emax).
  { pose proof (bpow_lt 0 F64.emax eq_refl) as L. now rewrite bpow_0 in L. }
  destruct (rounded_between F64.prec F64.emax prec64_pos false _ (bpow (-27)) 1 _ Hr
              (conj H1 H2) (bpow_pos _) (in_format64_bpow (-27) ltac:(lia)) F1 L1)
    as [M [e [E [Hb Hval]]]].
  exists M, e. split; [now rewrite E|]. split; [exact Hb|]. split; [exact Hval|].
  assert (Hfin : is_finite
            (F64.div (S754_finite false 4503599627370496 (-52)) (S754_finite false Ms es))
            = true) by now rewrite E.
  assert (H0 : 0 <= 1 / v) by (pose proof (bpow_pos (-27)); lra).
  destruct (rounded_error F64.prec F64.emax false _ _ Hr Hfin H0) as [Hrel _].
  rewrite E, SF2R_finite_abs in Hrel.
  assert (Hn : bpow (emin F64.prec F64.emax + F64.prec - 1) <= 1 / v).
  { apply Rle_trans with (2 := H1). apply bpow_le. discriminate. }
  specialize (Hrel Hn). change (bpow (- F64.prec)) with (bpow (-53)) in Hrel.
  apply Rabs_le_inv in Hrel. apply Rabs_le_inv in Hserr.
  set (b := F2R (Z.pos M) e) in *. set (u := bpow (-53)) in *.
  set (t := sqrt (INR d)) in *.
  assert (Hu : 0 < u <= / 8).
  { split; [apply bpow_pos|]. unfold u. rewrite bpow_m53. lra. }
  assert (Ht : 0 < t).
  { unfold t. apply sqrt_lt_R0. rewrite INR_IZR_INZ. apply IZR_lt. lia. }
  assert (Hv : 0 < v) by lra.
  assert (Hb' : b * v <= 1 + u /\ 1 - u <= b * v).
  { split.
    - replace (1 + u) with ((1 / v + u * (1 / v)) * v) by (field; lra).
      apply Rmult_le_compat_r; lra.
    - replace (1 - u) with ((1 / v - u * (1 / v)) * v) by (field; lra).
      apply Rmult_le_compat_r; lra. }
  split.
  - apply Rmult_le_reg_r with t; [exact Ht|].
    replace ((1 - 3 * u) / t * t) with (1 - 3 * u) by (field; lra). nra.
  - apply Rmult_le_reg_r with t; [exact Ht|].
    replace ((1 + 3 * u) / t * t) with (1 + 3 * u) by (field; lra). nra.
Qed.

(** *** Conversion to [float32] *)

Lemma to_float32_rounds (x : F64.float64) :
  is_finite x = true -> rounds_to F32.prec F32.emax (SF2R x) (F64.to_float32 x).
Proof.
  intros Fx. destruct x as [s | s | | s m e]; try discriminate.
  - left. split; [reflexivity | cbn; eauto].
  - cbn [F64.to_float32 SF2R].
    apply (binary_normalize_rounds F32.prec F32.emax prec32_pos prec32_lt_emax).
Qed.

Lemma to_float32_round (s : bool) (m : positive) (e : Z) :
  F64.to_float32 (S754_finite s m e) = binary_round F32.prec F32.emax s m e.
Proof. destruct s; reflexivity. Qed.

(** The conversion is monotone in the magnitude. *)
Lemma to_float32_le (x : F64.float64) (M : positive) (e : Z) :
  valid_binary F64.prec F64.emax x = true -> is_finite x = true ->
  bounded F64.prec F64.emax M e = true ->
  Rabs (SF2R x) <= F2R (Z.pos M) e ->
  is_finite (F64.to_float32 (S754_finite false M e)) = true ->
  is_finite (F64.to_float32 x) = true /\
  Rabs (SF2R (F64.to_float32 x)) <= SF2R (F64.to_float32 (S754_finite false M e)).
Proof.
  intros Vx Fx Hb Hle Hfin.
  rewrite to_float32_round in Hfin |- *.
  pose proof (binary_round_rounded F32.prec F32.emax prec32_pos prec32_lt_emax false M e)
    as Hrb.
  assert (HB : SF2R (binary_round F32.prec F32.emax false M e)
               = Rabs (SF2R (binary_round F32.prec F32.emax false M e))).
  { apply (rounded_sign F32.prec F32.emax false _ _ Hrb). }
  rewrite HB.
  destruct x as [s | s | | s m' e']; try discriminate.
  - split; [reflexivity|]. cbn [F64.to_float32 SF2R]. rewrite Rabs_R0. apply Rabs_pos.
  - rewrite to_float32_round. rewrite SF2R_finite_abs in Hle.
    destruct (binary_round_abs F32.prec F32.emax s m' e')
      as [-> ->].
    pose proof (binary_round_rounded F32.prec F32.emax prec32_pos prec32_lt_emax false m' e')
      as Hrx.
    destruct Hle as [Hlt | Heq].
    + apply (rounded_mono F32.prec F32.emax prec32_pos false false _ _ _ _ Hrx Hrb Hlt Hfin).
    + destruct (bounded_unique F64.prec F64.emax m' M e' e Vx Hb Heq) as [-> ->].
      split; [exact Hfin | lra].
Qed.

(** *** The uniform generator *)

Section Uniform.
Variable random_sample : Z -> nat -> Z.
Variable add_reduce : list F64.float64 -> F64.float64.

(** A draw is one of the [2^53] numbers [k / 2^53]. *)
Hypothesis random_sample_range :
  forall rng c, (0 <= random_sample rng c < 2 ^ 53)%Z.

Lemma next_double_spec (rng : Z) (c : nat) :
  let u := next_double random_sample rng c in
  valid_binary F64.prec F64.emax u = true /\ is_finite u = true /\
  SF2R u = IZR (random_sample rng c) * bpow (-53) /\ 0 <= SF2R u < 1.
Proof.
  cbv zeta. unfold next_double.
  pose proof (random_sample_range rng c) as Hk.
  set (k := random_sample rng c) in *.
  pose proof (binary_normalize_rounds F64.prec F64.emax prec64_pos prec64_lt_emax
                k (-53) false) as Hr.
  assert (Hf : in_format F64.prec F64.emax (F2R k (-53))).
  { exists k, (-53)%Z. split; [reflexivity|]. split; [change F64.prec with 53%Z; lia|].
    discriminate. }
  assert (H01 : 0 <= F2R k (-53) < 1).
  { unfold F2R. pose proof (bpow_pos (-53)) as Hp. split.
    - apply Rmult_le_pos; [apply IZR_le; lia | lra].
    - apply Rlt_le_trans with (bpow 53 * bpow (-53)).
      + apply Rmult_lt_compat_r; [exact Hp|]. rewrite <- IZR_pow2 by lia.
        apply IZR_lt. lia.
      + rewrite <- bpow_plus. change (53 + -53)%Z with 0%Z. rewrite bpow_0. lra. }
  assert (Hlt : Rabs (F2R k (-53)) < bpow F64.emax).
  { rewrite Rabs_pos_eq by lra. apply Rlt_trans with 1; [lra|].
    rewrite <- bpow_0. apply bpow_lt. reflexivity. }
  destruct (rounds_to_bounds F64.prec F64.emax prec64_pos _ _ _ _ Hr
              (conj (Rle_refl _) (Rle_refl _)) Hf Hf Hlt Hlt) as [Hfin Hval].
  split; [exact (rounds_to_valid F64.prec F64.emax _ _ Hr)|]. split; [exact Hfin|].
  assert (E : SF2R (binary_normalize F64.prec F64.emax k (-53) false) = F2R k (-53)) by lra.
  rewrite E. split; [reflexivity | exact H01].
Qed.

(** Every entry drawn between [-bound] and [bound] stays there, both
    roundings included. *)
Lemma uniform_entry (M : positive) (e : Z) (u : F64.float64) :
  bounded F64.prec F64.emax M e = true -> F2R (Z.pos M) e <= 1 ->
  valid_binary F64.prec F64.emax u = true -> is_finite u = true -> 0 <= SF2R u <= 1 ->
  let bound := S754_finite false M e in
  let range := F64.sub bound (F64.opp bound) in
  let x := F64.add (F64.opp bound) (F64.mul range u) in
  is_finite range = true /\
  valid_binary F64.prec F64.emax x = true /\ is_finite x = true /\
  Rabs (SF2R x) <= F2R (Z.pos M) e.
Proof.
  intros Hb Hb1 Vu Fu Hu bound range x.
  pose proof (F2R_pos M e) as Hbp.
  destruct (bounded64_in_format M e Hb) as [Fb Hbm].
  set (b := F2R (Z.pos M) e) in *.
  assert (Vlow : valid_binary F64.prec F64.emax (F64.opp bound) = true) by exact Hb.
  assert (Slow : SF2R (F64.opp bound) = - b).
  { unfold bound, F64.opp. cbn [SFopp negb]. now rewrite SF2R_finite_sign. }
  assert (Sb : SF2R bound = b) by (unfold bound; now rewrite SF2R_finite_sign).
  (* the width of the interval *)
  pose proof (SFsub_rounds F64.prec F64.emax prec64_pos prec64_lt_emax bound (F64.opp bound)
                Hb Vlow eq_refl eq_refl) as Hrange.
  fold (F64.sub bound (F64.opp bound)) in Hrange. fold range in Hrange.
  rewrite Sb, Slow in Hrange.
  assert (F2b : in_format F64.prec F64.emax (b - - b)).
  { destruct (bounded_spec F64.prec F64.emax M e Hb) as [HM [[He _] _]].
    exists (Z.pos M), (e + 1)%Z. split; [|split; [lia | lia]].
    unfold b, F2R. rewrite bpow_succ. ring. }
  assert (L2b : Rabs (b - - b) < bpow F64.emax).
  { rewrite Rabs_pos_eq by lra. apply Rle_lt_trans with 2; [lra|].
    rewrite <- bpow_1. apply bpow_lt. reflexivity. }
  destruct (rounds_to_bounds F64.prec F64.emax prec64_pos _ _ _ _ Hrange
              (conj (Rle_refl _) (Rle_refl _)) F2b F2b L2b L2b) as [Frange Srange].
  assert (Srange' : SF2R range = 2 * b) by lra.
  pose proof (rounds_to_valid F64.prec F64.emax _ _ Hrange) as Vrange.
  split; [exact Frange|].
  (* the draw scaled to the width *)
  pose proof (SFmul_rounds F64.prec F64.emax prec64_pos prec64_lt_emax range u
                Vrange Vu Frange Fu) as Ht.
  fold (F64.mul range u) in Ht. rewrite Srange' in Ht.
  assert (L0 : Rabs 0 < bpow F64.emax) by (rewrite Rabs_R0; apply bpow_pos).
  replace (b - - b) with (2 * b) in F2b, L2b by ring.
  destruct (rounds_to_bounds F64.prec F64.emax prec64_pos _ 0 (2 * b) _ Ht
              ltac:(split; nra) (in_format_0 F64.prec F64.emax prec64_pos)
              F2b L0 L2b) as [Ft St].
  pose proof (rounds_to_valid F64.prec F64.emax _ _ Ht) as Vt.
  (* shifted to the lower end *)
  pose proof (SFadd_rounds F64.prec F64.emax prec64_pos prec64_lt_emax (F64.opp bound)
                (F64.mul range u) Vlow Vt eq_refl Ft) as Hx.
  fold (F64.add (F64.opp bound) (F64.mul range u)) in Hx. fold x in Hx.
  rewrite Slow in Hx.
  assert (Lb : Rabs b < bpow F64.emax) by (rewrite Rabs_pos_eq by lra; exact Hbm).
  assert (Lb' : Rabs (- b) < bpow F64.emax) by (rewrite Rabs_Ropp; exact Lb).
  destruct (rounds_to_bounds F64.prec F64.emax prec64_pos _ (- b) b _ Hx
              ltac:(lra) (in_format_opp F64.prec F64.emax prec64_pos b Fb) Fb Lb' Lb) as [Fx Sx].
  split; [exact (rounds_to_valid F64.prec F64.emax _ _ Hx)|]. split; [exact Fx|].
  apply Rabs_le. exact Sx.
Qed.

Lemma RandomState_ok (seed : Z) :
  (0 <= seed < 2 ^ 32)%Z -> RandomState seed = inr seed.
Proof.
  intros [H1 H2]. unfold RandomState.
  apply Z.leb_le in H1. apply Z.ltb_lt in H2. now rewrite H1, H2.
Qed.

Lemma RandomState_fails (seed : Z) :
  ~ (0 <= seed < 2 ^ 32)%Z -> RandomState seed = inl ValueError.
Proof.
  intros H. unfold RandomState.
  destruct (Z.leb_spec 0 seed); destruct (Z.ltb_spec seed (2 ^ 32)); try reflexivity.
  exfalso. apply H. lia.
Qed.

(** The [float32] of the bound is within [2^-23], relatively, of
    [1 / sqrt dim]. *)
Lemma float32_bound_spec (d : nat) (M : positive) (e : Z) :
  (1 <= Z.of_nat d < 2 ^ 53)%Z ->
  bounded F64.prec F64.emax M e = true ->
  bpow (-27) <= F2R (Z.pos M) e <= 1 ->
  (1 - 3 * bpow (-53)) / sqrt (INR d) <= F2R (Z.pos M) e
    <= (1 + 3 * bpow (-53)) / sqrt (INR d) ->
  is_finite (F64.to_float32 (S754_finite false M e)) = true /\
  (1 - / 2 ^ 23) / sqrt (INR d) <= SF2R (F64.to_float32 (S754_finite false M e))
    <= (1 + / 2 ^ 23) / sqrt (INR d).
Proof.
  intros Hd Hb [Hb1 Hb2] [Hlo Hhi].
  pose proof (to_float32_rounds (S754_finite false M e) eq_refl) as Hr.
  rewrite SF2R_finite_sign in Hr.
  set (b := F2R (Z.pos M) e) in *.
  set (B := SF2R (F64.to_float32 (S754_finite false M e))) in *.
  assert (F1 : in_format F32.prec F32.emax 1).
  { pose proof (in_format32_bpow 0 ltac:(lia)) as F. now rewrite bpow_0 in F. }
  assert (L1 : Rabs 1 < bpow F32.emax).
  { rewrite Rabs_R1. pose proof (bpow_lt 0 F32.emax eq_refl) as L.
    now rewrite bpow_0 in L. }
  assert (Lm : Rabs (bpow (-27)) < bpow F32.emax).
  { rewrite Rabs_pos_eq by (pose proof (bpow_pos (-27)); lra). apply bpow_lt. reflexivity. }
  destruct (rounds_to_bounds F32.prec F32.emax prec32_pos b (bpow (-27)) 1 _ Hr
              (conj Hb1 Hb2) (in_format32_bpow (-27) ltac:(lia)) F1 Lm L1) as [Hfin _].
  split; [exact Hfin|].
  destruct (rounds_to_error F32.prec F32.emax b _ Hr Hfin) as [Hrel _].
  pose proof (bpow_pos (-27)) as Hp27.
  rewrite (Rabs_pos_eq b) in Hrel by lra.
  assert (Hn : bpow (emin F32.prec F32.emax + F32.prec - 1) <= b).
  { apply Rle_trans with (2 := Hb1). apply bpow_le. discriminate. }
  specialize (Hrel Hn). change (bpow (- F32.prec)) with (bpow (-24)) in Hrel.
  fold B in Hrel. apply Rabs_le_inv in Hrel.
  rewrite bpow_m24 in Hrel. rewrite bpow_m53 in Hlo, Hhi.
  assert (Ht : 0 < sqrt (INR d)).
  { apply sqrt_lt_R0. rewrite INR_IZR_INZ. apply IZR_lt. lia. }
  set (t := sqrt (INR d)) in *.
  assert (P23 : 2 ^ 23 = 8388608) by (simpl; lra).
  rewrite P23.
  assert (Hbt : 1 - 3 * / 9007199254740992 <= b * t <= 1 + 3 * / 9007199254740992).
  { split.
    - replace (1 - 3 * / 9007199254740992)
        with ((1 - 3 * / 9007199254740992) / t * t) by (field; lra).
      apply Rmult_le_compat_r; lra.
    - replace (1 + 3 * / 9007199254740992)
        with ((1 + 3 * / 9007199254740992) / t * t) by (field; lra).
      apply Rmult_le_compat_r; lra. }
  assert (HBt : (1 - / 16777216) * (b * t) <= B * t <= (1 + / 16777216) * (b * t)).
  { split.
    - replace ((1 - / 16777216) * (b * t)) with ((b - / 16777216 * b) * t) by ring.
      apply Rmult_le_compat_r; lra.
    - replace ((1 + / 16777216) * (b * t)) with ((b + / 16777216 * b) * t) by ring.
      apply Rmult_le_compat_r; lra. }
  split.
  - apply Rmult_le_reg_r with t; [exact Ht|].
    replace ((1 - / 8388608) / t * t) with (1 - / 8388608) by (field; lra).
    apply Rle_trans with (2 := proj1 HBt). nra.
  - apply Rmult_le_reg_r with t; [exact Ht|].
    replace ((1 + / 8388608) / t * t) with (1 + / 8388608) by (field; lra).
    apply Rle_trans with (1 := proj2 HBt). nra.
Qed.

(** C8, as the code has it.  For a dimension [d] from [1] up to (not
    including) [2^53] and a seed from [0] to [2^32 - 1], the uniform
    generator called without normalisation returns a matrix of shape
    [(n_keys, d)] whose entries are finite [float32] numbers between [-B]
    and [B], where [B] is the [float32] nearest to the bound
    [1 / math.sqrt(d)] that the code computes; [B] is within [2^-23],
    relatively, of [1 / sqrt d], and may be above it. *)
Theorem get_uniform_keys_range (n_keys d : nat) (seed : Z) :
  (1 <= d)%nat -> (Z.of_nat d < 2 ^ 53)%Z -> (0 <= seed < 2 ^ 32)%Z ->
  exists (X : tensor F32.float32) (bound : F64.float64),
    uniform_bound d = inr bound /\
    get_uniform_keys random_sample add_reduce n_keys d false seed = inr X /\
    shape X = [n_keys; d] /\
    (1 - / 2 ^ 23) / sqrt (INR d) <= SF2R (F64.to_float32 bound)
      <= (1 + / 2 ^ 23) / sqrt (INR d) /\
    forall i j, (i < n_keys)%nat -> (j < d)%nat ->
      is_finite (at_ X [i; j]) = true /\
      - SF2R (F64.to_float32 bound) <= SF2R (at_ X [i; j])
        <= SF2R (F64.to_float32 bound).
Proof.
  intros Hd1 Hd2 Hseed.
  assert (Hd : (1 <= Z.of_nat d < 2 ^ 53)%Z) by lia.
  destruct (uniform_bound_spec d Hd) as [M [e [E [Hb [Hb1 Herr]]]]].
  destruct (float32_bound_spec d M e Hd Hb Hb1 Herr) as [FB HB].
  pose proof (fun u Vu Fu Hu => uniform_entry M e u Hb (proj2 Hb1) Vu Fu Hu) as He.
  cbv zeta in He.
  assert (Hrange : is_finite (F64.sub (S754_finite false M e)
                                (F64.opp (S754_finite false M e))) = true).
  { destruct (next_double_spec seed 0) as [Vu [Fu [_ Hu]]].
    apply (He _ Vu Fu). lra. }
  eexists _, (S754_finite false M e). split; [exact E|]. split.
  - unfold get_uniform_keys. rewrite (RandomState_ok seed Hseed). cbn [bind].
    rewrite E. cbn [bind]. unfold uniform. rewrite Hrange. cbn [bind ret]. reflexivity.
  - split; [reflexivity|]. split; [exact HB|].
    intros i j _ _. cbn [astype_float32 at_].
    destruct (next_double_spec seed (ravel [n_keys; d] [i; j])) as [Vu [Fu [_ Hu]]].
    destruct (He _ Vu Fu ltac:(lra)) as [_ [Vx [Fx Hx]]].
    destruct (to_float32_le _ M e Vx Fx Hb Hx FB) as [Fy Hy].
    split; [exact Fy|]. apply Rabs_le_inv. exact Hy.
Qed.

End Uniform.

Lemma sample_stream_range (rng : Z) (c : nat) : (0 <= sample_stream rng c < 2 ^ 53)%Z.
Proof. unfold sample_stream. destruct (Nat.eqb c 0); split; reflexivity || discriminate. Qed.

Lemma get_uniform_keys_range_witness :
  exists X, get_uniform_keys sample_stream sum_left 3 4 false 7 = inr X /\
    shape X = [3; 4]%nat /\ is_finite (at_ X [2; 3]%nat) = true.
Proof.
  destruct (get_uniform_keys_range sample_stream sum_left sample_stream_range 3 4 7%Z
              ltac:(lia) ltac:(reflexivity) ltac:(split; [discriminate | reflexivity]))
    as [X [bound [_ [E [Hs [_ Hent]]]]]].
  exists X. split; [exact E|]. split; [exact Hs|].
  apply (Hent 2%nat 3%nat); lia.
Defined.

(** C8, as stated, fails in three ways.  With the dimension [59] and
    draws that are all [0] the entry is the [float32] nearest to
    [-1 / math.sqrt(59)], which is [-8736830 / 2^26] and lies below
    [-1 / sqrt 59]: the conversion to 32 bits rounds it away from zero.
    With [normalized] set, the first row of a two-column matrix drawn as
    [(bound / 2, 0)] comes back as [(1, 0)], and [1 > 1 / sqrt 2].  With
    the seed [-1] no matrix is returned. *)
Lemma get_uniform_keys_range_counterexample :
  (forall rng c, (0 <= zero_stream rng c < 2 ^ 53)%Z) /\
  (exists X, get_uniform_keys zero_stream sum_left 1 59 false 0 = inr X /\
     SF2R (at_ X [0; 0]%nat) < - (1 / sqrt 59)) /\
  (exists X, get_uniform_keys sample_stream sum_left 1 2 true 0 = inr X /\
     1 / sqrt 2 < SF2R (at_ X [0; 0]%nat)) /\
  get_uniform_keys sample_stream sum_left 1 59 false (-1) = inl ValueError.
Proof.
  split; [intros; split; reflexivity|]. split; [|split; [|vm_compute; reflexivity]].
  - assert (E : match get_uniform_keys zero_stream sum_left 1 59 false 0 with
                | inr X => Some (at_ X [0; 0]%nat)
                | inl _ => None
                end = Some (S754_finite true 8736830 (-26)))
      by (vm_compute; reflexivity).
    destruct (get_uniform_keys zero_stream sum_left 1 59 false 0) as [err | X];
      [discriminate|].
    injection E as E2. exists X. split; [reflexivity|]. rewrite E2.
    rewrite SF2R_finite_sign. unfold F2R.
    change (-26)%Z with (Z.opp 26). rewrite bpow_opp, <- (IZR_pow2 26) by lia.
    change (2 ^ 26)%Z with 67108864%Z.
    apply Ropp_lt_contravar.
    assert (Hc : 67108864 / 8736830 < sqrt 59).
    { rewrite <- (sqrt_square (67108864 / 8736830)) by lra.
      apply sqrt_lt_1_alt. lra. }
    assert (Hs : 0 < sqrt 59) by lra.
    apply Rmult_lt_reg_r with (sqrt 59); [exact Hs|].
    replace (1 / sqrt 59 * sqrt 59) with 1 by (field; lra). lra.
  - assert (E : match get_uniform_keys sample_stream sum_left 1 2 true 0 with
                | inr X => Some (at_ X [0; 0]%nat)
                | inl _ => None
                end = Some (S754_finite false 8388608 (-23)))
      by (vm_compute; reflexivity).
    destruct (get_uniform_keys sample_stream sum_left 1 2 true 0) as [err | X];
      [discriminate|].
    injection E as E2. exists X. split; [reflexivity|]. rewrite E2.
    rewrite SF2R_finite_sign. unfold F2R.
    change (-23)%Z with (Z.opp 23). rewrite bpow_opp, <- (IZR_pow2 23) by lia.
    change (2 ^ 23)%Z with 8388608%Z.
    replace (8388608 * / 8388608) with 1 by field.
    assert (Hc : 1 < sqrt 2).
    { rewrite <- sqrt_1 at 1. apply sqrt_lt_1_alt. lra. }
    apply Rmult_lt_reg_r with (sqrt 2); [lra|].
    replace (1 / sqrt 2 * sqrt 2) with 1 by (field; lra). lra.
Qed.

End KeysFacts.
